(** * Truth-table generator: a shallow embedding of [truth_table_generator.cpp]

    The development follows the pipeline of the program: the [Token] class,
    the [Lexer] class, [validateTokenString], [toPostFix] and [evaluate].

    Modelling conventions.
    - [std::string] is [string]; a [char] is an [ascii] (one byte).
    - [std::vector<Token>] is [list Token]; [std::stack<T>] is a [list T]
      whose head is the top of the stack.
    - [std::map<std::string, Token>] is an association list kept in strictly
      ascending key order, which is the order in which a [std::map] is
      iterated ([StdMap]).
    - The positions of the lexer ([int]) are natural numbers: a line shorter
      than 2^31 characters never overflows them.  The row counter of
      [evaluate] and the shift [1 << size] are 32-bit [int]s and are modelled
      in [Z] with the wrap-around written out.
    - Undefined behaviour of the C++ program ([top]/[pop] on an empty stack, a
      shift by 32 or more) is the result [None] or [Undefined].
    - The reads of the token vector by [validateTokenString] are logged with
      their index. A read outside the vector is undefined behaviour as well;
      to follow the program past it, such a read yields the token an oracle
      [oob] provides for its index, and the statements hold for every
      oracle. For each check of the validator some token type answers as a
      value outside the enumeration would, so the oracle also covers
      garbage. *)

From Stdlib Require Import ZArith List String Ascii Bool Lia Permutation Sorted.
Import ListNotations.

Local Open Scope string_scope.
Local Open Scope list_scope.

(** ** class Token *)

Module Token.

Inductive Type_ : Set :=
| TRUTH_VALUE
| PROPOSITION
| NEGATION
| CONJUNCTION
| DISJUNCTION
| IMPLICATION
| BICONDITIONAL
| LPAREN
| RPAREN.

Inductive Precedence : Set := L1 | L2 | L3 | L4 | L5 | NA.

Record t : Set := Token
  { _type : Type_;
    _precedence : Precedence;
    _value : bool;
    _lexeme : string }.

(** [Token()] *)
Definition default : t := Token TRUTH_VALUE NA false "null".

Definition type (tk : t) : Type_ := _type tk.

(** [precedence()] returns the enumerator as an [int]. *)
Definition precedence (tk : t) : Z :=
  match _precedence tk with
  | L1 => 0 | L2 => 1 | L3 => 2 | L4 => 3 | L5 => 4 | NA => 5
  end%Z.

Definition value (tk : t) : bool := _value tk.
Definition lexeme (tk : t) : string := _lexeme tk.

Definition isOperator (tk : t) : bool :=
  match _type tk with
  | NEGATION | CONJUNCTION | DISJUNCTION | IMPLICATION | BICONDITIONAL => true
  | _ => false
  end.

Definition Type_eqb (a b : Type_) : bool :=
  match a, b with
  | TRUTH_VALUE, TRUTH_VALUE | PROPOSITION, PROPOSITION
  | NEGATION, NEGATION | CONJUNCTION, CONJUNCTION
  | DISJUNCTION, DISJUNCTION | IMPLICATION, IMPLICATION
  | BICONDITIONAL, BICONDITIONAL | LPAREN, LPAREN | RPAREN, RPAREN => true
  | _, _ => false
  end.

(** [setValue]: does nothing unless the token is a propositional variable. *)
Definition setValue (v : bool) (tk : t) : t :=
  if Type_eqb (_type tk) PROPOSITION
  then Token (_type tk) (_precedence tk) v (_lexeme tk)
  else tk.

End Token.

Abbreviation Token := Token.t.

(** ** std::map<std::string, Token> *)

Module StdMap.

Definition t : Set := list (string * Token).

Definition size (m : t) : nat := List.length m.

Definition keys (m : t) : list string := map fst m.

(** The order of the keys: [std::less<std::string>], which compares the
    characters as unsigned bytes. *)
Definition key_lt (a b : string) : Prop := String.compare a b = Lt.

Fixpoint find (k : string) (m : t) : option Token :=
  match m with
  | [] => None
  | (k', v) :: rest => if String.eqb k k' then Some v else find k rest
  end.

(** [insert]: an existing key keeps its value. *)
Fixpoint insert (k : string) (v : Token) (m : t) : t :=
  match m with
  | [] => [(k, v)]
  | (k', v') :: rest =>
      match String.compare k k' with
      | Lt => (k, v) :: m
      | Eq => m
      | Gt => (k', v') :: insert k v rest
      end
  end.

(** [operator[]]: a missing key is inserted with a default-constructed
    token. *)
Definition index (k : string) (m : t) : Token * t :=
  match find k m with
  | Some v => (v, m)
  | None => (Token.default, insert k Token.default m)
  end.

End StdMap.

(** ** class Lexer *)

Module Lexer.

Record t : Set := mk
  { _tokens : list Token;
    _proposition_tokens : StdMap.t;
    _source : string;
    _start_position : nat;
    _current_position : nat }.

Definition getTokens (l : t) : list Token := _tokens l.
Definition getPropositionTokens (l : t) : StdMap.t := _proposition_tokens l.

(** [_source[i]] *)
Definition source_at (src : string) (i : nat) : ascii :=
  match String.get i src with
  | Some c => c
  | None => Ascii.zero
  end.

Definition endReached (l : t) : bool :=
  (String.length (_source l) <=? _current_position l)%nat.

Definition set_current (p : nat) (l : t) : t :=
  mk (_tokens l) (_proposition_tokens l) (_source l) (_start_position l) p.

Definition set_start (p : nat) (l : t) : t :=
  mk (_tokens l) (_proposition_tokens l) (_source l) p (_current_position l).

Definition push_token (tk : Token) (l : t) : t :=
  mk (_tokens l ++ [tk]) (_proposition_tokens l) (_source l)
     (_start_position l) (_current_position l).

Definition register (k : string) (tk : Token) (l : t) : t :=
  mk (_tokens l) (StdMap.insert k tk (_proposition_tokens l)) (_source l)
     (_start_position l) (_current_position l).

Fixpoint chars_from (src : string) (i count : nat) : string :=
  match count with
  | O => EmptyString
  | S n => String (source_at src i) (chars_from src (S i) n)
  end.

(** The characters at positions [_start_position .. _current_position]. *)
Definition getCurrentLexeme (l : t) : string :=
  chars_from (_source l) (_start_position l)
             (S (_current_position l) - _start_position l).

Definition addToken_type (ty : Token.Type_) (l : t) : t :=
  push_token (Token.Token ty Token.NA false (getCurrentLexeme l)) l.

Definition addToken_precedence (ty : Token.Type_) (p : Token.Precedence)
           (l : t) : t :=
  push_token (Token.Token ty p false (getCurrentLexeme l)) l.

Definition addToken_value (ty : Token.Type_) (v : bool) (l : t) : t :=
  push_token (Token.Token ty Token.NA v (getCurrentLexeme l)) l.

(** [matchNext] advances before it looks. *)
Definition matchNext (c : ascii) (l : t) : bool * t :=
  let l' := set_current (S (_current_position l)) l in
  if endReached l' then (false, l')
  else if negb (Ascii.eqb (source_at (_source l') (_current_position l')) c)
       then (false, l')
       else (true, l').

Definition is_one_of (c : ascii) (cs : list ascii) : bool :=
  existsb (Ascii.eqb c) cs.

Definition scanToken (l : t) : t :=
  let c := source_at (_source l) (_current_position l) in
  let l' :=
    if is_one_of c [" "%char] then l
    else if is_one_of c ["0"%char; "F"%char] then
      addToken_value Token.TRUTH_VALUE false l
    else if is_one_of c ["1"%char; "T"%char] then
      addToken_value Token.TRUTH_VALUE true l
    else if is_one_of c ["("%char] then
      addToken_precedence Token.LPAREN Token.NA l
    else if is_one_of c [")"%char] then
      addToken_precedence Token.RPAREN Token.NA l
    else if is_one_of c ["^"%char; "*"%char] then
      addToken_precedence Token.CONJUNCTION Token.L2 l
    else if is_one_of c ["v"%char; "+"%char] then
      addToken_precedence Token.DISJUNCTION Token.L3 l
    else if is_one_of c ["!"%char; "~"%char] then
      addToken_precedence Token.NEGATION Token.L1 l
    else if is_one_of c ["-"%char] then
      let (m, l1) := matchNext ">"%char l in
      if m then addToken_precedence Token.IMPLICATION Token.L4 l1 else l1
    else if is_one_of c ["<"%char] then
      let (m1, l1) := matchNext "-"%char l in
      if m1 then
        let (m2, l2) := matchNext ">"%char l1 in
        if m2 then addToken_precedence Token.BICONDITIONAL Token.L5 l2
        else l2
      else l1
    else
      let l1 := addToken_type Token.PROPOSITION l in
      register (getCurrentLexeme l1)
               (Token.Token Token.PROPOSITION Token.NA false
                            (getCurrentLexeme l1)) l1
  in
  set_current (S (_current_position l')) l'.

(** [scanTokens]: every iteration advances [_current_position], so
    [fuel] iterations suffice when [fuel] is the length of the source. *)
Fixpoint scanTokens (fuel : nat) (l : t) : t :=
  match fuel with
  | O => l
  | S fuel' =>
      if endReached l then l
      else scanTokens fuel' (scanToken (set_start (_current_position l) l))
  end.

(** [Lexer(source)] *)
Definition new (source : string) : t :=
  scanTokens (String.length source) (mk [] [] source 0 0).

End Lexer.

(** ** validateTokenString *)

(** A computation that reads the token vector yields its value together with
    the indices it read, in the order in which it read them. *)
Definition Reads (A : Type) : Type := (A * list Z)%type.

Definition ret {A : Type} (a : A) : Reads A := (a, []).

Definition bind {A B : Type} (m : Reads A) (f : A -> Reads B) : Reads B :=
  let (b, log) := f (fst m) in (b, snd m ++ log).

(** The short-circuit operators [||], [&&] and [!]. *)
Definition or_else (a b : Reads bool) : Reads bool :=
  bind a (fun x => if x then ret true else b).

Definition and_then (a b : Reads bool) : Reads bool :=
  bind a (fun x => if x then b else ret false).

Definition not_ (a : Reads bool) : Reads bool :=
  bind a (fun x => ret (negb x)).

Declare Scope reads_scope.
Delimit Scope reads_scope with reads.
Infix "|||" := or_else (at level 50, left associativity) : reads_scope.
Infix "&&&" := and_then (at level 40, left associativity) : reads_scope.

Section ValidateTokenString.

(** What a read outside the vector yields. *)
Variable oob : Z -> Token.
Variable tokens : list Token.

Definition tokens_size : Z := Z.of_nat (List.length tokens).

Definition in_range (i : Z) : bool := ((0 <=? i) && (i <? tokens_size))%Z.

(** [tokens[i]]: the index before the first token is [-1]. *)
Definition tokens_at (i : Z) : Reads Token :=
  (if in_range i then nth (Z.to_nat i) tokens Token.default else oob i, [i]).

Definition isOperator_at (i : Z) : Reads bool :=
  bind (tokens_at i) (fun tk => ret (Token.isOperator tk)).

Definition type_at_is (i : Z) (ty : Token.Type_) : Reads bool :=
  bind (tokens_at i) (fun tk => ret (Token.Type_eqb (Token.type tk) ty)).

(** The body of the [switch] for the token at index [i]: [true] when the
    flag is left alone. *)
Definition check_token (i : Z) : Reads bool :=
  bind (tokens_at i) (fun tk =>
    match Token.type tk with
    | Token.TRUTH_VALUE | Token.PROPOSITION =>
        (ret (tokens_size =? 1)%Z
         ||| (isOperator_at (i + 1)
              &&& not_ (type_at_is (i + 1) Token.NEGATION))
         ||| isOperator_at (i - 1)
         ||| type_at_is (i - 1) Token.LPAREN)%reads
    | Token.NEGATION =>
        (type_at_is (i + 1) Token.TRUTH_VALUE
         ||| type_at_is (i + 1) Token.PROPOSITION
         ||| type_at_is (i + 1) Token.LPAREN
         ||| type_at_is (i + 1) Token.NEGATION
         ||| type_at_is (i - 1) Token.LPAREN
         ||| (isOperator_at (i - 1)
              &&& not_ (type_at_is (i + 1) Token.NEGATION)))%reads
    | Token.CONJUNCTION | Token.DISJUNCTION
    | Token.IMPLICATION | Token.BICONDITIONAL =>
        (type_at_is (i + 1) Token.TRUTH_VALUE
         ||| type_at_is (i + 1) Token.PROPOSITION
         ||| type_at_is (i + 1) Token.LPAREN
         ||| type_at_is (i + 1) Token.NEGATION
         ||| type_at_is (i - 1) Token.TRUTH_VALUE
         ||| type_at_is (i - 1) Token.PROPOSITION
         ||| type_at_is (i - 1) Token.RPAREN)%reads
    | _ => ret true
    end).

(** The [for] loop: [n] iterations remain, [i] is the loop counter. *)
Fixpoint validate_loop (n : nat) (i : Z) (flag : bool) : Reads bool :=
  match n with
  | O => ret flag
  | S n' =>
      bind (check_token i) (fun ok =>
        validate_loop n' (i + 1) (if ok then flag else false))
  end.

Definition validateTokenString : Reads bool :=
  validate_loop (List.length tokens) 0 true.

End ValidateTokenString.

(** ** toPostFix *)

(** The inner [while] of the operator case: pops while the incoming operator
    has a greater precedence number than the top of the stack. *)
Fixpoint pop_tighter (tk : Token) (operators output : list Token)
  : list Token * list Token :=
  match operators with
  | [] => ([], output)
  | top :: rest =>
      if (Token.precedence tk >? Token.precedence top)%Z
      then pop_tighter tk rest (output ++ [top])
      else (operators, output)
  end.

(** The [while] of the right-parenthesis case; [top()] of an empty stack is
    undefined. *)
Fixpoint pop_to_lparen (operators output : list Token)
  : option (list Token * list Token) :=
  match operators with
  | [] => None
  | top :: rest =>
      if Token.Type_eqb (Token.type top) Token.LPAREN
      then Some (rest, output)
      else pop_to_lparen rest (output ++ [top])
  end.

(** The final [while]: empties the stack onto the output. *)
Fixpoint pop_all (operators output : list Token) : list Token :=
  match operators with
  | [] => output
  | top :: rest => pop_all rest (output ++ [top])
  end.

Fixpoint toPostFix_loop (tokens operators output : list Token)
  : option (list Token) :=
  match tokens with
  | [] => Some (pop_all operators output)
  | tk :: rest =>
      if Token.isOperator tk then
        let (operators', output') := pop_tighter tk operators output in
        toPostFix_loop rest (tk :: operators') output'
      else if Token.Type_eqb (Token.type tk) Token.LPAREN then
        toPostFix_loop rest (tk :: operators) output
      else if Token.Type_eqb (Token.type tk) Token.RPAREN then
        match pop_to_lparen operators output with
        | None => None
        | Some (operators', output') => toPostFix_loop rest operators' output'
        end
      else toPostFix_loop rest operators (output ++ [tk])
  end.

Definition toPostFix (tokens : list Token) : option (list Token) :=
  toPostFix_loop tokens [] [].

(** ** evaluate *)

(** The state the evaluation loop works on: the registry [propositions] and
    the stack [operands]. *)
Definition EvalState : Set := (StdMap.t * list bool)%type.

Definition solveBinary (func : bool -> bool -> bool) (operands : list bool)
  : option (bool * list bool) :=
  match operands with
  | right' :: left' :: rest => Some (func left' right', rest)
  | _ => None
  end.

Definition solveUnary (func : bool -> bool) (operands : list bool)
  : option (bool * list bool) :=
  match operands with
  | right' :: rest => Some (func right', rest)
  | [] => None
  end.

(** [left <= right] on two [bool]s, which are promoted to [int]. *)
Definition bool_le (left' right' : bool) : bool :=
  (Z.b2z left' <=? Z.b2z right')%Z.

Definition push_result (props : StdMap.t) (r : option (bool * list bool))
  : option EvalState :=
  match r with
  | Some (b, operands) => Some (props, b :: operands)
  | None => None
  end.

(** The [switch] of the post-fix loop. *)
Definition eval_token (tk : Token) (st : EvalState) : option EvalState :=
  let (props, operands) := st in
  match Token.type tk with
  | Token.TRUTH_VALUE => Some (props, Token.value tk :: operands)
  | Token.PROPOSITION =>
      let (x, props') := StdMap.index (Token.lexeme tk) props in
      Some (props', Token.value x :: operands)
  | Token.NEGATION => push_result props (solveUnary negb operands)
  | Token.CONJUNCTION => push_result props (solveBinary andb operands)
  | Token.DISJUNCTION => push_result props (solveBinary orb operands)
  | Token.IMPLICATION => push_result props (solveBinary bool_le operands)
  | Token.BICONDITIONAL => push_result props (solveBinary Bool.eqb operands)
  | _ => Some st
  end.

Fixpoint eval_postfix (postfix : list Token) (st : EvalState)
  : option EvalState :=
  match postfix with
  | [] => Some st
  | tk :: rest =>
      match eval_token tk st with
      | Some st' => eval_postfix rest st'
      | None => None
      end
  end.

(** 32-bit [int]. *)
Definition wrap_int (z : Z) : Z := ((z + 2 ^ 31) mod 2 ^ 32 - 2 ^ 31)%Z.

(** [1 << n] as an [int]; a shift by the width or more is undefined. *)
Definition shl_one (n : Z) : option Z :=
  if ((0 <=? n) && (n <? 32))%Z then Some (wrap_int (Z.shiftl 1 n)) else None.

(** [i >> j] for a non-negative [i]. *)
Definition shr_int (i j : Z) : option Z :=
  if ((0 <=? j) && (j <? 32))%Z then Some (Z.shiftr i j) else None.

(** The loop that binds the variables of one row and prints their values,
    [j] counting down. *)
Fixpoint bind_row (i j : Z) (props : StdMap.t)
  : option (StdMap.t * list bool) :=
  match props with
  | [] => Some ([], [])
  | (k, x) :: rest =>
      match shr_int i j with
      | None => None
      | Some s =>
          let x' := Token.setValue (negb (1 =? Z.land s 1)%Z) x in
          match bind_row i (j - 1) rest with
          | None => None
          | Some (rest', cells) =>
              Some ((k, x') :: rest', Token.value x' :: cells)
          end
      end
  end.

(** One printed row: the values of the variables, then the result. *)
Definition Row : Set := (list bool * bool)%type.

(** The post-fix loop of one row: [toPostFix(tokens)] is converted, then
    evaluated token by token. *)
Definition eval_infix (tokens : list Token) (st : EvalState)
  : option EvalState :=
  match toPostFix tokens with
  | None => None
  | Some postfix => eval_postfix postfix st
  end.

(** The body of the evaluation loop for the row counter [i]; the result of
    the row is [operands.top()], which is then popped. *)
Definition table_row (tokens : list Token) (i : Z) (st : EvalState)
  : option (Row * EvalState) :=
  let (props, operands) := st in
  match bind_row i (Z.of_nat (StdMap.size props) - 1) props with
  | None => None
  | Some (props1, cells) =>
      match eval_infix tokens (props1, operands) with
      | None => None
      | Some (props2, operands2) =>
          match operands2 with
          | [] => None
          | top :: rest => Some ((cells, top), (props2, rest))
          end
      end
  end.

Inductive Rows : Set :=
| Printed (rows : list Row)
| Undefined
| OutOfFuel.

(** The evaluation loop from the counter [i] on; the bound [1 << size] is
    computed again before every iteration. *)
Fixpoint table_loop (fuel : nat) (tokens : list Token) (i : Z) (st : EvalState)
  : Rows :=
  match fuel with
  | O => OutOfFuel
  | S fuel' =>
      match shl_one (Z.of_nat (StdMap.size (fst st))) with
      | None => Undefined
      | Some bound =>
          if (i <? bound)%Z then
            match table_row tokens i st with
            | None => Undefined
            | Some (row, st') =>
                match table_loop fuel' tokens (i + 1) st' with
                | Printed rows => Printed (row :: rows)
                | r => r
                end
            end
          else Printed []
      end
  end.

Inductive Output : Set :=
| Silent
| InvalidExpression
| Table (header : list string) (rows : Rows).

(** [evaluate(expression)]: what is printed. The header is printed before the
    rows are computed. *)
Definition evaluate (oob : Z -> Token) (fuel : nat) (expression : string)
  : Output :=
  if String.eqb expression "" then Silent
  else
    let lexer := Lexer.new expression in
    let tokens := Lexer.getTokens lexer in
    if negb (fst (validateTokenString oob tokens)) then InvalidExpression
    else
      let propositions := Lexer.getPropositionTokens lexer in
      Table (StdMap.keys propositions)
            (table_loop fuel tokens 0 (propositions, [])).

(** ** Expressions and their token sequences *)

Inductive BinOp : Set := And | Or | Implies | Iff.

(** A propositional expression; every node keeps the lexeme of its token. *)
Inductive Expr : Set :=
| Lit (b : bool) (lx : string)
| Var (lx : string)
| Not (lx : string) (e : Expr)
| Bin (o : BinOp) (lx : string) (l r : Expr).

Definition binop_type (o : BinOp) : Token.Type_ :=
  match o with
  | And => Token.CONJUNCTION
  | Or => Token.DISJUNCTION
  | Implies => Token.IMPLICATION
  | Iff => Token.BICONDITIONAL
  end.

Definition binop_precedence (o : BinOp) : Token.Precedence :=
  match o with
  | And => Token.L2
  | Or => Token.L3
  | Implies => Token.L4
  | Iff => Token.L5
  end.

(** The tokens as [Lexer::scanToken] builds them. *)
Definition tok_lit (b : bool) (lx : string) : Token :=
  Token.Token Token.TRUTH_VALUE Token.NA b lx.
Definition tok_var (lx : string) : Token :=
  Token.Token Token.PROPOSITION Token.NA false lx.
Definition tok_not (lx : string) : Token :=
  Token.Token Token.NEGATION Token.L1 false lx.
Definition tok_bin (o : BinOp) (lx : string) : Token :=
  Token.Token (binop_type o) (binop_precedence o) false lx.
Definition tok_lparen : Token :=
  Token.Token Token.LPAREN Token.NA false "(".
Definition tok_rparen : Token :=
  Token.Token Token.RPAREN Token.NA false ")".

(** Post-fix form: operands first, then the operator. *)
Fixpoint postfix_of (e : Expr) : list Token :=
  match e with
  | Lit b lx => [tok_lit b lx]
  | Var lx => [tok_var lx]
  | Not lx e1 => postfix_of e1 ++ [tok_not lx]
  | Bin o lx l r => postfix_of l ++ postfix_of r ++ [tok_bin o lx]
  end.


(** Infix form without any parenthesis. *)
Fixpoint infix_bare (e : Expr) : list Token :=
  match e with
  | Lit b lx => [tok_lit b lx]
  | Var lx => [tok_var lx]
  | Not lx e1 => tok_not lx :: infix_bare e1
  | Bin o lx l r => infix_bare l ++ [tok_bin o lx] ++ infix_bare r
  end.

(** The precedence order Negation > Conjunction > Disjunction >
    Implication > Biconditional, as a rank: negation binds tightest, with
    rank 0, and the binary operators follow in this order. *)
Definition rank (o : BinOp) : Z :=
  match o with
  | And => 1
  | Or => 2
  | Implies => 3
  | Iff => 4
  end%Z.

(** The rank of the outermost operator: 0 for an operand and for a
    negation. *)
Definition level (e : Expr) : Z :=
  match e with
  | Bin o _ _ _ => rank o
  | _ => 0%Z
  end.


(** The expression is the reading of its own parenthesis-free form under
    Negation > Conjunction > Disjunction > Implication > Biconditional:
    the operand of a negation is an operand or a negation, the left operand
    of a binary operator binds strictly tighter than the operator, and the
    right operand binds at least as tight (operators of one level nest to the
    right). *)
Fixpoint prec_shaped (e : Expr) : bool :=
  match e with
  | Lit _ _ | Var _ => true
  | Not _ e1 => (level e1 =? 0)%Z && prec_shaped e1
  | Bin o lx l r =>
      (level l <? level e)%Z && (level r <=? level e)%Z
      && prec_shaped l && prec_shaped r
  end.

(** The value [propositions[k].value()] reads. *)
Definition bound (props : StdMap.t) (k : string) : bool :=
  match StdMap.find k props with
  | Some x => Token.value x
  | None => false
  end.

Definition binop_sem (o : BinOp) (left' right' : bool) : bool :=
  match o with
  | And => left' && right'
  | Or => left' || right'
  | Implies => negb left' || right'
  | Iff => Bool.eqb left' right'
  end.

(** The standard boolean semantics of an expression under the bindings of
    the registry. *)
Fixpoint denote (props : StdMap.t) (e : Expr) : bool :=
  match e with
  | Lit b _ => b
  | Var lx => bound props lx
  | Not _ e1 => negb (denote props e1)
  | Bin o _ l r => binop_sem o (denote props l) (denote props r)
  end.

(** The grammar of well-formed infix token sequences: [Parses k ts e] when
    [ts] is an expression whose outermost operator has a precedence number of
    at most [k] and [e] is its reading. *)
Inductive Parses : Z -> list Token -> Expr -> Prop :=
| P_lit : forall k b lx, (0 <= k)%Z -> Parses k [tok_lit b lx] (Lit b lx)
| P_var : forall k lx, (0 <= k)%Z -> Parses k [tok_var lx] (Var lx)
| P_paren : forall k ts e,
    (0 <= k)%Z -> Parses 4 ts e ->
    Parses k (tok_lparen :: ts ++ [tok_rparen]) e
| P_not : forall k lx ts e,
    (0 <= k)%Z -> Parses 0 ts e ->
    Parses k (tok_not lx :: ts) (Not lx e)
| P_bin : forall k o lx tl tr l r,
    (Token.precedence (tok_bin o lx) <= k)%Z ->
    Parses (Token.precedence (tok_bin o lx) - 1) tl l ->
    Parses (Token.precedence (tok_bin o lx)) tr r ->
    Parses k (tl ++ tok_bin o lx :: tr) (Bin o lx l r).

(** ** Notions used in the statements *)

(** *** The scanner and the registry *)

(** The header [evaluate] prints for an expression. *)
Definition header_of (expression : string) : list string :=
  StdMap.keys (Lexer.getPropositionTokens (Lexer.new expression)).

Definition tokens_of (expression : string) : list Token :=
  Lexer.getTokens (Lexer.new expression).

(** The characters [scanToken] has a [case] for. *)
Definition reserved_chars : list ascii :=
  ["0"; "1"; "F"; "T"; "("; ")"; "^"; "*"; "v"; "+"; "!"; "~"; "-"; "<";
   " "]%char.

Definition is_reserved (c : ascii) : bool := Lexer.is_one_of c reserved_chars.

(** A key of one character for which [scanToken] has no [case]. *)
Definition key_ok (k : string) : Prop :=
  exists c, k = String c EmptyString /\ is_reserved c = false.

(** The names of the variables among the tokens. *)
Definition names_of (tokens : list Token) (k : string) : Prop :=
  exists tk, In tk tokens
             /\ Token.type tk = Token.PROPOSITION
             /\ Token.lexeme tk = k.

(** The invariant of the scanning loop: the keys of the registry are in
    ascending order, they are the names of the variables scanned so far, and
    every entry is the variable token of its key. *)
Definition registry_inv (l : Lexer.t) : Prop :=
  Sorted StdMap.key_lt (StdMap.keys (Lexer._proposition_tokens l))
  /\ (forall k, In k (StdMap.keys (Lexer._proposition_tokens l))
                <-> names_of (Lexer._tokens l) k)
  /\ (forall k x, In (k, x) (Lexer._proposition_tokens l) -> x = tok_var k).

(** The distinct variable names in the order of their first occurrence. *)
Fixpoint first_occurrences (seen : list string) (tokens : list Token)
  : list string :=
  match tokens with
  | [] => []
  | tk :: rest =>
      if Token.Type_eqb (Token.type tk) Token.PROPOSITION
         && negb (existsb (String.eqb (Token.lexeme tk)) seen)
      then Token.lexeme tk :: first_occurrences (Token.lexeme tk :: seen) rest
      else first_occurrences seen rest
  end.

(** *** The validator *)

(** The reads of a log that fall inside a vector of tokens. *)
Definition reads_in_range (tokens : list Token) (log : list Z) : bool :=
  forallb (in_range tokens) log.

(** The token a read of index [i] yields. *)
Definition token_read (oob : Z -> Token) (tokens : list Token) (i : Z)
  : Token :=
  fst (tokens_at oob tokens i).

(** Tokens an operand can start with. *)
Definition starts_operand (tk : Token) : bool :=
  match Token.type tk with
  | Token.TRUTH_VALUE | Token.PROPOSITION | Token.LPAREN | Token.NEGATION =>
      true
  | _ => false
  end.

Definition is_binary (tk : Token) : bool :=
  Token.isOperator tk && negb (Token.Type_eqb (Token.type tk) Token.NEGATION).

(** Tokens after which an operand can start. *)
Definition opens (tk : Token) : bool :=
  Token.isOperator tk || Token.Type_eqb (Token.type tk) Token.LPAREN.

(** A condition on the neighbours of [tk] in [pre ++ tk :: post] under which
    the validator leaves its flag alone at [tk], whatever a read outside the
    sequence yields. *)
Definition passes_check (pre : list Token) (tk : Token) (post : list Token)
  : Prop :=
  match Token.type tk with
  | Token.TRUTH_VALUE | Token.PROPOSITION =>
      (pre = [] /\ post = [])
      \/ (exists pre' p, pre = pre' ++ [p] /\ opens p = true)
      \/ (exists n post', post = n :: post' /\ is_binary n = true)
  | Token.LPAREN | Token.RPAREN => True
  | _ => exists n post', post = n :: post' /\ starts_operand n = true
  end.

(** The surroundings in which an expression can stand: it is preceded by
    nothing, an operator or a left parenthesis, and followed by nothing, a
    binary operator or, when something precedes it, a right parenthesis. *)
Definition context_ok (pre post : list Token) : Prop :=
  (pre = [] \/ exists pre' p, pre = pre' ++ [p] /\ opens p = true)
  /\ (post = []
      \/ exists n post',
          post = n :: post'
          /\ (is_binary n = true
              \/ (Token.type n = Token.RPAREN /\ pre <> []))).

(** *** The converter *)

(** The operator stack does not give way to an operator of precedence
    number [k]: it is empty or its top has a precedence number of at least
    [k]. *)
Definition blocks (k : Z) (operators : list Token) : Prop :=
  match operators with
  | [] => True
  | top :: _ => (k <= Token.precedence top)%Z
  end.

Definition is_paren (tk : Token) : bool :=
  Token.Type_eqb (Token.type tk) Token.LPAREN
  || Token.Type_eqb (Token.type tk) Token.RPAREN.

(** The tokens of a sequence that are not parentheses. *)
Definition without_parens (tokens : list Token) : list Token :=
  filter (fun tk => negb (is_paren tk)) tokens.

Definition is_rparen (tk : Token) : bool :=
  Token.Type_eqb (Token.type tk) Token.RPAREN.

(** *** The table *)

(** The variables of the tokens are registered. *)
Definition registered (tokens : list Token) (props : StdMap.t) : Prop :=
  forall tk, In tk tokens -> Token.type tk = Token.PROPOSITION ->
             In (Token.lexeme tk) (StdMap.keys props).

(** The variables of an expression. *)
Fixpoint vars (e : Expr) : list string :=
  match e with
  | Lit _ _ => []
  | Var lx => [lx]
  | Not _ e1 => vars e1
  | Bin _ _ l r => vars l ++ vars r
  end.

(** The registry after the variables are bound for the row counter [i],
    [j] being the bit of the first entry. *)
Fixpoint assign (i j : Z) (props : StdMap.t) : StdMap.t :=
  match props with
  | [] => []
  | (k, x) :: rest =>
      (k, Token.setValue (negb (Z.testbit i j)) x) :: assign i (j - 1) rest
  end.

(** The row of the table of [e] for the row counter [i]. *)
Definition row_of (props : StdMap.t) (e : Expr) (i : Z) : Row :=
  let props_i := assign i (Z.of_nat (StdMap.size props) - 1) props in
  (map (fun kx => Token.value (snd kx)) props_i, denote props_i e).

(** The values of [n] variables in row [i]: the variable at position [p]
    has the value not (bit [n - 1 - p] of [i]). *)
Definition bindings (n : nat) (i : Z) : list bool :=
  map (fun p => negb (Z.testbit i (Z.of_nat n - 1 - Z.of_nat p))) (seq 0 n).

(** The row counters [0 .. n - 1]. *)
Definition counters (n : nat) : list Z := map Z.of_nat (seq 0 n).

(** A conjunction of variables, nested to the right. *)
Definition conjunction_of (names : list string) (last : string) : Expr :=
  fold_right (fun x acc => Bin And "^" (Var x) acc) (Var last) names.

(** An expression with 31 distinct variables, and one with 32. *)
Definition expression_31 : string :=
  "a^b^c^d^e^f^g^h^i^j^k^l^m^n^o^p^q^r^s^t^u^w^x^y^z^A^B^C^D^E^G".

Definition expression_32 : string :=
  "a^b^c^d^e^f^g^h^i^j^k^l^m^n^o^p^q^r^s^t^u^w^x^y^z^A^B^C^D^E^G^H".

Definition names_30 : list string :=
  ["a"; "b"; "c"; "d"; "e"; "f"; "g"; "h"; "i"; "j"; "k"; "l"; "m"; "n"; "o";
   "p"; "q"; "r"; "s"; "t"; "u"; "w"; "x"; "y"; "z"; "A"; "B"; "C"; "D"; "E"].

(** ** Notions used in the further properties *)

(** *** The scanner as a recursion over the characters that are left *)

(** The characters of [s] from position [n] on. *)
Fixpoint drop (n : nat) (s : string) : string :=
  match n, s with
  | O, _ => s
  | S n', String _ rest => drop n' rest
  | S _, EmptyString => EmptyString
  end.

(** The tokens and the registry the scanner has built. *)
Definition Scanned : Set := (list Token * StdMap.t)%type.

Definition scanned (l : Lexer.t) : Scanned :=
  (Lexer._tokens l, Lexer._proposition_tokens l).

Definition emit (tk : Token) (acc : Scanned) : Scanned :=
  (fst acc ++ [tk], snd acc).

Definition emit_variable (c : ascii) (acc : Scanned) : Scanned :=
  (fst acc ++ [tok_var (String c EmptyString)],
   StdMap.insert (String c EmptyString) (tok_var (String c EmptyString))
                 (snd acc)).

(** What the scanning loop computes from the characters that are left; the
    cases are those of [scanToken], the look-ahead of [matchNext] is a match
    on the rest. *)
Fixpoint scan_from (s : string) (acc : Scanned) : Scanned :=
  match s with
  | EmptyString => acc
  | String c rest =>
      if Lexer.is_one_of c [" "%char] then scan_from rest acc
      else if Lexer.is_one_of c ["0"%char; "F"%char] then
        scan_from rest (emit (tok_lit false (String c EmptyString)) acc)
      else if Lexer.is_one_of c ["1"%char; "T"%char] then
        scan_from rest (emit (tok_lit true (String c EmptyString)) acc)
      else if Lexer.is_one_of c ["("%char] then
        scan_from rest (emit tok_lparen acc)
      else if Lexer.is_one_of c [")"%char] then
        scan_from rest (emit tok_rparen acc)
      else if Lexer.is_one_of c ["^"%char; "*"%char] then
        scan_from rest (emit (tok_bin And (String c EmptyString)) acc)
      else if Lexer.is_one_of c ["v"%char; "+"%char] then
        scan_from rest (emit (tok_bin Or (String c EmptyString)) acc)
      else if Lexer.is_one_of c ["!"%char; "~"%char] then
        scan_from rest (emit (tok_not (String c EmptyString)) acc)
      else if Lexer.is_one_of c ["-"%char] then
        match rest with
        | EmptyString => acc
        | String c2 rest2 =>
            if Ascii.eqb c2 ">"%char
            then scan_from rest2 (emit (tok_bin Implies "->") acc)
            else scan_from rest2 acc
        end
      else if Lexer.is_one_of c ["<"%char] then
        match rest with
        | EmptyString => acc
        | String c2 rest2 =>
            if Ascii.eqb c2 "-"%char then
              match rest2 with
              | EmptyString => acc
              | String c3 rest3 =>
                  if Ascii.eqb c3 ">"%char
                  then scan_from rest3 (emit (tok_bin Iff "<->") acc)
                  else scan_from rest3 acc
              end
            else scan_from rest2 acc
        end
      else scan_from rest (emit_variable c acc)
  end.

(** The first step of [scan_from]: the token it emits, if any, and the
    characters it leaves. *)
Definition scan1 (s : string) : option (option Token * string) :=
  match s with
  | EmptyString => None
  | String c rest =>
      Some
        (if Lexer.is_one_of c [" "%char] then (None, rest)
         else if Lexer.is_one_of c ["0"%char; "F"%char] then
           (Some (tok_lit false (String c EmptyString)), rest)
         else if Lexer.is_one_of c ["1"%char; "T"%char] then
           (Some (tok_lit true (String c EmptyString)), rest)
         else if Lexer.is_one_of c ["("%char] then (Some tok_lparen, rest)
         else if Lexer.is_one_of c [")"%char] then (Some tok_rparen, rest)
         else if Lexer.is_one_of c ["^"%char; "*"%char] then
           (Some (tok_bin And (String c EmptyString)), rest)
         else if Lexer.is_one_of c ["v"%char; "+"%char] then
           (Some (tok_bin Or (String c EmptyString)), rest)
         else if Lexer.is_one_of c ["!"%char; "~"%char] then
           (Some (tok_not (String c EmptyString)), rest)
         else if Lexer.is_one_of c ["-"%char] then
           match rest with
           | EmptyString => (None, EmptyString)
           | String c2 rest2 =>
               if Ascii.eqb c2 ">"%char
               then (Some (tok_bin Implies "->"), rest2)
               else (None, rest2)
           end
         else if Lexer.is_one_of c ["<"%char] then
           match rest with
           | EmptyString => (None, EmptyString)
           | String c2 rest2 =>
               if Ascii.eqb c2 "-"%char then
                 match rest2 with
                 | EmptyString => (None, EmptyString)
                 | String c3 rest3 =>
                     if Ascii.eqb c3 ">"%char
                     then (Some (tok_bin Iff "<->"), rest3)
                     else (None, rest3)
                 end
               else (None, rest2)
           end
         else (Some (tok_var (String c EmptyString)), rest))
  end.

(** A scanned token is appended to the tokens; a variable is registered
    under its lexeme as well. *)
Definition push_scanned (o : option Token) (acc : Scanned) : Scanned :=
  match o with
  | None => acc
  | Some tk =>
      (fst acc ++ [tk],
       if Token.Type_eqb (Token.type tk) Token.PROPOSITION
       then StdMap.insert (Token.lexeme tk) tk (snd acc)
       else snd acc)
  end.

(** The registry after the variables among [tokens] are registered, in
    their order. *)
Definition register_all (tokens : list Token) (props : StdMap.t)
  : StdMap.t :=
  fold_left (fun m tk => snd (push_scanned (Some tk) ([], m))) tokens props.

(** The tokens the scanner can produce: fourteen fixed ones, and a variable
    of one character the scanner has no case for. *)
Definition fixed_tokens : list Token :=
  [tok_lit false "0"; tok_lit false "F"; tok_lit true "1"; tok_lit true "T";
   tok_lparen; tok_rparen;
   tok_bin And "^"; tok_bin And "*"; tok_bin Or "v"; tok_bin Or "+";
   tok_not "!"; tok_not "~"; tok_bin Implies "->"; tok_bin Iff "<->"].

Definition scannable (tk : Token) : Prop :=
  In tk fixed_tokens
  \/ exists c, is_reserved c = false /\ tk = tok_var (String c EmptyString).

(** [n] space characters. *)
Fixpoint spaces (n : nat) : string :=
  match n with
  | O => EmptyString
  | S n' => String " "%char (spaces n')
  end.

(** The text of a token sequence: the lexemes, each followed by [gap]
    spaces. *)
Fixpoint text_of (gap : nat) (tokens : list Token) : string :=
  match tokens with
  | [] => EmptyString
  | tk :: rest => Token.lexeme tk ++ spaces gap ++ text_of gap rest
  end.

(** *** The converter *)

(** The operands of a token sequence: its literals and variables. *)
Definition is_operand (tk : Token) : bool :=
  Token.Type_eqb (Token.type tk) Token.TRUTH_VALUE
  || Token.Type_eqb (Token.type tk) Token.PROPOSITION.

Definition operands_of (tokens : list Token) : list Token :=
  filter is_operand tokens.

Definition is_lparen (tk : Token) : bool :=
  Token.Type_eqb (Token.type tk) Token.LPAREN.

(** Whether some right parenthesis of [tokens] has no left parenthesis
    before it that is still open, [depth] parentheses being open at the
    start. *)
Fixpoint unmatched_rparen (depth : nat) (tokens : list Token) : bool :=
  match tokens with
  | [] => false
  | tk :: rest =>
      if is_lparen tk then unmatched_rparen (S depth) rest
      else if is_rparen tk then
        match depth with
        | O => true
        | S d => unmatched_rparen d rest
        end
      else unmatched_rparen depth rest
  end.

(** The number of left parentheses that are still open at the end. *)
Fixpoint open_at_end (depth : nat) (tokens : list Token) : nat :=
  match tokens with
  | [] => depth
  | tk :: rest =>
      if is_lparen tk then open_at_end (S depth) rest
      else if is_rparen tk then open_at_end (pred depth) rest
      else open_at_end depth rest
  end.

(** The number of left parentheses of a sequence. *)
Definition lparens (tokens : list Token) : nat :=
  List.length (filter is_lparen tokens).

(** The precedences the scanner gives: at most [L5] to an operator, [NA] to
    a left parenthesis. *)
Definition ranked (tk : Token) : Prop :=
  (Token.isOperator tk = true -> (Token.precedence tk <= 4)%Z)
  /\ (is_lparen tk = true -> Token.precedence tk = 5%Z).

(** *** The table, read from the printed columns *)

(** Every list of [n] truth values. *)
Fixpoint all_assignments (n : nat) : list (list bool) :=
  match n with
  | O => [[]]
  | S n' =>
      map (cons true) (all_assignments n')
      ++ map (cons false) (all_assignments n')
  end.



(** ** main *)

(** What the input loop prints: the output of a call of [evaluate], or the
    prompt. *)
Inductive Event : Set :=
| Evaluated (out : Output)
| Prompt.

(** How the loop ends: [return 0] after the line [quit]; at the end of the
    input (what [getline] leaves in [answer] then is not modelled); or in a
    call of [evaluate] that does not come back (undefined behaviour, or the
    fuel of the model is used up). *)
Inductive Exit : Set :=
| Returned
| EndOfInput
| Stopped.

Definition completes (out : Output) : bool :=
  match out with
  | Table _ Undefined | Table _ OutOfFuel => false
  | _ => true
  end.

(** The [while] loop of [main]: [answer] is the line the condition tests,
    [input] the lines [getline] yields from then on; [oobs call] is the
    oracle of the call of [evaluate] with the number [call]. *)
Fixpoint main_loop (oobs : nat -> Z -> Token) (fuel call : nat)
         (answer : string) (input : list string) : list Event * Exit :=
  if String.eqb answer "quit" then ([], Returned)
  else
    let out := evaluate (oobs call) fuel answer in
    if completes out then
      match input with
      | [] => ([Evaluated out; Prompt], EndOfInput)
      | line :: rest =>
          let (events, exit) := main_loop oobs fuel (S call) line rest in
          (Evaluated out :: Prompt :: events, exit)
      end
    else ([Evaluated out], Stopped).

Definition main (oobs : nat -> Z -> Token) (fuel : nat) (input : list string)
  : list Event * Exit :=
  main_loop oobs fuel 0 "" input.

(** What a session prints that evaluates the lines one after the other. *)
Fixpoint session (oobs : nat -> Z -> Token) (fuel call : nat)
         (lines : list string) : list Event :=
  match lines with
  | [] => []
  | line :: rest =>
      Evaluated (evaluate (oobs call) fuel line) :: Prompt
      :: session oobs fuel (S call) rest
  end.

(** *** The validator *)

(** The token [x] between [a] and [b] satisfies none of the conditions of
    its [case]: an operand that follows neither an operator nor a left
    parenthesis and precedes no binary operator; a binary operator that
    follows neither an operand nor a right parenthesis and precedes nothing
    an operand can start with; a negation that follows neither an operator
    nor a left parenthesis and precedes nothing an operand can start
    with. *)
Definition stranded (a x b : Token) : bool :=
  (is_operand x && negb (opens a) && negb (is_binary b))
  || (is_binary x && negb (is_operand a || is_rparen a)
      && negb (starts_operand b))
  || (Token.Type_eqb (Token.type x) Token.NEGATION && negb (opens a)
      && negb (starts_operand b)).

(** * Properties *)

(** ** The registry *)

Module StdMapFacts.

Lemma keys_insert (k : string) (v : Token) (m : StdMap.t) (k' : string) :
  In k' (StdMap.keys (StdMap.insert k v m)) <->
  k' = k \/ In k' (StdMap.keys m).
Proof.
  unfold StdMap.keys. induction m as [|[k0 v0] rest IH]; simpl.
  - intuition.
  - destruct (String.compare k k0) eqn:E; simpl.
    + apply String.compare_eq_iff in E. subst. intuition.
    + intuition.
    + rewrite IH. intuition.
Qed.

Lemma hdrel_insert (k0 k : string) (v : Token) (m : StdMap.t) :
  StdMap.key_lt k0 k ->
  HdRel StdMap.key_lt k0 (StdMap.keys m) ->
  HdRel StdMap.key_lt k0 (StdMap.keys (StdMap.insert k v m)).
Proof.
  intros Hk Hm. destruct m as [|[k1 v1] rest]; simpl.
  - constructor. exact Hk.
  - destruct (String.compare k k1); simpl.
    + exact Hm.
    + constructor. exact Hk.
    + constructor. inversion Hm; subst. assumption.
Qed.

(** [insert] keeps the keys in strictly ascending order. *)
Lemma sorted_insert (k : string) (v : Token) (m : StdMap.t) :
  Sorted StdMap.key_lt (StdMap.keys m) ->
  Sorted StdMap.key_lt (StdMap.keys (StdMap.insert k v m)).
Proof.
  induction m as [|[k0 v0] rest IH]; simpl; intros Hs.
  - repeat constructor.
  - inversion Hs as [|? ? Hrest Hhd]; subst.
    destruct (String.compare k k0) eqn:E; simpl.
    + exact Hs.
    + constructor; [exact Hs|]. constructor. exact E.
    + constructor; [apply IH; exact Hrest|].
      apply hdrel_insert; [|exact Hhd].
      unfold StdMap.key_lt. rewrite String.compare_antisym, E. reflexivity.
Qed.

End StdMapFacts.

(** ** The scanner *)

Module LexerFacts.

Import Lexer.

Ltac break_ifs :=
  repeat match goal with
         | |- context [if ?b then _ else _] => destruct b eqn:?
         end.

Lemma lexeme_at_start (l : t) :
  getCurrentLexeme (set_start (_current_position l) l)
  = String (source_at (_source l) (_current_position l)) EmptyString.
Proof.
  unfold getCurrentLexeme, set_start.
  cbn [_source _start_position _current_position].
  replace (S (_current_position l) - _current_position l) with 1 by lia.
  reflexivity.
Qed.

Lemma scanToken_source (l : t) : _source (scanToken l) = _source l.
Proof.
  unfold scanToken, matchNext; simpl. break_ifs; reflexivity.
Qed.

Lemma scanToken_advances (l : t) :
  _current_position l < _current_position (scanToken l).
Proof.
  unfold scanToken, matchNext; simpl. break_ifs; simpl; lia.
Qed.

Lemma scanTokens_source (fuel : nat) (l : t) :
  _source (scanTokens fuel l) = _source l.
Proof.
  revert l. induction fuel as [|fuel IH]; intros l; simpl; [reflexivity|].
  destruct (endReached l); [reflexivity|].
  rewrite IH, scanToken_source. reflexivity.
Qed.

(** The loop of [scanTokens] stops: as many iterations as there are
    characters left reach the end of the source. *)
Lemma scanTokens_reaches_end (fuel : nat) (l : t) :
  String.length (_source l) - _current_position l <= fuel ->
  endReached (scanTokens fuel l) = true.
Proof.
  revert l. induction fuel as [|fuel IH]; intros l Hfuel; simpl.
  - unfold endReached. apply Nat.leb_le. lia.
  - destruct (endReached l) eqn:E; [exact E|].
    apply IH. rewrite scanToken_source.
    pose proof (scanToken_advances (set_start (_current_position l) l)) as H.
    simpl in *. unfold endReached in E. apply Nat.leb_gt in E. lia.
Qed.

(** More fuel than that changes nothing. *)
Lemma scanTokens_fuel_irrelevant (fuel extra : nat) (l : t) :
  String.length (_source l) - _current_position l <= fuel ->
  scanTokens (fuel + extra) l = scanTokens fuel l.
Proof.
  revert l. induction fuel as [|fuel IH]; intros l Hfuel; simpl.
  - destruct extra; simpl; [reflexivity|].
    replace (endReached l) with true; [reflexivity|].
    symmetry. unfold endReached. apply Nat.leb_le. lia.
  - destruct (endReached l) eqn:E; [reflexivity|].
    apply IH. rewrite scanToken_source.
    pose proof (scanToken_advances (set_start (_current_position l) l)) as H.
    simpl in *. unfold endReached in E. apply Nat.leb_gt in E. lia.
Qed.

Lemma default_case_not_reserved (c : ascii) :
  is_one_of c [" "%char] = false ->
  is_one_of c ["0"%char; "F"%char] = false ->
  is_one_of c ["1"%char; "T"%char] = false ->
  is_one_of c ["("%char] = false ->
  is_one_of c [")"%char] = false ->
  is_one_of c ["^"%char; "*"%char] = false ->
  is_one_of c ["v"%char; "+"%char] = false ->
  is_one_of c ["!"%char; "~"%char] = false ->
  is_one_of c ["-"%char] = false ->
  is_one_of c ["<"%char] = false ->
  is_reserved c = false.
Proof.
  unfold is_reserved, is_one_of, reserved_chars; simpl.
  intros. repeat match goal with
                 | H : _ || _ = false |- _ =>
                     apply orb_false_iff in H; destruct H
                 end.
  repeat match goal with
         | H : Ascii.eqb c _ = false |- _ => rewrite H; clear H
         end.
  reflexivity.
Qed.

Lemma reserved_case (c : ascii) :
  is_reserved c = false ->
  is_one_of c [" "%char] = false /\
  is_one_of c ["0"%char; "F"%char] = false /\
  is_one_of c ["1"%char; "T"%char] = false /\
  is_one_of c ["("%char] = false /\
  is_one_of c [")"%char] = false /\
  is_one_of c ["^"%char; "*"%char] = false /\
  is_one_of c ["v"%char; "+"%char] = false /\
  is_one_of c ["!"%char; "~"%char] = false /\
  is_one_of c ["-"%char] = false /\
  is_one_of c ["<"%char] = false.
Proof.
  unfold is_reserved, is_one_of, reserved_chars; simpl. intros H.
  repeat match goal with
         | H : _ || _ = false |- _ =>
             apply orb_false_iff in H; destruct H
         end.
  repeat match goal with
         | H : Ascii.eqb c _ = false |- _ => rewrite H; clear H
         end.
  repeat split; reflexivity.
Qed.

(** One iteration of [scanTokens] registers at most the character it
    starts at, and only in the [default] case. *)
Lemma scan_step_keys (l : t) (k : string) :
  In k (StdMap.keys (_proposition_tokens
          (scanToken (set_start (_current_position l) l)))) ->
  In k (StdMap.keys (_proposition_tokens l)) \/ key_ok k.
Proof.
  unfold scanToken, matchNext.
  remember (source_at (_source (set_start (_current_position l) l))
              (_current_position (set_start (_current_position l) l))) as c.
  break_ifs; simpl; auto.
  intros H. apply StdMapFacts.keys_insert in H. destruct H as [H|H]; auto.
  right. subst k.
  change (getCurrentLexeme
            (addToken_type Token.PROPOSITION
               (set_start (_current_position l) l)))
    with (getCurrentLexeme (set_start (_current_position l) l)).
  rewrite lexeme_at_start. exists c. split.
  - subst c. reflexivity.
  - apply default_case_not_reserved; assumption.
Qed.

Lemma scanTokens_keys (fuel : nat) (l : t) :
  Forall key_ok (StdMap.keys (_proposition_tokens l)) ->
  Forall key_ok (StdMap.keys (_proposition_tokens (scanTokens fuel l))).
Proof.
  revert l. induction fuel as [|fuel IH]; intros l Hl; simpl; [exact Hl|].
  destruct (endReached l); [exact Hl|].
  apply IH. apply Forall_forall. intros k Hk.
  apply scan_step_keys in Hk. destruct Hk as [Hk|Hk]; [|exact Hk].
  rewrite Forall_forall in Hl. apply Hl. exact Hk.
Qed.

End LexerFacts.

Module ScannerSteps.

Import Lexer.

Lemma get_none_iff (s : string) (i : nat) :
  String.get i s = None <-> String.length s <= i.
Proof.
  revert i. induction s as [|c s IH]; intros i; simpl.
  - split; [lia|reflexivity].
  - destruct i as [|i]; simpl.
    + split; [discriminate|lia].
    + rewrite IH. lia.
Qed.

(** [matchNext c] succeeds exactly when the next character exists and
    is [c]. *)
Lemma matchNext_true_iff (c : ascii) (l : t) :
  fst (matchNext c l) = true <->
  String.get (S (_current_position l)) (_source l) = Some c.
Proof.
  unfold matchNext, endReached, source_at; simpl.
  destruct (String.length (_source l) <=? S (_current_position l))%nat eqn:E.
  - apply Nat.leb_le, get_none_iff in E. rewrite E. simpl.
    split; discriminate.
  - destruct (String.get (S (_current_position l)) (_source l)) as [c'|] eqn:G.
    + destruct (Ascii.eqb_spec c' c) as [->|Hne]; simpl.
      * split; reflexivity.
      * split; [discriminate|]. intros H. inversion H. contradiction.
    + apply get_none_iff in G. apply Nat.leb_gt in E. lia.
Qed.

Lemma matchNext_false (c : ascii) (l : t) :
  String.get (S (_current_position l)) (_source l) <> Some c ->
  fst (matchNext c l) = false.
Proof.
  intros H. destruct (fst (matchNext c l)) eqn:E; [|reflexivity].
  apply matchNext_true_iff in E. contradiction.
Qed.

Lemma matchNext_state (c : ascii) (l : t) :
  snd (matchNext c l) = set_current (S (_current_position l)) l.
Proof. unfold matchNext. LexerFacts.break_ifs; reflexivity. Qed.

(** C9 (amended): for every input string the scanner reaches the end of
    the input and so delivers its tokens (there is no rejecting outcome).
    A scan step that starts at a space character adds no token and
    registers nothing; a step that starts at '-' when no '>' follows, or at
    '<' when "->" does not follow, adds no token and registers nothing; a
    step that starts at a character other than the fifteen the scanner has
    a case for adds exactly one Variable token, whose lexeme is that
    character, and registers it under that character. *)
Theorem scanner_accepts_and_step_cases (source : string) (l : Lexer.t) :
  let c := source_at (_source l) (_current_position l) in
  let l' := scanToken (set_start (_current_position l) l) in
  endReached (Lexer.new source) = true
  /\ (c = " "%char ->
      _tokens l' = _tokens l
      /\ _proposition_tokens l' = _proposition_tokens l
      /\ _current_position l' = S (_current_position l))
  /\ (c = "-"%char ->
      String.get (S (_current_position l)) (_source l) <> Some ">"%char ->
      _tokens l' = _tokens l
      /\ _proposition_tokens l' = _proposition_tokens l)
  /\ (c = "<"%char ->
      ~ (String.get (S (_current_position l)) (_source l) = Some "-"%char
         /\ String.get (S (S (_current_position l))) (_source l)
            = Some ">"%char) ->
      _tokens l' = _tokens l
      /\ _proposition_tokens l' = _proposition_tokens l)
  /\ (is_reserved c = false ->
      _tokens l' = _tokens l ++ [tok_var (String c EmptyString)]
      /\ _proposition_tokens l'
         = StdMap.insert (String c EmptyString)
                         (tok_var (String c EmptyString))
                         (_proposition_tokens l)
      /\ _current_position l' = S (_current_position l)).
Proof.
  intros c l'. split; [|split; [|split; [|split]]].
  - unfold Lexer.new. apply LexerFacts.scanTokens_reaches_end. simpl. lia.
  - intros Hc. subst l'. unfold scanToken.
    cbn [_source _current_position set_start]. fold c. rewrite Hc.
    cbn. auto.
  - intros Hc Hnext. subst l'. unfold scanToken.
    cbn [_source _current_position set_start]. fold c. rewrite Hc.
    cbn [is_one_of existsb Ascii.eqb Bool.eqb orb].
    pose proof (matchNext_false ">"%char
                  (set_start (_current_position l) l) Hnext) as Hm.
    pose proof (matchNext_state ">"%char
                  (set_start (_current_position l) l)) as Hs.
    destruct (matchNext ">"%char (set_start (_current_position l) l))
      as [m l1]. simpl in Hm, Hs. subst m l1. cbn. auto.
  - intros Hc Hnext. subst l'. unfold scanToken.
    cbn [_source _current_position set_start]. fold c. rewrite Hc.
    cbn [is_one_of existsb Ascii.eqb Bool.eqb orb].
    pose proof (matchNext_true_iff "-"%char
                  (set_start (_current_position l) l)) as Hm1.
    pose proof (matchNext_state "-"%char
                  (set_start (_current_position l) l)) as Hs1.
    destruct (matchNext "-"%char (set_start (_current_position l) l))
      as [m1 l1]. cbn [fst snd] in Hm1, Hs1. subst l1.
    destruct m1; [|cbn; auto].
    pose proof (matchNext_true_iff ">"%char
                  (set_current (S (_current_position
                     (set_start (_current_position l) l)))
                     (set_start (_current_position l) l))) as Hm2.
    pose proof (matchNext_state ">"%char
                  (set_current (S (_current_position
                     (set_start (_current_position l) l)))
                     (set_start (_current_position l) l))) as Hs2.
    destruct (matchNext ">"%char _) as [m2 l2].
    cbn [fst snd] in Hm2, Hs2. subst l2.
    destruct m2; [|cbn; auto].
    exfalso. apply Hnext. split.
    + apply Hm1. reflexivity.
    + apply Hm2. reflexivity.
  - intros Hc. subst l'. unfold scanToken.
    cbn [_source _current_position set_start]. fold c.
    destruct (LexerFacts.reserved_case c Hc)
      as (H1 & H2 & H3 & H4 & H5 & H6 & H7 & H8 & H9 & H10).
    rewrite H1, H2, H3, H4, H5, H6, H7, H8, H9, H10.
    change (getCurrentLexeme
              (addToken_type Token.PROPOSITION
                 (set_start (_current_position l) l)))
      with (getCurrentLexeme (set_start (_current_position l) l)).
    unfold addToken_type.
    rewrite LexerFacts.lexeme_at_start. fold c. cbn. auto.
Qed.

End ScannerSteps.

Lemma scanner_accepts_and_step_cases_witness :
  Lexer.endReached (Lexer.new "p -q") = true
  /\ Lexer._tokens
       (Lexer.scanToken (Lexer.set_start 0 (Lexer.mk [] [] " p" 0 0))) = []
  /\ Lexer._tokens
       (Lexer.scanToken (Lexer.set_start 0 (Lexer.mk [] [] "-p" 0 0))) = []
  /\ Lexer._tokens
       (Lexer.scanToken (Lexer.set_start 0 (Lexer.mk [] [] "<-p" 0 0))) = []
  /\ Lexer._tokens
       (Lexer.scanToken (Lexer.set_start 0 (Lexer.mk [] [] "p" 0 0)))
     = [tok_var "p"].
Proof.
  split; [|split; [|split; [|split]]].
  - apply (ScannerSteps.scanner_accepts_and_step_cases
             "p -q" (Lexer.mk [] [] "" 0 0)).
  - destruct (ScannerSteps.scanner_accepts_and_step_cases
                "" (Lexer.mk [] [] " p" 0 0)) as (_ & H & _).
    apply H. reflexivity.
  - destruct (ScannerSteps.scanner_accepts_and_step_cases
                "" (Lexer.mk [] [] "-p" 0 0)) as (_ & _ & H & _).
    apply H; [reflexivity|]. simpl. discriminate.
  - destruct (ScannerSteps.scanner_accepts_and_step_cases
                "" (Lexer.mk [] [] "<-p" 0 0)) as (_ & _ & _ & H & _).
    apply H; [reflexivity|]. simpl. intros [_ H']. discriminate H'.
  - destruct (ScannerSteps.scanner_accepts_and_step_cases
                "" (Lexer.mk [] [] "p" 0 0)) as (_ & _ & _ & _ & H).
    apply H. reflexivity.
Defined.

(** A tab (character 9) is a whitespace character, yet it is not skipped:
    it becomes a Variable token. The unrecognised character p that follows
    a '-' becomes no token: it is consumed together with the '-'. *)
Lemma scanner_keeps_tab_and_swallows_character :
  tokens_of (String "009"%char EmptyString)
  = [tok_var (String "009"%char EmptyString)]
  /\ header_of (String "009"%char EmptyString)
     = [String "009"%char EmptyString]
  /\ tokens_of "-p" = []
  /\ header_of "-p" = [].
Proof. repeat split. Qed.

(** ** The header *)

Module HeaderFacts.

Import Lexer.

Lemma ascii_compare_refl (a : ascii) : Ascii.compare a a = Eq.
Proof. unfold Ascii.compare. apply N.compare_refl. Qed.

Lemma ascii_compare_lt_trans (a b c : ascii) :
  Ascii.compare a b = Lt -> Ascii.compare b c = Lt ->
  Ascii.compare a c = Lt.
Proof.
  unfold Ascii.compare. rewrite !N.compare_lt_iff. apply N.lt_trans.
Qed.

Lemma key_lt_irrefl (a : string) : ~ StdMap.key_lt a a.
Proof.
  unfold StdMap.key_lt. induction a as [|x a IH]; simpl.
  - discriminate.
  - rewrite ascii_compare_refl. exact IH.
Qed.

Lemma key_lt_trans (a b c : string) :
  StdMap.key_lt a b -> StdMap.key_lt b c -> StdMap.key_lt a c.
Proof.
  unfold StdMap.key_lt. revert b c.
  induction a as [|x a IH]; intros [|y b] [|z c]; simpl;
    try discriminate; try reflexivity.
  destruct (Ascii.compare x y) eqn:Exy;
    destruct (Ascii.compare y z) eqn:Eyz; try discriminate; intros H1 H2.
  - apply Ascii.compare_eq_iff in Exy, Eyz. subst.
    rewrite ascii_compare_refl. eapply IH; eassumption.
  - apply Ascii.compare_eq_iff in Exy. subst. rewrite Eyz. reflexivity.
  - apply Ascii.compare_eq_iff in Eyz. subst. rewrite Exy. reflexivity.
  - rewrite (ascii_compare_lt_trans x y z Exy Eyz). reflexivity.
Qed.

(** Keys in strictly ascending order are pairwise distinct. *)
Lemma sorted_keys_nodup (ks : list string) :
  Sorted StdMap.key_lt ks -> NoDup ks.
Proof.
  intros Hs. apply Sorted_StronglySorted in Hs;
    [|intros a b c; apply key_lt_trans].
  induction Hs as [|k ks Hs IH Hall]; constructor; [|exact IH].
  intros Hin. rewrite Forall_forall in Hall.
  exact (key_lt_irrefl k (Hall k Hin)).
Qed.

(** What one iteration of [scanTokens] does to the tokens and to the
    registry. *)
Lemma scan_step_effect (l : t) :
  let l' := scanToken (set_start (_current_position l) l) in
  (_tokens l' = _tokens l /\ _proposition_tokens l' = _proposition_tokens l)
  \/ (exists tk, _tokens l' = _tokens l ++ [tk]
                 /\ Token.type tk <> Token.PROPOSITION
                 /\ _proposition_tokens l' = _proposition_tokens l)
  \/ (exists k, _tokens l' = _tokens l ++ [tok_var k]
                /\ _proposition_tokens l'
                   = StdMap.insert k (tok_var k) (_proposition_tokens l)).
Proof.
  unfold scanToken, matchNext. LexerFacts.break_ifs; cbn;
    try (left; split; reflexivity);
    try (right; left; eexists; split; [reflexivity|];
         split; [discriminate|reflexivity]).
  right; right. eexists. split; reflexivity.
Qed.

Lemma entries_insert (k : string) (v : Token) (m : StdMap.t)
      (kx : string * Token) :
  In kx (StdMap.insert k v m) -> kx = (k, v) \/ In kx m.
Proof.
  induction m as [|[k0 v0] rest IH]; simpl.
  - intuition.
  - destruct (String.compare k k0); simpl; intuition.
Qed.

Lemma names_of_snoc (tokens : list Token) (tk : Token) (k : string) :
  names_of (tokens ++ [tk]) k
  <-> names_of tokens k
      \/ (Token.type tk = Token.PROPOSITION /\ Token.lexeme tk = k).
Proof.
  unfold names_of. split.
  - intros [x [Hin Hx]]. apply in_app_or in Hin. destruct Hin as [Hin|Hin].
    + left. exists x. auto.
    + right. destruct Hin as [->|[]]. exact Hx.
  - intros [[x [Hin Hx]]|Hx].
    + exists x. split; [apply in_or_app; auto|exact Hx].
    + exists tk. split; [apply in_or_app; right; left; reflexivity|exact Hx].
Qed.

Lemma scan_step_inv (l : t) :
  registry_inv l ->
  registry_inv (scanToken (set_start (_current_position l) l)).
Proof.
  intros (Hs & Hk & He).
  destruct (scan_step_effect l)
    as [[Ht Hp]|[[tk (Ht & Hty & Hp)]|[k (Ht & Hp)]]];
    unfold registry_inv; rewrite Ht, Hp.
  - auto.
  - split; [exact Hs|]. split; [|exact He].
    intros k. rewrite names_of_snoc, Hk. intuition.
  - split; [apply StdMapFacts.sorted_insert; exact Hs|]. split.
    + intros k'. rewrite StdMapFacts.keys_insert, names_of_snoc, Hk.
      cbn. intuition.
    + intros k' x Hin. apply entries_insert in Hin.
      destruct Hin as [Hin|Hin]; [inversion Hin; reflexivity|].
      apply He. exact Hin.
Qed.

Lemma scanTokens_inv (fuel : nat) (l : t) :
  registry_inv l -> registry_inv (scanTokens fuel l).
Proof.
  revert l. induction fuel as [|fuel IH]; intros l Hl; simpl; [exact Hl|].
  destruct (endReached l); [exact Hl|]. apply IH, scan_step_inv, Hl.
Qed.

Lemma new_inv (source : string) : registry_inv (Lexer.new source).
Proof.
  apply scanTokens_inv. unfold registry_inv, names_of; simpl.
  split; [constructor|]. split.
  - intros k. split; [intros []|intros [tk [[] _]]].
  - intros k x [].
Qed.

Lemma first_occurrences_in (tokens : list Token) :
  forall seen k,
    In k (first_occurrences seen tokens)
    <-> names_of tokens k /\ ~ In k seen.
Proof.
  induction tokens as [|tk rest IH]; intros seen k; simpl.
  - unfold names_of. split; [intros []|intros [[x [[] _]] _]].
  - assert (Hcons : names_of (tk :: rest) k
                    <-> (Token.type tk = Token.PROPOSITION
                         /\ Token.lexeme tk = k)
                        \/ names_of rest k).
    { unfold names_of. split.
      - intros [x [[->|Hin] Hx]]; [left; exact Hx|right; exists x; auto].
      - intros [Hx|[x [Hin Hx]]];
          [exists tk; split; [left; reflexivity|exact Hx]
          |exists x; split; [right; exact Hin|exact Hx]]. }
    assert (Hseen : existsb (String.eqb (Token.lexeme tk)) seen = true
                    <-> In (Token.lexeme tk) seen).
    { rewrite existsb_exists. split.
      - intros [x [Hin Heq]]. apply String.eqb_eq in Heq. subst. exact Hin.
      - intros Hin. exists (Token.lexeme tk). split; [exact Hin|].
        apply String.eqb_refl. }
    destruct (Token.Type_eqb (Token.type tk) Token.PROPOSITION) eqn:Ety.
    + assert (Hty : Token.type tk = Token.PROPOSITION)
        by (destruct (Token.type tk); simpl in Ety; congruence).
      destruct (existsb (String.eqb (Token.lexeme tk)) seen) eqn:Es; simpl.
      * assert (Hin : In (Token.lexeme tk) seen)
          by (apply Hseen; reflexivity).
        rewrite IH, Hcons.
        split; [intuition|]. intros [[[_ Hl]|Hn] Hns]; [|auto].
        subst k. contradiction.
      * assert (Hns : ~ In (Token.lexeme tk) seen)
          by (intros Hin; apply Hseen in Hin; discriminate).
        rewrite IH, Hcons. simpl.
        destruct (string_dec (Token.lexeme tk) k) as [Heq|Hne].
        -- subst k. intuition.
        -- intuition.
    + simpl. rewrite IH, Hcons.
      assert (Hty : Token.type tk <> Token.PROPOSITION)
        by (intros Heq; rewrite Heq in Ety; discriminate).
      intuition.
Qed.

Lemma first_occurrences_nodup (tokens : list Token) :
  forall seen, NoDup (first_occurrences seen tokens).
Proof.
  induction tokens as [|tk rest IH]; intros seen; simpl; [constructor|].
  destruct (Token.Type_eqb (Token.type tk) Token.PROPOSITION
            && negb (existsb (String.eqb (Token.lexeme tk)) seen)).
  - constructor; [|apply IH].
    rewrite first_occurrences_in. intros [_ Hn]. apply Hn. left. reflexivity.
  - apply IH.
Qed.

(** The loop that binds a row keeps the keys and lists the values in the
    order of the registry. *)
Lemma bind_row_cells (i : Z) (props : StdMap.t) :
  forall j props' cells,
    bind_row i j props = Some (props', cells) ->
    StdMap.keys props' = StdMap.keys props
    /\ cells = map (fun kx => Token.value (snd kx)) props'.
Proof.
  induction props as [|[k x] rest IH]; intros j props' cells; simpl.
  - intros H. inversion H. split; reflexivity.
  - destruct (shr_int i j); [|discriminate].
    destruct (bind_row i (j - 1) rest) as [[rest' cells']|] eqn:E;
      [|discriminate].
    intros H. inversion H; subst. destruct (IH _ _ _ E) as [Hk Hc].
    simpl. rewrite Hk, Hc. split; reflexivity.
Qed.

End HeaderFacts.

(** C10: for every input string the keys of the variable registry are
    one-character strings whose character is none of '0', '1', 'F', 'T',
    '(', ')', '^', '*', 'v', '+', '!', '~', '-', '<' and ' '; in
    particular none of these fifteen characters, and so not the letter v,
    is ever a key, and no Variable token has the lexeme v. *)
Theorem registry_never_holds_reserved_character :
  forall source : string,
    Forall key_ok
           (StdMap.keys (Lexer.getPropositionTokens (Lexer.new source)))
    /\ Forall (fun c =>
                 existsb (String.eqb (String c EmptyString))
                         (StdMap.keys
                            (Lexer.getPropositionTokens (Lexer.new source)))
                 = false)
              reserved_chars
    /\ existsb (String.eqb "v")
               (StdMap.keys (Lexer.getPropositionTokens (Lexer.new source)))
       = false
    /\ existsb (fun tk =>
                  Token.Type_eqb (Token.type tk) Token.PROPOSITION
                  && String.eqb (Token.lexeme tk) "v")
               (Lexer.getTokens (Lexer.new source))
       = false.
Proof.
  intros source.
  assert (Hkeys : Forall key_ok
            (StdMap.keys (Lexer.getPropositionTokens (Lexer.new source)))).
  { unfold Lexer.new, Lexer.getPropositionTokens.
    apply LexerFacts.scanTokens_keys. constructor. }
  assert (Hres : forall c, is_reserved c = true ->
            existsb (String.eqb (String c EmptyString))
              (StdMap.keys (Lexer.getPropositionTokens (Lexer.new source)))
            = false).
  { intros c Hc.
    destruct (existsb _ _) eqn:E; [|reflexivity].
    apply existsb_exists in E. destruct E as [k [Hin Heq]].
    apply String.eqb_eq in Heq. subst k.
    rewrite Forall_forall in Hkeys. destruct (Hkeys _ Hin) as [c' [Hc' Hr]].
    inversion Hc'; subst. congruence. }
  split; [exact Hkeys|]. split; [|split].
  - unfold reserved_chars.
    repeat (constructor; [apply Hres; reflexivity|]). constructor.
  - apply (Hres "v"%char). reflexivity.
  - destruct (existsb _ (Lexer.getTokens _)) eqn:E; [|reflexivity].
    apply existsb_exists in E. destruct E as [tk [Hin Htk]].
    apply andb_true_iff in Htk. destruct Htk as [Hty Hlx].
    apply String.eqb_eq in Hlx.
    destruct (HeaderFacts.new_inv source) as (_ & Hnames & _).
    assert (Hv : In "v" (StdMap.keys
                           (Lexer.getPropositionTokens (Lexer.new source)))).
    { apply Hnames. exists tk. split; [exact Hin|]. split; [|exact Hlx].
      destruct (Token.type tk); cbn in Hty; congruence. }
    pose proof (Hres "v"%char eq_refl) as Hno.
    assert (Hyes : existsb (String.eqb "v")
                     (StdMap.keys
                        (Lexer.getPropositionTokens (Lexer.new source)))
                   = true).
    { apply existsb_exists. exists "v". split; [exact Hv|reflexivity]. }
    congruence.
Qed.

(** ** The validator on well-formed sequences *)

Module ValidatorFacts.

Section Reads.

Variable oob : Z -> Token.
Variable tokens : list Token.

Lemma fst_bind {A B : Type} (m : Reads A) (f : A -> Reads B) :
  fst (bind m f) = fst (f (fst m)).
Proof. unfold bind. destruct (f (fst m)). reflexivity. Qed.

Lemma fst_or_else (a b : Reads bool) : fst (or_else a b) = fst a || fst b.
Proof. unfold or_else. rewrite fst_bind. destruct (fst a); reflexivity. Qed.

Lemma fst_and_then (a b : Reads bool) : fst (and_then a b) = fst a && fst b.
Proof. unfold and_then. rewrite fst_bind. destruct (fst a); reflexivity. Qed.

Lemma fst_not (a : Reads bool) : fst (not_ a) = negb (fst a).
Proof. unfold not_. rewrite fst_bind. reflexivity. Qed.

Lemma fst_type_at_is (i : Z) (ty : Token.Type_) :
  fst (type_at_is oob tokens i ty)
  = Token.Type_eqb (Token.type (token_read oob tokens i)) ty.
Proof. unfold type_at_is. rewrite fst_bind. reflexivity. Qed.

Lemma fst_isOperator_at (i : Z) :
  fst (isOperator_at oob tokens i)
  = Token.isOperator (token_read oob tokens i).
Proof. unfold isOperator_at. rewrite fst_bind. reflexivity. Qed.

End Reads.

Lemma token_read_middle (oob : Z -> Token) (pre post : list Token)
      (tk : Token) :
  token_read oob (pre ++ tk :: post) (Z.of_nat (List.length pre)) = tk.
Proof.
  unfold token_read, tokens_at, in_range, tokens_size. cbn [fst].
  rewrite length_app. cbn [List.length].
  replace ((0 <=? Z.of_nat (List.length pre))%Z) with true
    by (symmetry; apply Z.leb_le; lia).
  replace ((Z.of_nat (List.length pre)
            <? Z.of_nat (List.length pre + S (List.length post)))%Z)
    with true by (symmetry; apply Z.ltb_lt; lia).
  cbn [andb]. rewrite Nat2Z.id. apply nth_middle.
Qed.

Lemma token_read_next (oob : Z -> Token) (pre post : list Token)
      (tk n : Token) :
  token_read oob (pre ++ tk :: n :: post) (Z.of_nat (List.length pre) + 1) = n.
Proof.
  replace (pre ++ tk :: n :: post) with ((pre ++ [tk]) ++ n :: post)
    by (rewrite <- app_assoc; reflexivity).
  replace (Z.of_nat (List.length pre) + 1)%Z
    with (Z.of_nat (List.length (pre ++ [tk])))
    by (rewrite length_app; cbn [List.length]; lia).
  apply token_read_middle.
Qed.

Lemma token_read_previous (oob : Z -> Token) (pre post : list Token)
      (p tk : Token) :
  token_read oob ((pre ++ [p]) ++ tk :: post)
             (Z.of_nat (List.length (pre ++ [p])) - 1) = p.
Proof.
  replace ((pre ++ [p]) ++ tk :: post) with (pre ++ p :: tk :: post)
    by (rewrite <- app_assoc; reflexivity).
  replace (Z.of_nat (List.length (pre ++ [p])) - 1)%Z
    with (Z.of_nat (List.length pre))
    by (rewrite length_app; cbn [List.length]; lia).
  apply token_read_middle.
Qed.

(** The check of the validator succeeds at a token whose neighbours are as
    [passes_check] says. *)
Lemma check_token_passes (oob : Z -> Token) (pre post : list Token)
      (tk : Token) :
  passes_check pre tk post ->
  fst (check_token oob (pre ++ tk :: post) (Z.of_nat (List.length pre)))
  = true.
Proof.
  intros Hok. unfold check_token. rewrite fst_bind.
  change (fst (tokens_at oob (pre ++ tk :: post)
                         (Z.of_nat (List.length pre))))
    with (token_read oob (pre ++ tk :: post) (Z.of_nat (List.length pre))).
  rewrite token_read_middle. unfold passes_check in Hok.
  destruct (Token.type tk) eqn:Ety;
    rewrite ?fst_or_else, ?fst_and_then, ?fst_not, ?fst_type_at_is,
      ?fst_isOperator_at;
    try reflexivity.
  1, 2:
    destruct Hok as [[-> ->]|[(pre' & p & -> & Hp)|(n & post' & -> & Hn)]];
    [ reflexivity
    | rewrite token_read_previous; unfold opens in Hp;
      apply orb_true_iff in Hp; destruct Hp as [-> | ->];
      rewrite ?orb_true_r; reflexivity
    | rewrite !token_read_next; unfold is_binary in Hn;
      rewrite Hn; rewrite ?orb_true_r; reflexivity ].
  all: destruct Hok as (n & post' & -> & Hn);
    rewrite !token_read_next; unfold starts_operand in Hn;
    destruct (Token.type n); try discriminate; reflexivity.
Qed.

(** The loop of the validator accepts when every check succeeds. *)
Lemma validate_loop_accepts (oob : Z -> Token) (tokens : list Token) :
  (forall pre tk post,
      tokens = pre ++ tk :: post ->
      fst (check_token oob tokens (Z.of_nat (List.length pre))) = true) ->
  forall post pre,
    tokens = pre ++ post ->
    fst (validate_loop oob tokens (List.length post)
                       (Z.of_nat (List.length pre)) true) = true.
Proof.
  intros Hall. induction post as [|tk post IH]; intros pre Heq.
  - reflexivity.
  - cbn [List.length validate_loop]. rewrite fst_bind.
    rewrite (Hall pre tk post Heq).
    replace (Z.of_nat (List.length pre) + 1)%Z
      with (Z.of_nat (List.length (pre ++ [tk])))
      by (rewrite length_app; cbn [List.length]; lia).
    apply IH. rewrite <- app_assoc. exact Heq.
Qed.

Lemma validate_accepts (oob : Z -> Token) (tokens : list Token) :
  (forall pre tk post,
      tokens = pre ++ tk :: post -> passes_check pre tk post) ->
  fst (validateTokenString oob tokens) = true.
Proof.
  intros Hall. unfold validateTokenString.
  apply (validate_loop_accepts oob tokens) with (pre := []); [|reflexivity].
  intros pre tk post Heq. rewrite Heq at 1.
  apply check_token_passes. apply Hall. exact Heq.
Qed.

Lemma snd_bind {A B : Type} (m : Reads A) (f : A -> Reads B) :
  snd (bind m f) = snd m ++ snd (f (fst m)).
Proof. unfold bind. destruct (f (fst m)). reflexivity. Qed.

Lemma snd_or_else (a b : Reads bool) :
  snd (or_else a b) = snd a ++ (if fst a then [] else snd b).
Proof. unfold or_else. rewrite snd_bind. destruct (fst a); reflexivity. Qed.

Lemma snd_and_then (a b : Reads bool) :
  snd (and_then a b) = snd a ++ (if fst a then snd b else []).
Proof. unfold and_then. rewrite snd_bind. destruct (fst a); reflexivity. Qed.

(** Every read of a check is a read of the loop. *)
Lemma validate_loop_log (oob : Z -> Token) (tokens : list Token) (n : nat) :
  forall i flag j x,
    (j < n)%nat ->
    In x (snd (check_token oob tokens (i + Z.of_nat j))) ->
    In x (snd (validate_loop oob tokens n i flag)).
Proof.
  induction n as [|n IH]; intros i flag j x Hj Hin; [lia|].
  cbn [validate_loop]. rewrite snd_bind. apply in_or_app.
  destruct j as [|j].
  - left. rewrite Z.add_0_r in Hin. exact Hin.
  - right. apply (IH (i + 1)%Z _ j); [lia|].
    replace (i + 1 + Z.of_nat j)%Z with (i + Z.of_nat (S j))%Z by lia.
    exact Hin.
Qed.

(** At an operand that is not the only token the validator reads the next
    index before anything else. *)
Lemma operand_check_reads_next (oob : Z -> Token) (pre post : list Token)
      (tk : Token) :
  Token.type tk = Token.TRUTH_VALUE \/ Token.type tk = Token.PROPOSITION ->
  pre ++ post <> [] ->
  In (Z.of_nat (List.length pre) + 1)%Z
     (snd (check_token oob (pre ++ tk :: post) (Z.of_nat (List.length pre)))).
Proof.
  intros Hty Hne. unfold check_token. rewrite snd_bind. apply in_or_app. right.
  change (fst (tokens_at oob (pre ++ tk :: post)
                         (Z.of_nat (List.length pre))))
    with (token_read oob (pre ++ tk :: post) (Z.of_nat (List.length pre))).
  rewrite token_read_middle.
  assert (Hsize : (tokens_size (pre ++ tk :: post) =? 1)%Z = false).
  { apply Z.eqb_neq. unfold tokens_size. rewrite length_app. cbn [List.length].
    destruct pre; [destruct post; [contradiction|]|]; cbn [List.length]; lia. }
  assert (Hgoal :
    In (Z.of_nat (List.length pre) + 1)%Z
       (snd (ret (tokens_size (pre ++ tk :: post) =? 1)%Z
             ||| (isOperator_at oob (pre ++ tk :: post)
                    (Z.of_nat (List.length pre) + 1)
                  &&& not_ (type_at_is oob (pre ++ tk :: post)
                              (Z.of_nat (List.length pre) + 1)
                              Token.NEGATION))
             ||| isOperator_at oob (pre ++ tk :: post)
                   (Z.of_nat (List.length pre) - 1)
             ||| type_at_is oob (pre ++ tk :: post)
                   (Z.of_nat (List.length pre) - 1) Token.LPAREN)%reads)).
  { rewrite !snd_or_else. apply in_or_app. left. apply in_or_app. left.
    cbn [ret fst snd app]. rewrite Hsize. rewrite snd_and_then.
    apply in_or_app. left. unfold isOperator_at. rewrite snd_bind.
    cbn. left. reflexivity. }
  destruct Hty as [-> | ->]; exact Hgoal.
Qed.

(** Whenever a sequence of two or more tokens ends with an operand, as
    every well-formed expression with an operator does unless it ends with a
    parenthesis, the validator reads the index one past the last token. *)
Lemma last_operand_reads_past_end (oob : Z -> Token) (pre : list Token)
      (tk : Token) :
  Token.type tk = Token.TRUTH_VALUE \/ Token.type tk = Token.PROPOSITION ->
  pre <> [] ->
  In (Z.of_nat (List.length (pre ++ [tk])))
     (snd (validateTokenString oob (pre ++ [tk])))
  /\ in_range (pre ++ [tk]) (Z.of_nat (List.length (pre ++ [tk]))) = false.
Proof.
  intros Hty Hne. split.
  - unfold validateTokenString.
    apply (validate_loop_log oob (pre ++ [tk]) _ 0%Z true (List.length pre)).
    + rewrite length_app. cbn [List.length]. lia.
    + replace (Z.of_nat (List.length (pre ++ [tk])))
        with (Z.of_nat (List.length pre) + 1)%Z
        by (rewrite length_app; cbn [List.length]; lia).
      cbn [Z.add]. apply operand_check_reads_next; [exact Hty|].
      rewrite app_nil_r. exact Hne.
  - unfold in_range, tokens_size.
    replace (Z.of_nat (List.length (pre ++ [tk]))
             <? Z.of_nat (List.length (pre ++ [tk])))%Z with false
      by (symmetry; apply Z.ltb_ge; lia).
    apply andb_false_r.
Qed.
End ValidatorFacts.

Module GrammarFacts.

Lemma split_app_middle {A : Type} (a b pre post : list A) (t : A) :
  a ++ b = pre ++ t :: post ->
  (exists post1, a = pre ++ t :: post1 /\ post = post1 ++ b)
  \/ (exists pre1, b = pre1 ++ t :: post /\ pre = a ++ pre1).
Proof.
  revert pre. induction a as [|x a IH]; intros pre Heq.
  - right. exists pre. split; [exact Heq|reflexivity].
  - destruct pre as [|y pre]; cbn in Heq; inversion Heq; subst.
    + left. exists a. split; reflexivity.
    + destruct (IH pre H1) as [[post1 [-> ->]]|[pre1 [-> ->]]].
      * left. exists post1. split; reflexivity.
      * right. exists pre1. split; reflexivity.
Qed.

Lemma split_singleton {A : Type} (x t : A) (pre post : list A) :
  [x] = pre ++ t :: post -> pre = [] /\ t = x /\ post = [].
Proof.
  destruct pre as [|y pre]; cbn; intros H; inversion H; subst.
  - repeat split.
  - destruct pre; discriminate.
Qed.

(** A well-formed sequence starts with a token an operand can start
    with. *)
Lemma parses_first (k : Z) (ts : list Token) (e : Expr) :
  Parses k ts e ->
  exists t rest, ts = t :: rest /\ starts_operand t = true.
Proof.
  induction 1 as [k b lx Hk|k lx Hk|k ts e Hk HP IH|k lx ts e Hk HP IH
                 |k o lx tl tr l r Hk HPl IHl HPr IHr].
  - eexists _, _. split; reflexivity.
  - eexists _, _. split; reflexivity.
  - eexists _, _. split; reflexivity.
  - eexists _, _. split; reflexivity.
  - destruct IHl as (t & rest & -> & Ht).
    exists t, (rest ++ tok_bin o lx :: tr). split; [reflexivity|exact Ht].
Qed.

Lemma context_after_opening (PRE PRE' POST : list Token) (p : Token) :
  opens p = true ->
  context_ok PRE POST ->
  context_ok (PRE' ++ [p]) POST.
Proof.
  intros Hp [_ HR]. split.
  - right. exists PRE', p. split; [reflexivity|exact Hp].
  - destruct HR as [->|(n & post' & -> & [Hn|[Hn _]])].
    + left. reflexivity.
    + right. exists n, post'. split; [reflexivity|]. left. exact Hn.
    + right. exists n, post'. split; [reflexivity|]. right.
      split; [exact Hn|]. destruct PRE'; discriminate.
Qed.

Lemma context_before_binary (PRE POST POST' : list Token) (n : Token) :
  is_binary n = true ->
  context_ok PRE POST ->
  context_ok PRE (n :: POST').
Proof.
  intros Hn [HL _]. split; [exact HL|].
  right. exists n, POST'. split; [reflexivity|]. left. exact Hn.
Qed.

Lemma context_in_parentheses (PRE POST : list Token) :
  context_ok (PRE ++ [tok_lparen]) (tok_rparen :: POST).
Proof.
  split.
  - right. exists PRE, tok_lparen. split; reflexivity.
  - right. exists tok_rparen, POST. split; [reflexivity|]. right.
    split; [reflexivity|]. destruct PRE; discriminate.
Qed.

Lemma operand_passes (PRE POST : list Token) (tk : Token) :
  Token.type tk = Token.TRUTH_VALUE \/ Token.type tk = Token.PROPOSITION ->
  context_ok PRE POST ->
  passes_check PRE tk POST.
Proof.
  intros Hty [HL HR]. unfold passes_check.
  assert (Hgoal : (PRE = [] /\ POST = [])
                  \/ (exists pre' p, PRE = pre' ++ [p] /\ opens p = true)
                  \/ (exists n post', POST = n :: post' /\ is_binary n = true)).
  { destruct HL as [->|HL]; [|right; left; exact HL].
    destruct HR as [->|(n & post' & -> & [Hn|[_ Hne]])].
    - left. split; reflexivity.
    - right. right. exists n, post'. split; [reflexivity|exact Hn].
    - contradiction. }
  destruct Hty as [-> | ->]; exact Hgoal.
Qed.

Lemma operator_passes (PRE POST : list Token) (tk : Token) :
  Token.isOperator tk = true ->
  (exists n post', POST = n :: post' /\ starts_operand n = true) ->
  passes_check PRE tk POST.
Proof.
  intros Hop Hn. unfold passes_check, Token.isOperator, Token.type in *.
  destruct (Token._type tk); try discriminate; exact Hn.
Qed.

Lemma is_binary_tok_bin (o : BinOp) (lx : string) :
  is_binary (tok_bin o lx) = true.
Proof. destruct o; reflexivity. Qed.

(** Every token of a well-formed sequence that stands in fitting
    surroundings passes the check of the validator. *)
Lemma parses_passes (k : Z) (ts : list Token) (e : Expr) :
  Parses k ts e ->
  forall PRE POST,
    context_ok PRE POST ->
    forall pre t post,
      ts = pre ++ t :: post ->
      passes_check (PRE ++ pre) t (post ++ POST).
Proof.
  induction 1 as [k b lx Hk|k lx Hk|k ts e Hk HP IH|k lx ts e Hk HP IH
                 |k o lx tl tr l r Hk HPl IHl HPr IHr];
    intros PRE POST Hctx pre t post Heq.
  - apply split_singleton in Heq. destruct Heq as (-> & -> & ->).
    rewrite app_nil_r. apply operand_passes; [left; reflexivity|exact Hctx].
  - apply split_singleton in Heq. destruct Heq as (-> & -> & ->).
    rewrite app_nil_r. apply operand_passes; [right; reflexivity|exact Hctx].
  - change (tok_lparen :: ts ++ [tok_rparen])
      with ([tok_lparen] ++ (ts ++ [tok_rparen])) in Heq.
    apply split_app_middle in Heq.
    destruct Heq as [[post1 [Heq ->]]|[pre1 [Heq ->]]].
    + apply split_singleton in Heq. destruct Heq as (-> & -> & ->).
      exact I.
    + apply split_app_middle in Heq.
      destruct Heq as [[post1 [-> ->]]|[pre2 [Heq ->]]].
      * pose proof (IH (PRE ++ [tok_lparen]) (tok_rparen :: POST)
                      (context_in_parentheses PRE POST) pre1 t post1
                      eq_refl) as Hp.
        rewrite <- !app_assoc in *. exact Hp.
      * apply split_singleton in Heq. destruct Heq as (-> & -> & ->).
        exact I.
  - change (tok_not lx :: ts) with ([tok_not lx] ++ ts) in Heq.
    apply split_app_middle in Heq.
    destruct Heq as [[post1 [Heq ->]]|[pre1 [-> ->]]].
    + apply split_singleton in Heq. destruct Heq as (-> & -> & ->).
      apply operator_passes; [reflexivity|].
      destruct (parses_first _ _ _ HP) as (n & rest & -> & Hn).
      exists n, (rest ++ POST). split; [reflexivity|exact Hn].
    + pose proof (IH (PRE ++ [tok_not lx]) POST
                    (context_after_opening PRE PRE POST (tok_not lx) eq_refl
                       Hctx)
                    pre1 t post eq_refl) as Hp.
      rewrite <- !app_assoc in *. exact Hp.
  - apply split_app_middle in Heq.
    destruct Heq as [[post1 [-> ->]]|[pre1 [Heq ->]]].
    + pose proof (IHl PRE (tok_bin o lx :: tr ++ POST)
                    (context_before_binary PRE POST (tr ++ POST) (tok_bin o lx)
                       (is_binary_tok_bin o lx) Hctx)
                    pre t post1 eq_refl) as Hp.
      rewrite <- !app_assoc in *. exact Hp.
    + change (tok_bin o lx :: tr) with ([tok_bin o lx] ++ tr) in Heq.
      apply split_app_middle in Heq.
      destruct Heq as [[post1 [Heq ->]]|[pre2 [-> ->]]].
      * apply split_singleton in Heq. destruct Heq as (-> & -> & ->).
        apply operator_passes; [destruct o; reflexivity|].
        destruct (parses_first _ _ _ HPr) as (n & rest & -> & Hn).
        exists n, (rest ++ POST). split; [reflexivity|exact Hn].
      * assert (Hop : opens (tok_bin o lx) = true) by (destruct o; reflexivity).
        pose proof (IHr ((PRE ++ tl) ++ [tok_bin o lx]) POST
                      (context_after_opening PRE (PRE ++ tl) POST
                         (tok_bin o lx) Hop Hctx)
                      pre2 t post eq_refl) as Hp.
        rewrite <- !app_assoc in *. exact Hp.
Qed.

(** The validator accepts every well-formed sequence, whatever a read
    outside the sequence yields. *)
Lemma validate_parses (oob : Z -> Token) (k : Z) (ts : list Token)
      (e : Expr) :
  Parses k ts e -> fst (validateTokenString oob ts) = true.
Proof.
  intros HP. apply ValidatorFacts.validate_accepts.
  intros pre tk post Heq.
  pose proof (parses_passes k ts e HP [] []
                (conj (or_introl eq_refl) (or_introl eq_refl))
                pre tk post Heq) as Hp.
  rewrite app_nil_r in Hp. exact Hp.
Qed.

End GrammarFacts.

(** ** The validator on concrete inputs *)

Ltac oracle_cases oob :=
  vm_compute;
  repeat match goal with
         | |- context [oob ?i] => destruct (oob i) as [[] ? ? ?]
         end;
  reflexivity.

(** C8: the validator reads outside the token vector. On the three tokens
    of "p ^ q" it reads index 3, one past the last token, and still accepts;
    on the two tokens of "pq" it reads index -1, the position before the
    first token. Both hold whatever those reads yield. *)
Theorem validator_reads_out_of_range (oob : Z -> Token) :
  fst (validateTokenString oob (tokens_of "p ^ q")) = true
  /\ existsb (Z.eqb 3) (snd (validateTokenString oob (tokens_of "p ^ q")))
     = true
  /\ reads_in_range (tokens_of "p ^ q")
                    (snd (validateTokenString oob (tokens_of "p ^ q")))
     = false
  /\ existsb (Z.eqb (-1)) (snd (validateTokenString oob (tokens_of "pq")))
     = true
  /\ reads_in_range (tokens_of "pq")
                    (snd (validateTokenString oob (tokens_of "pq")))
     = false.
Proof.
  split; [|split; [|split; [|split]]]; oracle_cases oob.
Qed.

(** C7: malformed inputs are not rejected. Whatever the out-of-range reads
    yield, "p ^" passes the validator and the first row then pops an empty
    operand stack; "()" passes and the first row reads the top of an empty
    stack; "(p" passes and a table of two rows is printed; "((p)" passes
    without any read out of range and a table of two rows is printed. *)
Theorem malformed_inputs_pass_validation (oob : Z -> Token) (fuel : nat) :
  evaluate oob (S fuel) "p ^" = Table ["p"] Undefined
  /\ evaluate oob (S fuel) "()" = Table [] Undefined
  /\ evaluate oob (3 + fuel) "(p"
     = Table ["p"] (Printed [([true], true); ([false], false)])
  /\ reads_in_range (tokens_of "((p)")
                    (snd (validateTokenString oob (tokens_of "((p)"))) = true
  /\ evaluate oob (3 + fuel) "((p)"
     = Table ["p"] (Printed [([true], true); ([false], false)]).
Proof.
  split; [|split; [|split; [|split]]]; oracle_cases oob.
Qed.

(** ** The converter *)

Module ConverterFacts.

Lemma pop_all_app (operators output : list Token) :
  pop_all operators output = output ++ operators.
Proof.
  revert output. induction operators as [|top rest IH]; intros output; simpl.
  - symmetry. apply app_nil_r.
  - rewrite IH, <- app_assoc. reflexivity.
Qed.

(** An incoming operator moves to the output every pending operator that
    binds tighter and stops at a stack that blocks it. *)
Lemma pop_tighter_pending (tk : Token) (pend operators output : list Token) :
  Forall (fun x => (Token.precedence x < Token.precedence tk)%Z) pend ->
  blocks (Token.precedence tk) operators ->
  pop_tighter tk (pend ++ operators) output = (operators, output ++ pend).
Proof.
  revert output. induction pend as [|top pend IH]; intros output Hp Hb.
  - rewrite app_nil_r. destruct operators as [|top rest]; simpl.
    + reflexivity.
    + simpl in Hb.
      destruct (Z.gtb_spec (Token.precedence tk) (Token.precedence top));
        [lia|reflexivity].
  - inversion Hp as [|? ? Htop Hrest]; subst. simpl.
    destruct (Z.gtb_spec (Token.precedence tk) (Token.precedence top));
      [|lia].
    rewrite IH by assumption. rewrite <- app_assoc. reflexivity.
Qed.

Lemma pop_tighter_blocked (tk : Token) (operators output : list Token) :
  blocks (Token.precedence tk) operators ->
  pop_tighter tk operators output = (operators, output).
Proof.
  intros Hb.
  pose proof (pop_tighter_pending tk [] operators output
                (Forall_nil _) Hb) as H.
  rewrite app_nil_r in H. exact H.
Qed.

(** A right parenthesis moves the pending operators to the output and
    discards the left parenthesis below them. *)
Lemma pop_to_lparen_pending (pend operators output : list Token) :
  Forall (fun x => Token.isOperator x = true) pend ->
  pop_to_lparen (pend ++ tok_lparen :: operators) output
  = Some (operators, output ++ pend).
Proof.
  revert output. induction pend as [|top pend IH]; intros output Hp; simpl.
  - rewrite app_nil_r. reflexivity.
  - inversion Hp as [|? ? Htop Hrest]; subst.
    replace (Token.Type_eqb (Token.type top) Token.LPAREN) with false.
    + rewrite IH by assumption. rewrite <- app_assoc. reflexivity.
    + unfold Token.isOperator, Token.type in *.
      destruct (Token._type top); simpl; congruence.
Qed.

Lemma precedence_nonneg (tk : Token) : (0 <= Token.precedence tk)%Z.
Proof. unfold Token.precedence. destruct (Token._precedence tk); lia. Qed.

Lemma blocks_weaken (k k' : Z) (operators : list Token) :
  (k' <= k)%Z -> blocks k operators -> blocks k' operators.
Proof. destruct operators; simpl; [auto|lia]. Qed.

Lemma binop_precedence_range (o : BinOp) (lx : string) :
  (1 <= Token.precedence (tok_bin o lx) <= 4)%Z.
Proof. destruct o; cbn; lia. Qed.

(** The invariant of the conversion loop over a well-formed piece of input:
    its post-fix form is on the output, apart from a suffix of operators
    that are still pending on the stack. *)
Lemma toPostFix_loop_parses (k : Z) (ts : list Token) (e : Expr) :
  Parses k ts e ->
  exists pend w,
    w ++ pend = postfix_of e
    /\ Forall (fun x => Token.isOperator x = true
                        /\ (Token.precedence x <= k)%Z) pend
    /\ forall operators output rest,
        blocks k operators ->
        toPostFix_loop (ts ++ rest) operators output
        = toPostFix_loop rest (pend ++ operators) (output ++ w).
Proof.
  induction 1 as [k b lx Hk|k lx Hk|k ts e Hk HP IH|k lx ts e Hk HP IH
                 |k o lx tl tr l r Hk HPl IHl HPr IHr].
  - exists [], [tok_lit b lx].
    split; [reflexivity|split; [constructor|]]. intros; reflexivity.
  - exists [], [tok_var lx].
    split; [reflexivity|split; [constructor|]]. intros; reflexivity.
  - destruct IH as (pend & w & Hw & Hpend & Hloop).
    exists [], (postfix_of e). split; [apply app_nil_r|].
    split; [constructor|].
    intros operators output rest Hb.
    cbn [app toPostFix_loop]. cbn -[toPostFix_loop].
    rewrite <- app_assoc. rewrite Hloop by (cbn; lia).
    cbn [app toPostFix_loop]. cbn -[toPostFix_loop pop_to_lparen].
    rewrite pop_to_lparen_pending.
    + rewrite <- app_assoc, Hw. reflexivity.
    + eapply Forall_impl; [|exact Hpend]. cbn. intros a [Ha _]. exact Ha.
  - destruct IH as (pend & w & Hw & Hpend & Hloop).
    exists (pend ++ [tok_not lx]), w. split; [|split].
    + rewrite app_assoc, Hw. reflexivity.
    + apply Forall_app. split.
      * eapply Forall_impl; [|exact Hpend]. cbn. intros a [Ha Hl].
        split; [exact Ha|lia].
      * constructor; [|constructor]. split; [reflexivity|cbn; lia].
    + intros operators output rest Hb.
      cbn [app toPostFix_loop]. cbn -[toPostFix_loop pop_tighter].
      rewrite (pop_tighter_blocked (tok_not lx) operators output)
        by (apply (blocks_weaken k); [cbn; lia|exact Hb]).
      rewrite Hloop by (cbn; lia).
      rewrite <- app_assoc. reflexivity.
  - destruct IHl as (pendl & wl & Hwl & Hpendl & Hloopl).
    destruct IHr as (pendr & wr & Hwr & Hpendr & Hloopr).
    pose proof (binop_precedence_range o lx) as Hrange.
    exists (pendr ++ [tok_bin o lx]), (postfix_of l ++ wr). split; [|split].
    + cbn [postfix_of]. rewrite <- Hwr. rewrite <- !app_assoc. reflexivity.
    + apply Forall_app. split.
      * eapply Forall_impl; [|exact Hpendr]. cbn beta. intros a [Ha Hl].
        split; [exact Ha|lia].
      * constructor; [|constructor]. split; [|lia].
        destruct o; reflexivity.
    + intros operators output rest Hb.
      rewrite <- app_assoc.
      rewrite Hloopl by (apply (blocks_weaken k); [lia|exact Hb]).
      cbn [app toPostFix_loop].
      replace (Token.isOperator (tok_bin o lx)) with true
        by (destruct o; reflexivity).
      rewrite (pop_tighter_pending (tok_bin o lx) pendl operators).
      * rewrite Hloopr by (cbn [blocks]; lia).
        rewrite <- !app_assoc. rewrite (app_assoc wl pendl), Hwl.
        reflexivity.
      * eapply Forall_impl; [|exact Hpendl]. cbn beta. intros a [_ Hl]. lia.
      * apply (blocks_weaken k); [lia|exact Hb].
Qed.

(** The converter produces the post-fix form of every well-formed infix
    sequence. *)
Lemma toPostFix_parses (k : Z) (ts : list Token) (e : Expr) :
  Parses k ts e -> toPostFix ts = Some (postfix_of e).
Proof.
  intros HP. destruct (toPostFix_loop_parses k ts e HP)
    as (pend & w & Hw & _ & Hloop).
  unfold toPostFix. rewrite <- (app_nil_r ts).
  rewrite Hloop by exact I.
  cbn [toPostFix_loop]. rewrite pop_all_app, app_nil_r. cbn [app].
  rewrite Hw. reflexivity.
Qed.


(** The scanner gives the binary operators the precedence numbers of the
    precedence order. *)
Lemma precedence_is_rank (o : BinOp) (lx : string) :
  Token.precedence (tok_bin o lx) = rank o.
Proof. destruct o; reflexivity. Qed.

Lemma level_nonneg (e : Expr) : (0 <= level e)%Z.
Proof.
  destruct e as [| | |o lx l r]; cbn [level]; try lia.
  destruct o; cbn [rank]; lia.
Qed.

Lemma parses_infix_bare (e : Expr) :
  prec_shaped e = true ->
  forall k, (level e <= k)%Z -> Parses k (infix_bare e) e.
Proof.
  induction e as [b lx|lx|lx e1 IH|o lx l IHl r IHr]; intros Hs k Hk.
  - constructor. exact Hk.
  - constructor. exact Hk.
  - cbn [prec_shaped] in Hs. apply andb_true_iff in Hs.
    destruct Hs as [Hl Hs]. apply Z.eqb_eq in Hl.
    cbn [infix_bare]. apply P_not; [exact Hk|]. apply IH; [exact Hs|lia].
  - cbn [prec_shaped] in Hs.
    repeat (apply andb_true_iff in Hs; destruct Hs as [Hs ?]).
    apply Z.ltb_lt in Hs.
    match goal with H : (_ <=? _)%Z = true |- _ => apply Z.leb_le in H end.
    cbn [level] in *. cbn [infix_bare app].
    apply P_bin; rewrite precedence_is_rank; [exact Hk| |].
    + apply IHl; [assumption|lia].
    + apply IHr; [assumption|lia].
Qed.

End ConverterFacts.

Module MultisetFacts.

Lemma pop_tighter_same (tk : Token) (operators : list Token) :
  forall output operators' output',
    pop_tighter tk operators output = (operators', output') ->
    output' ++ operators' = output ++ operators.
Proof.
  induction operators as [|top rest IH]; intros output operators' output';
    cbn [pop_tighter].
  - intros H. inversion H. reflexivity.
  - destruct (Token.precedence tk >? Token.precedence top)%Z.
    + intros H. rewrite (IH _ _ _ H), <- app_assoc. reflexivity.
    + intros H. inversion H. reflexivity.
Qed.

Lemma pop_to_lparen_same (operators : list Token) :
  forall output operators' output',
    pop_to_lparen operators output = Some (operators', output') ->
    exists lp, Token.type lp = Token.LPAREN
               /\ output ++ operators = output' ++ lp :: operators'.
Proof.
  induction operators as [|top rest IH]; intros output operators' output';
    cbn [pop_to_lparen]; [discriminate|].
  destruct (Token.Type_eqb (Token.type top) Token.LPAREN) eqn:E.
  - intros H. inversion H; subst. exists top. split; [|reflexivity].
    destruct (Token.type top); cbn in E; congruence.
  - intros H. destruct (IH _ _ _ H) as (lp & Hlp & Heq).
    exists lp. split; [exact Hlp|]. rewrite <- Heq, <- app_assoc. reflexivity.
Qed.

Lemma without_parens_app (a b : list Token) :
  without_parens (a ++ b) = without_parens a ++ without_parens b.
Proof. apply filter_app. Qed.

Lemma without_parens_paren (tk : Token) (a : list Token) :
  is_paren tk = true -> without_parens (tk :: a) = without_parens a.
Proof. intros H. unfold without_parens. cbn. rewrite H. reflexivity. Qed.

Lemma without_parens_keep (tk : Token) (a : list Token) :
  is_paren tk = false -> without_parens (tk :: a) = tk :: without_parens a.
Proof. intros H. unfold without_parens. cbn. rewrite H. reflexivity. Qed.

Lemma operator_not_paren (tk : Token) :
  Token.isOperator tk = true -> is_paren tk = false.
Proof.
  unfold Token.isOperator, is_paren, Token.type.
  destruct (Token._type tk); cbn; congruence.
Qed.

(** The conversion loop keeps the tokens that are not parentheses: those of
    the result are those of the output, of the stack and of the input. *)
Lemma toPostFix_loop_multiset (tokens : list Token) :
  forall operators output result,
    toPostFix_loop tokens operators output = Some result ->
    Permutation (without_parens result)
                (without_parens (output ++ operators)
                 ++ without_parens tokens).
Proof.
  induction tokens as [|tk rest IH]; intros operators output result;
    cbn [toPostFix_loop].
  - intros H. inversion H. rewrite ConverterFacts.pop_all_app.
    cbn. rewrite app_nil_r. apply Permutation_refl.
  - destruct (Token.isOperator tk) eqn:Eop.
    + destruct (pop_tighter tk operators output) as [operators' output']
        eqn:Epop.
      intros H. apply IH in H. rewrite H.
      apply pop_tighter_same in Epop. rewrite <- Epop.
      rewrite (without_parens_keep tk rest (operator_not_paren tk Eop)).
      rewrite !without_parens_app.
      rewrite (without_parens_keep tk operators' (operator_not_paren tk Eop)).
      rewrite <- !app_assoc. apply Permutation_app_head.
      cbn [app]. rewrite Permutation_middle. apply Permutation_refl.
    + destruct (Token.Type_eqb (Token.type tk) Token.LPAREN) eqn:Elp.
      * intros H. apply IH in H. rewrite H.
        assert (Hp : is_paren tk = true)
          by (unfold is_paren; rewrite Elp; reflexivity).
        rewrite (without_parens_paren tk rest Hp).
        rewrite !without_parens_app, (without_parens_paren tk operators Hp).
        apply Permutation_refl.
      * destruct (Token.Type_eqb (Token.type tk) Token.RPAREN) eqn:Erp.
        -- destruct (pop_to_lparen operators output)
             as [[operators' output']|] eqn:Epop; [|discriminate].
           intros H. apply IH in H. rewrite H.
           apply pop_to_lparen_same in Epop.
           destruct Epop as (lp & Hlp & Heq). rewrite Heq.
           assert (Hp : is_paren tk = true)
             by (unfold is_paren; rewrite Erp; apply orb_true_r).
           assert (Hp' : is_paren lp = true)
             by (unfold is_paren; rewrite Hlp; reflexivity).
           rewrite (without_parens_paren tk rest Hp).
           rewrite !without_parens_app.
           rewrite (without_parens_paren lp operators' Hp').
           apply Permutation_refl.
        -- intros H. apply IH in H. rewrite H.
           assert (Hp : is_paren tk = false)
             by (unfold is_paren; rewrite Elp, Erp; reflexivity).
           rewrite (without_parens_keep tk rest Hp).
           rewrite !without_parens_app. cbn [without_parens filter].
           fold without_parens. rewrite Hp. cbn [negb].
           rewrite <- !app_assoc.
           apply Permutation_app_head. cbn [app].
           apply Permutation_middle.
Qed.

Lemma operator_not_rparen (tk : Token) :
  Token.isOperator tk = true -> is_rparen tk = false.
Proof.
  unfold Token.isOperator, is_rparen, Token.type.
  destruct (Token._type tk); cbn; congruence.
Qed.

Lemma lparen_not_rparen (tk : Token) :
  Token.Type_eqb (Token.type tk) Token.LPAREN = true -> is_rparen tk = false.
Proof.
  unfold is_rparen, Token.type. destruct (Token._type tk); cbn; congruence.
Qed.

(** The conversion loop never moves a right parenthesis to the stack or to
    the output. *)
Lemma toPostFix_loop_no_rparen (tokens : list Token) :
  forall operators output result,
    toPostFix_loop tokens operators output = Some result ->
    existsb is_rparen (output ++ operators) = false ->
    existsb is_rparen result = false.
Proof.
  induction tokens as [|tk rest IH]; intros operators output result;
    cbn [toPostFix_loop].
  - intros H Hno. inversion H. rewrite ConverterFacts.pop_all_app. exact Hno.
  - destruct (Token.isOperator tk) eqn:Eop.
    + destruct (pop_tighter tk operators output) as [operators' output']
        eqn:Epop.
      intros H Hno. apply (IH _ _ _ H).
      apply pop_tighter_same in Epop.
      rewrite <- Epop, existsb_app in Hno.
      rewrite existsb_app. cbn [existsb].
      apply orb_false_iff in Hno. destruct Hno as [-> ->].
      rewrite (operator_not_rparen tk Eop). reflexivity.
    + destruct (Token.Type_eqb (Token.type tk) Token.LPAREN) eqn:Elp.
      * intros H Hno. apply (IH _ _ _ H).
        rewrite existsb_app in *. cbn [existsb].
        apply orb_false_iff in Hno. destruct Hno as [-> ->].
        rewrite (lparen_not_rparen tk Elp). reflexivity.
      * destruct (Token.Type_eqb (Token.type tk) Token.RPAREN) eqn:Erp.
        -- destruct (pop_to_lparen operators output)
             as [[operators' output']|] eqn:Epop; [|discriminate].
           intros H Hno. apply (IH _ _ _ H).
           apply pop_to_lparen_same in Epop.
           destruct Epop as (lp & Hlp & Heq). rewrite Heq in Hno.
           rewrite existsb_app in *. cbn [existsb] in Hno.
           apply orb_false_iff in Hno. destruct Hno as [-> Hno].
           apply orb_false_iff in Hno. destruct Hno as [_ ->]. reflexivity.
        -- intros H Hno. apply (IH _ _ _ H).
           rewrite existsb_app in *.
           apply orb_false_iff in Hno. destruct Hno as [Ho ->].
           rewrite existsb_app, Ho. cbn. unfold is_rparen. rewrite Erp.
           reflexivity.
Qed.

(** Whenever the converter returns, its result has the non-parenthesis
    tokens of its input, each as often as the input, and no right
    parenthesis. *)
Lemma toPostFix_keeps_tokens (tokens result : list Token) :
  toPostFix tokens = Some result ->
  Permutation (without_parens result) (without_parens tokens)
  /\ existsb is_rparen result = false.
Proof.
  unfold toPostFix. intros H. split.
  - apply toPostFix_loop_multiset in H. exact H.
  - apply (toPostFix_loop_no_rparen _ _ _ _ H). reflexivity.
Qed.

Lemma postfix_of_no_paren (e : Expr) :
  existsb is_paren (postfix_of e) = false.
Proof.
  induction e as [b lx|lx|lx e1 IH|o lx l IHl r IHr]; cbn [postfix_of];
    rewrite ?existsb_app, ?IH, ?IHl, ?IHr; try reflexivity.
  destruct o; reflexivity.
Qed.

Lemma without_parens_id (l : list Token) :
  existsb is_paren l = false -> without_parens l = l.
Proof.
  induction l as [|tk rest IH]; [reflexivity|]. cbn [existsb].
  intros Hno. apply orb_false_iff in Hno. destruct Hno as [Htk Hrest].
  rewrite (without_parens_keep tk rest Htk), (IH Hrest). reflexivity.
Qed.

(** On a well-formed sequence the converter returns the post-fix form,
    which holds no parenthesis and the other tokens of the input. *)
Lemma toPostFix_well_formed (k : Z) (ts : list Token) (e : Expr) :
  Parses k ts e ->
  toPostFix ts = Some (postfix_of e)
  /\ existsb is_paren (postfix_of e) = false
  /\ Permutation (postfix_of e) (without_parens ts).
Proof.
  intros HP. pose proof (ConverterFacts.toPostFix_parses k ts e HP) as H.
  split; [exact H|]. split; [apply postfix_of_no_paren|].
  destruct (toPostFix_keeps_tokens ts _ H) as [Hperm _].
  rewrite <- Hperm.
  rewrite (without_parens_id _ (postfix_of_no_paren e)).
  apply Permutation_refl.
Qed.

(** Every token of the result of the conversion loop comes from the output,
    the stack or the input. *)
Lemma toPostFix_loop_subset (tokens : list Token) :
  forall operators output result,
    toPostFix_loop tokens operators output = Some result ->
    forall x, In x result -> In x (output ++ operators) \/ In x tokens.
Proof.
  induction tokens as [|tk rest IH]; intros operators output result;
    cbn [toPostFix_loop].
  - intros H x Hin. inversion H; subst.
    rewrite ConverterFacts.pop_all_app in Hin. left. exact Hin.
  - destruct (Token.isOperator tk).
    + destruct (pop_tighter tk operators output) as [operators' output']
        eqn:Epop.
      intros H x Hin. apply pop_tighter_same in Epop.
      destruct (IH _ _ _ H x Hin) as [Hx|Hx]; [|right; right; exact Hx].
      apply in_app_or in Hx. destruct Hx as [Hx|[Hx|Hx]].
      * left. rewrite <- Epop. apply in_or_app. left. exact Hx.
      * right. left. exact Hx.
      * left. rewrite <- Epop. apply in_or_app. right. exact Hx.
    + destruct (Token.Type_eqb (Token.type tk) Token.LPAREN).
      * intros H x Hin.
        destruct (IH _ _ _ H x Hin) as [Hx|Hx]; [|right; right; exact Hx].
        apply in_app_or in Hx. destruct Hx as [Hx|[Hx|Hx]].
        -- left. apply in_or_app. left. exact Hx.
        -- right. left. exact Hx.
        -- left. apply in_or_app. right. exact Hx.
      * destruct (Token.Type_eqb (Token.type tk) Token.RPAREN).
        -- destruct (pop_to_lparen operators output)
             as [[operators' output']|] eqn:Epop; [|discriminate].
           intros H x Hin. apply pop_to_lparen_same in Epop.
           destruct Epop as (lp & _ & Heq).
           destruct (IH _ _ _ H x Hin) as [Hx|Hx]; [|right; right; exact Hx].
           left. rewrite Heq. apply in_app_or in Hx. apply in_or_app.
           destruct Hx as [Hx|Hx]; [left; exact Hx|right; right; exact Hx].
        -- intros H x Hin.
           destruct (IH _ _ _ H x Hin) as [Hx|Hx]; [|right; right; exact Hx].
           rewrite <- app_assoc in Hx. apply in_app_or in Hx.
           destruct Hx as [Hx|[Hx|Hx]].
           ++ left. apply in_or_app. left. exact Hx.
           ++ right. left. exact Hx.
           ++ left. apply in_or_app. right. exact Hx.
Qed.

Lemma toPostFix_subset (tokens result : list Token) :
  toPostFix tokens = Some result ->
  forall x, In x result -> In x tokens.
Proof.
  intros H x Hin.
  destruct (toPostFix_loop_subset tokens [] [] result H x Hin) as [[]|Hx].
  exact Hx.
Qed.

End MultisetFacts.

(** C6: the post-fix form of an accepted sequence can contain a
    parenthesis. "p ^ (" is accepted, without any read out of range, and its
    post-fix form is p ( ^; "((p)" is accepted, without any read out of
    range, and its post-fix form is p (; "(p" is accepted whatever the
    out-of-range read yields and its post-fix form is p (. *)
Theorem accepted_sequence_keeps_a_parenthesis (oob : Z -> Token) :
  (validateTokenString oob (tokens_of "p ^ (")
   = (true, [0; 1; 1; 1; 2; 2; 2; 2]%Z)
   /\ toPostFix (tokens_of "p ^ (")
      = Some [tok_var "p"; tok_lparen; tok_bin And "^"]
   /\ option_map (existsb is_paren) (toPostFix (tokens_of "p ^ ("))
      = Some true)
  /\ (fst (validateTokenString oob (tokens_of "((p)")) = true
      /\ reads_in_range (tokens_of "((p)")
                        (snd (validateTokenString oob (tokens_of "((p)")))
         = true
      /\ toPostFix (tokens_of "((p)") = Some [tok_var "p"; tok_lparen])
  /\ (fst (validateTokenString oob (tokens_of "(p")) = true
      /\ toPostFix (tokens_of "(p") = Some [tok_var "p"; tok_lparen]).
Proof.
  repeat split; oracle_cases oob.
Qed.

(** ** The evaluator *)

Module EvaluatorFacts.

Lemma find_insert_absent (k k' : string) (v : Token) (m : StdMap.t) :
  StdMap.find k m = None ->
  StdMap.find k' (StdMap.insert k v m)
  = if String.eqb k' k then Some v else StdMap.find k' m.
Proof.
  induction m as [|[k0 v0] rest IH]; simpl; intros Habs.
  - reflexivity.
  - destruct (String.eqb_spec k k0) as [->|Hne]; [discriminate|].
    destruct (String.compare k k0) eqn:E; simpl.
    + apply String.compare_eq_iff in E. contradiction.
    + reflexivity.
    + rewrite (IH Habs).
      destruct (String.eqb_spec k' k0) as [->|Hne'].
      * destruct (String.eqb_spec k0 k); [congruence|reflexivity].
      * reflexivity.
Qed.

(** [propositions[k]] reads the bound value of [k] and leaves every bound
    value as it was. *)
Lemma index_bound (k : string) (props : StdMap.t) :
  Token.value (fst (StdMap.index k props)) = bound props k
  /\ forall k', bound (snd (StdMap.index k props)) k' = bound props k'.
Proof.
  unfold StdMap.index, bound.
  destruct (StdMap.find k props) as [x|] eqn:F; simpl.
  - split; reflexivity.
  - split; [reflexivity|]. intros k'.
    rewrite (find_insert_absent k k' Token.default props F).
    destruct (String.eqb_spec k' k) as [->|]; [|reflexivity].
    rewrite F. reflexivity.
Qed.

Lemma index_registered (k : string) (props : StdMap.t) :
  StdMap.find k props <> None -> snd (StdMap.index k props) = props.
Proof.
  unfold StdMap.index. destruct (StdMap.find k props); [reflexivity|].
  intros H. contradiction.
Qed.

Lemma denote_ext (p1 p2 : StdMap.t) (e : Expr) :
  (forall k, bound p1 k = bound p2 k) -> denote p1 e = denote p2 e.
Proof.
  intros H. induction e as [b lx|lx|lx e1 IH|o lx l IHl r IHr]; simpl.
  - reflexivity.
  - apply H.
  - rewrite IH. reflexivity.
  - rewrite IHl, IHr. reflexivity.
Qed.

Lemma eval_postfix_app (a b : list Token) (st : EvalState) :
  eval_postfix (a ++ b) st
  = match eval_postfix a st with
    | Some st' => eval_postfix b st'
    | None => None
    end.
Proof.
  revert st. induction a as [|tk a IH]; intros st; simpl; [reflexivity|].
  destruct (eval_token tk st); [apply IH|reflexivity].
Qed.

(** [left <= right] on [bool] is the implication. *)
Lemma bool_le_implication (l r : bool) : bool_le l r = negb l || r.
Proof. destruct l, r; reflexivity. Qed.

Lemma eval_token_bin (o : BinOp) (lx : string) (props : StdMap.t)
      (r l : bool) (operands : list bool) :
  eval_token (tok_bin o lx) (props, r :: l :: operands)
  = Some (props, binop_sem o l r :: operands).
Proof.
  destruct o; simpl; try reflexivity.
  rewrite bool_le_implication. reflexivity.
Qed.

Lemma eval_token_var (lx : string) (props : StdMap.t)
      (operands : list bool) :
  eval_token (tok_var lx) (props, operands)
  = Some (snd (StdMap.index lx props), bound props lx :: operands).
Proof.
  simpl. unfold Token.lexeme; simpl.
  destruct (index_bound lx props) as [Hv _].
  destruct (StdMap.index lx props) as [x props']. simpl in *.
  rewrite Hv. reflexivity.
Qed.

(** Evaluating the post-fix form of an expression pushes its value and
    leaves every bound value as it was. *)
Lemma eval_postfix_of (e : Expr) :
  forall (props : StdMap.t) (operands : list bool),
  exists props',
    eval_postfix (postfix_of e) (props, operands)
    = Some (props', denote props e :: operands)
    /\ forall k, bound props' k = bound props k.
Proof.
  induction e as [b lx|lx|lx e1 IH|o lx l IHl r IHr];
    intros props operands.
  - exists props. split; reflexivity.
  - exists (snd (StdMap.index lx props)). split.
    + cbn [postfix_of eval_postfix]. rewrite eval_token_var. reflexivity.
    + apply index_bound.
  - destruct (IH props operands) as [p1 [H1 Hb1]].
    exists p1. split; [|exact Hb1].
    cbn [postfix_of]. rewrite eval_postfix_app, H1. reflexivity.
  - destruct (IHl props operands) as [p1 [H1 Hb1]].
    destruct (IHr p1 (denote props l :: operands)) as [p2 [H2 Hb2]].
    exists p2. split.
    + cbn [postfix_of]. rewrite eval_postfix_app, H1.
      rewrite eval_postfix_app, H2.
      cbn [eval_postfix]. rewrite eval_token_bin.
      rewrite (denote_ext p1 props r Hb1). reflexivity.
    + intros k. rewrite Hb2. apply Hb1.
Qed.

End EvaluatorFacts.

(** C1: for every expression (its post-fix form is a well-formed post-fix
    token sequence) and every binding of the variables in the registry, the
    evaluator pushes the standard boolean value of the expression on the
    operand stack. Token by token: a literal pushes its constant, a variable
    pushes its bound value, a negation replaces the top operand by its
    complement, and a binary operator pops the right operand, then the left
    one, and pushes left AND right, left OR right, (not left) or right, or
    left equals right. *)
Theorem evaluator_standard_semantics :
  (forall (e : Expr) (props : StdMap.t) (operands : list bool),
      exists props',
        eval_postfix (postfix_of e) (props, operands)
        = Some (props', denote props e :: operands)
        /\ forall k, bound props' k = bound props k)
  /\ (forall b lx props operands,
         eval_token (tok_lit b lx) (props, operands)
         = Some (props, b :: operands))
  /\ (forall lx props operands,
         eval_token (tok_var lx) (props, operands)
         = Some (snd (StdMap.index lx props), bound props lx :: operands))
  /\ (forall lx props right' operands,
         eval_token (tok_not lx) (props, right' :: operands)
         = Some (props, negb right' :: operands))
  /\ (forall lx props right' left' operands,
         eval_token (tok_bin And lx) (props, right' :: left' :: operands)
         = Some (props, (left' && right') :: operands)
         /\ eval_token (tok_bin Or lx) (props, right' :: left' :: operands)
            = Some (props, (left' || right') :: operands)
         /\ eval_token (tok_bin Implies lx)
                       (props, right' :: left' :: operands)
            = Some (props, (negb left' || right') :: operands)
         /\ eval_token (tok_bin Iff lx) (props, right' :: left' :: operands)
            = Some (props, Bool.eqb left' right' :: operands)).
Proof.
  split; [|split; [|split; [|split]]].
  - intros e. apply EvaluatorFacts.eval_postfix_of.
  - reflexivity.
  - intros. apply EvaluatorFacts.eval_token_var.
  - reflexivity.
  - intros lx props r l operands. split; [|split; [|split]].
    + apply (EvaluatorFacts.eval_token_bin And).
    + apply (EvaluatorFacts.eval_token_bin Or).
    + apply (EvaluatorFacts.eval_token_bin Implies).
    + apply (EvaluatorFacts.eval_token_bin Iff).
Qed.

(** On a well-formed sequence conversion and evaluation never pop an empty
    stack, and exactly one value is left on a stack that was empty: the
    standard value of the expression. *)
Lemma eval_infix_well_formed (k : Z) (ts : list Token) (e : Expr)
      (props : StdMap.t) :
  Parses k ts e ->
  exists props',
    eval_infix ts (props, []) = Some (props', [denote props e]).
Proof.
  intros HP. unfold eval_infix.
  rewrite (ConverterFacts.toPostFix_parses k ts e HP).
  destruct (EvaluatorFacts.eval_postfix_of e props []) as [props' [H _]].
  exists props'. exact H.
Qed.

(** C5: accepted sequences underflow the operand stack or leave it with
    another number of values than one. "p ^" is accepted and its post-fix
    form pops an empty stack; "p ^ (" is accepted without any read out of
    range and does the same; "(p)(q)" is accepted and leaves two values;
    "()" is accepted and leaves none. *)
Theorem accepted_sequences_break_the_operand_stack (oob : Z -> Token) :
  (fst (validateTokenString oob (tokens_of "p ^")) = true
   /\ eval_infix (tokens_of "p ^") ([("p", tok_var "p")], []) = None)
  /\ (validateTokenString oob (tokens_of "p ^ (")
      = (true, [0; 1; 1; 1; 2; 2; 2; 2]%Z)
      /\ eval_infix (tokens_of "p ^ (") ([("p", tok_var "p")], []) = None)
  /\ (fst (validateTokenString oob (tokens_of "(p)(q)")) = true
      /\ reads_in_range (tokens_of "(p)(q)")
           (snd (validateTokenString oob (tokens_of "(p)(q)"))) = true
      /\ eval_infix (tokens_of "(p)(q)")
                    ([("p", tok_var "p"); ("q", tok_var "q")], [])
         = Some ([("p", tok_var "p"); ("q", tok_var "q")], [false; false]))
  /\ (validateTokenString oob (tokens_of "()") = (true, [0; 1]%Z)
      /\ eval_infix (tokens_of "()") ([], []) = Some ([], [])).
Proof.
  repeat split; oracle_cases oob.
Qed.

(** ** Conversion followed by evaluation *)





(** Operators of one level nest to the right: without parentheses a chain
    of implications is read as p -> (q -> r), which differs from
    (p -> q) -> r when all three variables are false. *)
Remark implication_chain_nests_to_the_right :
  toPostFix (infix_bare (Bin Implies "->" (Bin Implies "->" (Var "p") (Var "q"))
                             (Var "r")))
  = Some (postfix_of (Bin Implies "->" (Var "p")
                          (Bin Implies "->" (Var "q") (Var "r"))))
  /\ denote [] (Bin Implies "->" (Bin Implies "->" (Var "p") (Var "q"))
                    (Var "r")) = false
  /\ denote [] (Bin Implies "->" (Var "p")
                    (Bin Implies "->" (Var "q") (Var "r"))) = true.
Proof. repeat split. Qed.

(** ** The table of a well-formed expression *)

Module TableFacts.

Lemma bit_of_shift (i j : Z) :
  (0 <= j)%Z -> (1 =? Z.land (Z.shiftr i j) 1)%Z = Z.testbit i j.
Proof.
  intros Hj. rewrite Z.eqb_sym.
  change 1%Z with (Z.ones 1) at 1. rewrite Z.land_ones by lia.
  change (2 ^ 1)%Z with 2%Z. rewrite <- Z.bit0_eqb.
  rewrite Z.shiftr_spec by lia. reflexivity.
Qed.

(** The binding loop succeeds when its shifts are by less than 32 and
    yields the registry [assign] describes. *)
Lemma bind_row_assign (i : Z) (props : StdMap.t) :
  forall j,
    (Z.of_nat (List.length props) - 1 <= j < 32)%Z ->
    bind_row i j props
    = Some (assign i j props,
            map (fun kx => Token.value (snd kx)) (assign i j props)).
Proof.
  induction props as [|[k x] rest IH]; intros j Hj; cbn [bind_row assign].
  - reflexivity.
  - cbn [List.length] in Hj. unfold shr_int.
    replace ((0 <=? j)%Z && (j <? 32)%Z) with true
      by (symmetry; apply andb_true_iff; split;
          [apply Z.leb_le|apply Z.ltb_lt]; lia).
    rewrite bit_of_shift by lia.
    rewrite IH by lia. reflexivity.
Qed.

Lemma assign_keys (i : Z) (props : StdMap.t) :
  forall j, StdMap.keys (assign i j props) = StdMap.keys props.
Proof.
  induction props as [|[k x] rest IH]; intros j; cbn; [reflexivity|].
  unfold StdMap.keys in IH. rewrite IH. reflexivity.
Qed.

Lemma assign_size (i j : Z) (props : StdMap.t) :
  StdMap.size (assign i j props) = StdMap.size props.
Proof.
  unfold StdMap.size. rewrite <- (length_map fst (assign i j props)).
  change (map fst (assign i j props)) with (StdMap.keys (assign i j props)).
  rewrite assign_keys. apply length_map.
Qed.

Lemma setValue_setValue (v v' : bool) (x : Token) :
  Token.setValue v' (Token.setValue v x) = Token.setValue v' x.
Proof.
  unfold Token.setValue.
  destruct (Token.Type_eqb (Token._type x) Token.PROPOSITION) eqn:E; cbn.
  - rewrite E. reflexivity.
  - rewrite E. reflexivity.
Qed.

(** Binding a row forgets the values of the row before. *)
Lemma assign_assign (i i' : Z) (props : StdMap.t) :
  forall j j', assign i' j' (assign i j props) = assign i' j' props.
Proof.
  induction props as [|[k x] rest IH]; intros j j'; cbn; [reflexivity|].
  rewrite setValue_setValue, IH. reflexivity.
Qed.

Lemma find_in_keys (k : string) (props : StdMap.t) :
  In k (StdMap.keys props) <-> StdMap.find k props <> None.
Proof.
  induction props as [|[k0 x] rest IH]; cbn.
  - split; [intros []|congruence].
  - destruct (String.eqb_spec k k0) as [->|Hne].
    + split; [discriminate|auto].
    + rewrite <- IH. split; [intros [Heq|Hin]; [congruence|exact Hin]|auto].
  Qed.

(** Evaluation leaves the registry alone when every variable is
    registered. *)
Lemma eval_postfix_of_registered (e : Expr) :
  forall (props : StdMap.t) (operands : list bool),
    (forall lx, In lx (vars e) -> StdMap.find lx props <> None) ->
    eval_postfix (postfix_of e) (props, operands)
    = Some (props, denote props e :: operands).
Proof.
  induction e as [b lx|lx|lx e1 IH|o lx l IHl r IHr];
    intros props operands Hreg.
  - reflexivity.
  - cbn [postfix_of eval_postfix].
    rewrite EvaluatorFacts.eval_token_var.
    rewrite EvaluatorFacts.index_registered; [reflexivity|].
    apply Hreg. left. reflexivity.
  - cbn [postfix_of]. rewrite EvaluatorFacts.eval_postfix_app.
    rewrite IH by exact Hreg. reflexivity.
  - cbn [postfix_of]. rewrite EvaluatorFacts.eval_postfix_app.
    rewrite IHl by (intros lx' Hin; apply Hreg; cbn; apply in_or_app; auto).
    rewrite EvaluatorFacts.eval_postfix_app.
    rewrite IHr by (intros lx' Hin; apply Hreg; cbn; apply in_or_app; auto).
    cbn [eval_postfix]. rewrite EvaluatorFacts.eval_token_bin. reflexivity.
Qed.

Lemma shl_one_small (n : Z) :
  (0 <= n <= 30)%Z -> shl_one n = Some (2 ^ n)%Z.
Proof.
  intros Hn. unfold shl_one.
  replace ((0 <=? n)%Z && (n <? 32)%Z) with true
    by (symmetry; apply andb_true_iff; split;
        [apply Z.leb_le|apply Z.ltb_lt]; lia).
  rewrite Z.shiftl_1_l. unfold wrap_int.
  assert (0 < 2 ^ n <= 2 ^ 30)%Z
    by (split; [apply Z.pow_pos_nonneg|apply Z.pow_le_mono_r]; lia).
  rewrite Z.mod_small by lia. f_equal. lia.
Qed.

Lemma counters_from (i : Z) (n : nat) :
  map (fun m => (i + Z.of_nat m)%Z) (seq 0 (S n))
  = i :: map (fun m => (i + 1 + Z.of_nat m)%Z) (seq 0 n).
Proof.
  cbn [seq map]. rewrite Z.add_0_r. f_equal.
  rewrite <- seq_shift, map_map. apply map_ext. intros m. lia.
Qed.

Section Rows.

Variable ts : list Token.
Variable e : Expr.
Variable props : StdMap.t.

Hypothesis Hconv : toPostFix ts = Some (postfix_of e).
Hypothesis Hreg : forall lx, In lx (vars e) -> StdMap.find lx props <> None.
Hypothesis Hsize : (StdMap.size props <= 30)%nat.

Lemma registered_assign (i j : Z) :
  forall lx, In lx (vars e) -> StdMap.find lx (assign i j props) <> None.
Proof.
  intros lx Hin. apply find_in_keys. rewrite assign_keys.
  apply find_in_keys. apply Hreg. exact Hin.
Qed.

(** One row: the variables are bound, the expression is evaluated, and the
    operand stack is empty again. *)
Lemma table_row_well_formed (i : Z) (props' : StdMap.t) :
  StdMap.size props' = StdMap.size props ->
  (forall i' j', assign i' j' props' = assign i' j' props) ->
  table_row ts i (props', [])
  = Some (row_of props e i,
          (assign i (Z.of_nat (StdMap.size props) - 1) props, [])).
Proof.
  intros Hs Hsim. unfold table_row.
  rewrite bind_row_assign by (unfold StdMap.size in *; lia).
  rewrite Hs, Hsim. unfold eval_infix. rewrite Hconv.
  rewrite eval_postfix_of_registered by apply registered_assign.
  reflexivity.
Qed.

(** The loop prints the rows of the counters [i .. 2^N - 1]. *)
Lemma table_loop_well_formed (n : nat) :
  forall fuel i props',
    (n < fuel)%nat ->
    (0 <= i)%Z ->
    (i + Z.of_nat n = 2 ^ Z.of_nat (StdMap.size props))%Z ->
    StdMap.size props' = StdMap.size props ->
    (forall i' j', assign i' j' props' = assign i' j' props) ->
    table_loop fuel ts i (props', [])
    = Printed (map (row_of props e)
                   (map (fun m => (i + Z.of_nat m)%Z) (seq 0 n))).
Proof.
  induction n as [|n IH]; intros fuel i props' Hfuel Hi Hn Hs Hsim;
    (destruct fuel as [|fuel]; [lia|]); cbn [table_loop fst].
  - rewrite Hs, shl_one_small by lia.
    replace (i <? 2 ^ Z.of_nat (StdMap.size props))%Z with false
      by (symmetry; apply Z.ltb_ge; lia).
    reflexivity.
  - rewrite Hs, shl_one_small by lia.
    replace (i <? 2 ^ Z.of_nat (StdMap.size props))%Z with true
      by (symmetry; apply Z.ltb_lt; lia).
    rewrite (table_row_well_formed i props' Hs Hsim).
    rewrite (IH fuel (i + 1)%Z).
    + rewrite counters_from. reflexivity.
    + lia.
    + lia.
    + lia.
    + apply assign_size.
    + intros i' j'. apply assign_assign.
Qed.

End Rows.

(** The variables of the reading of a well-formed sequence occur in it. *)
Lemma parses_vars (k : Z) (ts : list Token) (e : Expr) :
  Parses k ts e -> forall lx, In lx (vars e) -> In (tok_var lx) ts.
Proof.
  induction 1 as [k b lx Hk|k lx Hk|k ts e Hk HP IH|k lx ts e Hk HP IH
                 |k o lx tl tr l r Hk HPl IHl HPr IHr]; intros x Hin;
    cbn [vars] in Hin.
  - destruct Hin.
  - destruct Hin as [->|[]]. left. reflexivity.
  - right. apply in_or_app. left. apply IH. exact Hin.
  - right. apply IH. exact Hin.
  - apply in_app_or in Hin. apply in_or_app. destruct Hin as [Hin|Hin].
    + left. apply IHl. exact Hin.
    + right. right. apply IHr. exact Hin.
Qed.

(** The values a row lists are the bits of the row counter, negated, when
    every entry of the registry is a variable token. *)
Lemma assign_values (i : Z) (props : StdMap.t) :
  (forall k x, In (k, x) props -> Token.type x = Token.PROPOSITION) ->
  forall j,
    map (fun kx => Token.value (snd kx)) (assign i j props)
    = map (fun p => negb (Z.testbit i (j - Z.of_nat p)))
          (seq 0 (List.length props)).
Proof.
  induction props as [|[k x] rest IH]; intros Hty j; [reflexivity|].
  cbn [assign map List.length seq snd].
  rewrite <- seq_shift, map_map. f_equal.
  - rewrite Z.sub_0_r. unfold Token.setValue.
    rewrite (Hty k x (or_introl eq_refl)) || (
      replace (Token._type x) with Token.PROPOSITION
        by (symmetry; apply (Hty k x); left; reflexivity)).
    reflexivity.
  - rewrite IH by (intros k' x' Hin; apply (Hty k' x'); right; exact Hin).
    apply map_ext. intros p. f_equal. f_equal. lia.
Qed.

Lemma eval_postfix_keeps_registry (postfix : list Token) :
  forall props operands props' operands',
    registered postfix props ->
    eval_postfix postfix (props, operands) = Some (props', operands') ->
    props' = props.
Proof.
  induction postfix as [|tk rest IH]; intros props operands props' operands'
    Hreg; cbn [eval_postfix].
  - intros H. inversion H. reflexivity.
  - destruct (eval_token tk (props, operands)) as [[p1 o1]|] eqn:E;
      [|discriminate].
    assert (Hp1 : p1 = props).
    { unfold eval_token in E. destruct (Token.type tk) eqn:Ety;
        try (inversion E; reflexivity);
        try (unfold push_result in E;
             match type of E with
             | match ?r with _ => _ end = _ => destruct r as [[? ?]|]
             end; inversion E; reflexivity).
      pose proof (EvaluatorFacts.index_registered (Token.lexeme tk) props)
        as Hi.
      destruct (StdMap.index (Token.lexeme tk) props) as [x p2].
      inversion E; subst. cbn in Hi. apply Hi.
      apply find_in_keys. apply Hreg; [left; reflexivity|exact Ety]. }
    subst p1. intros H.
    apply (IH _ _ _ _ (fun t Ht => Hreg t (or_intror Ht)) H).
Qed.

(** Every printed row lists the values of the registry entries in the order
    of the keys. *)
Lemma table_loop_rows (tokens : list Token) (fuel : nat) :
  forall i props operands rows,
    registered tokens props ->
    table_loop fuel tokens i (props, operands) = Printed rows ->
    Forall (fun r : Row =>
              exists props_i,
                StdMap.keys props_i = StdMap.keys props
                /\ fst r = map (fun kx => Token.value (snd kx)) props_i)
           rows.
Proof.
  induction fuel as [|fuel IH]; intros i props operands rows Hreg;
    cbn [table_loop fst]; [discriminate|].
  destruct (shl_one (Z.of_nat (StdMap.size props))) as [bound|];
    [|discriminate].
  destruct (i <? bound)%Z; [|intros H; inversion H; constructor].
  destruct (table_row tokens i (props, operands)) as [[row [p2 o2]]|] eqn:Erow;
    [|discriminate].
  destruct (table_loop fuel tokens (i + 1) (p2, o2)) as [rows'| |] eqn:Eloop;
    try discriminate.
  intros H. inversion H; subst. clear H.
  unfold table_row in Erow.
  destruct (bind_row i (Z.of_nat (StdMap.size props) - 1) props)
    as [[p1 cells]|] eqn:Ebind; [|discriminate].
  destruct (HeaderFacts.bind_row_cells _ _ _ _ _ Ebind) as [Hkeys Hcells].
  destruct (eval_infix tokens (p1, operands)) as [[p2' o2']|] eqn:Eeval;
    [|discriminate].
  destruct o2' as [|top rest]; [discriminate|]. inversion Erow; subst.
  unfold eval_infix in Eeval.
  destruct (toPostFix tokens) as [postfix|] eqn:Epf; [|discriminate].
  assert (Hp2 : p2 = p1).
  { apply (eval_postfix_keeps_registry postfix p1 operands p2 (top :: o2));
      [|exact Eeval].
    intros tk Hin Hty. rewrite Hkeys. apply Hreg; [|exact Hty].
    apply (MultisetFacts.toPostFix_subset tokens postfix Epf). exact Hin. }
  subst p2. constructor.
  - exists p1. split; [exact Hkeys|reflexivity].
  - assert (Hreg1 : registered tokens p1)
      by (intros tk Hin Hty; rewrite Hkeys; apply Hreg; assumption).
    pose proof (IH _ _ _ _ Hreg1 Eloop) as Hrest.
    eapply Forall_impl; [|exact Hrest].
    intros r [props_i [Hk Hr]]. exists props_i. split; [|exact Hr].
    rewrite Hk. exact Hkeys.
Qed.

End TableFacts.

(** ** The whole pipeline on a well-formed expression *)

(** For an expression whose tokens are well-formed and which has at most 30
    distinct variables, [evaluate] accepts the expression and, given fuel for
    more than 2^N iterations, prints the header and exactly the 2^N rows of
    the row counters 0 .. 2^N - 1; row [i] lists for the variable at
    position [p] the value not (bit [N - 1 - p] of [i]), followed by the
    standard value of the expression under these bindings. *)
Theorem table_of_well_formed_expression
        (oob : Z -> Token) (fuel : nat) (expression : string) (e : Expr) :
  let props := Lexer.getPropositionTokens (Lexer.new expression) in
  let N := List.length (header_of expression) in
  Parses 4 (tokens_of expression) e ->
  (N <= 30)%nat ->
  (2 ^ N < fuel)%nat ->
  evaluate oob fuel expression
  = Table (header_of expression)
          (Printed (map (row_of props e) (counters (2 ^ N))))
  /\ List.length (counters (2 ^ N)) = (2 ^ N)%nat
  /\ forall i, fst (row_of props e i) = bindings N i.
Proof.
  intros props N HP HN Hfuel.
  destruct (HeaderFacts.new_inv expression) as (Hsorted & Hnames & Hentries).
  assert (HsizeN : StdMap.size props = N).
  { unfold N, header_of, StdMap.keys, StdMap.size. rewrite length_map.
    reflexivity. }
  split; [|split].
  - unfold evaluate.
    destruct (String.eqb_spec expression "") as [->|_].
    { destruct (GrammarFacts.parses_first _ _ _ HP) as (t & rest & Heq & _).
      discriminate Heq. }
    fold (tokens_of expression).
    rewrite (GrammarFacts.validate_parses oob 4 _ e HP). cbn [negb].
    fold props. fold (header_of expression). f_equal.
    rewrite (TableFacts.table_loop_well_formed
               (tokens_of expression) e props
               (ConverterFacts.toPostFix_parses 4 _ e HP))
      with (n := (2 ^ N)%nat).
    + unfold counters. reflexivity.
    + intros lx Hin. apply TableFacts.find_in_keys. apply Hnames.
      exists (tok_var lx). split; [|split; reflexivity].
      apply (TableFacts.parses_vars 4 _ e HP). exact Hin.
    + lia.
    + exact Hfuel.
    + lia.
    + rewrite HsizeN, Nat2Z.inj_pow. reflexivity.
    + reflexivity.
    + reflexivity.
  - unfold counters. rewrite length_map, length_seq. reflexivity.
  - intros i. unfold row_of. cbn [fst].
    rewrite TableFacts.assign_values.
    + unfold bindings. fold (StdMap.size props). rewrite HsizeN. reflexivity.
    + intros k x Hin. rewrite (Hentries k x Hin). reflexivity.
Qed.

Lemma table_of_well_formed_expression_witness :
  evaluate (fun _ => tok_rparen) 5 "p ^ q"
  = Table ["p"; "q"]
          (Printed [([true; true], true); ([true; false], false);
                    ([false; true], false); ([false; false], false)]).
Proof.
  destruct (table_of_well_formed_expression
              (fun _ => tok_rparen) 5 "p ^ q"
              (Bin And "^" (Var "p") (Var "q"))) as [H _].
  - apply (P_bin 4 And "^" [tok_var "p"] [tok_var "q"]).
    + cbn. lia.
    + apply P_var. cbn. lia.
    + apply P_var. cbn. lia.
  - cbn. lia.
  - cbn. lia.
  - exact H.
Defined.

(** ** The columns of the table *)

(** ** The rows of any printed table *)

Module TableShape.

Lemma setValue_type (v : bool) (x : Token) :
  Token.type (Token.setValue v x) = Token.type x.
Proof.
  unfold Token.setValue, Token.type.
  destruct (Token.Type_eqb (Token._type x) Token.PROPOSITION); reflexivity.
Qed.

Lemma assign_types (i : Z) (props : StdMap.t) :
  (forall k x, In (k, x) props -> Token.type x = Token.PROPOSITION) ->
  forall j k x,
    In (k, x) (assign i j props) -> Token.type x = Token.PROPOSITION.
Proof.
  induction props as [|[k0 x0] rest IH]; intros Hty j k x; cbn [assign].
  - intros [].
  - intros [Heq|Hin].
    + inversion Heq; subst. rewrite setValue_type.
      apply (Hty k). left. reflexivity.
    + apply (IH (fun k' x' H => Hty k' x' (or_intror H)) _ _ _ Hin).
Qed.

(** The cells of the rows of a table that is printed to its end: the loop
    from the counter [i] on prints the bindings of the counters
    [i .. 2 ^ N - 1]. *)
Lemma table_loop_cells (tokens : list Token) (fuel : nat) :
  forall n i props operands rows,
    registered tokens props ->
    (forall k x, In (k, x) props -> Token.type x = Token.PROPOSITION) ->
    (StdMap.size props <= 30)%nat ->
    (0 <= i)%Z ->
    (i + Z.of_nat n = 2 ^ Z.of_nat (StdMap.size props))%Z ->
    table_loop fuel tokens i (props, operands) = Printed rows ->
    map fst rows
    = map (bindings (StdMap.size props))
          (map (fun m => (i + Z.of_nat m)%Z) (seq 0 n)).
Proof.
  induction fuel as [|fuel IH];
    intros n i props operands rows Hreg Hty Hsize Hi Hn;
    cbn [table_loop fst]; [discriminate|].
  rewrite TableFacts.shl_one_small by lia.
  destruct (i <? 2 ^ Z.of_nat (StdMap.size props))%Z eqn:Elt.
  - apply Z.ltb_lt in Elt.
    destruct n as [|n]; [lia|].
    destruct (table_row tokens i (props, operands))
      as [[row [p2 o2]]|] eqn:Erow; [|discriminate].
    destruct (table_loop fuel tokens (i + 1) (p2, o2)) as [rows'| |]
      eqn:Eloop; try discriminate.
    intros H. inversion H; subst. clear H.
    unfold table_row in Erow.
    rewrite TableFacts.bind_row_assign in Erow
      by (unfold StdMap.size in *; lia).
    set (p1 := assign i (Z.of_nat (StdMap.size props) - 1) props) in *.
    destruct (eval_infix tokens (p1, operands)) as [[p2' o2']|] eqn:Eeval;
      [|discriminate].
    destruct o2' as [|top rest]; [discriminate|]. inversion Erow; subst.
    unfold eval_infix in Eeval.
    destruct (toPostFix tokens) as [postfix|] eqn:Epf; [|discriminate].
    assert (Hkeys : StdMap.keys p1 = StdMap.keys props)
      by apply TableFacts.assign_keys.
    assert (Hp2 : p2 = p1).
    { apply (TableFacts.eval_postfix_keeps_registry
               postfix p1 operands p2 (top :: o2)); [|exact Eeval].
      intros tk Hin Hk. rewrite Hkeys. apply Hreg; [|exact Hk].
      apply (MultisetFacts.toPostFix_subset tokens postfix Epf). exact Hin. }
    subst p2.
    assert (Hs1 : StdMap.size p1 = StdMap.size props)
      by apply TableFacts.assign_size.
    rewrite TableFacts.counters_from. cbn [map fst]. f_equal.
    + unfold p1. rewrite (TableFacts.assign_values i props Hty).
      unfold bindings, StdMap.size. reflexivity.
    + rewrite <- Hs1.
      apply (IH n (i + 1)%Z p1 o2 rows').
      * intros tk Hin Hk. rewrite Hkeys. apply Hreg; assumption.
      * apply assign_types. exact Hty.
      * lia.
      * lia.
      * rewrite Hs1. lia.
      * exact Eloop.
  - apply Z.ltb_ge in Elt. intros H. inversion H; subst.
    destruct n as [|n]; [reflexivity|lia].
Qed.

(** The tokens the scanner produces are registered in the registry it
    builds, whose entries are variable tokens. *)
Lemma scanned_registered (expression : string) :
  registered (tokens_of expression)
             (Lexer.getPropositionTokens (Lexer.new expression))
  /\ forall k x,
      In (k, x) (Lexer.getPropositionTokens (Lexer.new expression)) ->
      Token.type x = Token.PROPOSITION.
Proof.
  destruct (HeaderFacts.new_inv expression) as (_ & Hnames & Hentries).
  split.
  - intros tk Hin Hk. apply Hnames. exists tk. repeat split; assumption.
  - intros k x Hin. rewrite (Hentries k x Hin). reflexivity.
Qed.

(** A sequence of parentheses alone leaves the operand stack empty, if it
    converts at all. *)
Lemma eval_postfix_parens (postfix : list Token) (st : EvalState) :
  Forall (fun tk => is_paren tk = true) postfix ->
  eval_postfix postfix st = Some st.
Proof.
  induction postfix as [|tk rest IH]; intros Hall; cbn [eval_postfix];
    [reflexivity|].
  inversion Hall as [|? ? Htk Hrest]; subst.
  assert (E : eval_token tk st = Some st).
  { unfold eval_token. destruct st as [props operands].
    unfold is_paren in Htk.
    destruct (Token.type tk); try discriminate Htk; reflexivity. }
  rewrite E. apply IH. exact Hrest.
Qed.

(** [1 << size] is defined for fewer than 32 variables, and positive for
    at most 30. *)
Lemma shl_one_defined (n : nat) (b : Z) :
  shl_one (Z.of_nat n) = Some b -> (n < 32)%nat.
Proof.
  unfold shl_one.
  destruct ((0 <=? Z.of_nat n) && (Z.of_nat n <? 32))%Z eqn:E;
    [|discriminate].
  apply andb_true_iff in E. destruct E as [_ E]. apply Z.ltb_lt in E.
  intros _. lia.
Qed.

(** The cell of a column is the value bound to the variable of the
    column. *)
Lemma values_in_key_order (props : StdMap.t) :
  NoDup (StdMap.keys props) ->
  map (fun kx => Token.value (snd kx)) props
  = map (bound props) (StdMap.keys props).
Proof.
  induction props as [|[k x] rest IH]; intros Hnd; [reflexivity|].
  cbn [StdMap.keys map fst snd] in *.
  inversion Hnd as [|? ? Hnotin Hnd']; subst.
  f_equal.
  - unfold bound. cbn [StdMap.find]. rewrite String.eqb_refl. reflexivity.
  - fold (StdMap.keys rest). rewrite (IH Hnd'). apply map_ext_in.
    intros k' Hin. unfold bound. cbn [StdMap.find].
    destruct (String.eqb_spec k' k) as [->|_]; [contradiction|reflexivity].
Qed.

(** Row [m] of the rows the loop prints from the counter [i] on: its cells
    are the values of the registry as bound for the counter [i + m], and its
    result is what the evaluation under that registry leaves on top of the
    operand stack. *)
Lemma table_loop_bound_rows (tokens : list Token) (fuel : nat) :
  forall i props operands rows,
    registered tokens props ->
    table_loop fuel tokens i (props, operands) = Printed rows ->
    forall (m : nat) (row : Row),
      nth_error rows m = Some row ->
      fst row
      = map (fun kx => Token.value (snd kx))
            (assign (i + Z.of_nat m) (Z.of_nat (StdMap.size props) - 1)
                    props)
      /\ exists operands_m operands',
          eval_infix tokens
                     (assign (i + Z.of_nat m)
                             (Z.of_nat (StdMap.size props) - 1) props,
                      operands_m)
          = Some (assign (i + Z.of_nat m)
                         (Z.of_nat (StdMap.size props) - 1) props,
                  snd row :: operands').
Proof.
  induction fuel as [|fuel IH]; intros i props operands rows Hreg;
    cbn [table_loop fst]; [discriminate|].
  destruct (shl_one (Z.of_nat (StdMap.size props))) as [b|] eqn:Eshl;
    [|discriminate].
  pose proof (shl_one_defined _ _ Eshl) as Hsize.
  destruct (i <? b)%Z;
    [|intros H m row Hm; inversion H; subst; destruct m; discriminate Hm].
  destruct (table_row tokens i (props, operands))
    as [[row0 [p2 o2]]|] eqn:Erow; [|discriminate].
  destruct (table_loop fuel tokens (i + 1) (p2, o2)) as [rows'| |]
    eqn:Eloop; try discriminate.
  intros H. inversion H; subst. clear H.
  unfold table_row in Erow.
  rewrite TableFacts.bind_row_assign in Erow
    by (unfold StdMap.size in *; lia).
  set (p1 := assign i (Z.of_nat (StdMap.size props) - 1) props) in *.
  destruct (eval_infix tokens (p1, operands)) as [[p2' o2']|] eqn:Eeval;
    [|discriminate].
  destruct o2' as [|top rest]; [discriminate|]. inversion Erow; subst.
  assert (Hkeys : StdMap.keys p1 = StdMap.keys props)
    by apply TableFacts.assign_keys.
  assert (Hp2 : p2 = p1).
  { unfold eval_infix in Eeval.
    destruct (toPostFix tokens) as [postfix|] eqn:Epf; [|discriminate].
    apply (TableFacts.eval_postfix_keeps_registry
             postfix p1 operands p2 (top :: o2)); [|exact Eeval].
    intros tk Hin Hk. rewrite Hkeys. apply Hreg; [|exact Hk].
    apply (MultisetFacts.toPostFix_subset tokens postfix Epf). exact Hin. }
  subst p2.
  assert (Hs1 : StdMap.size p1 = StdMap.size props)
    by apply TableFacts.assign_size.
  intros m row Hm. destruct m as [|m].
  - cbn [nth_error] in Hm. inversion Hm; subst. clear Hm.
    replace (i + Z.of_nat 0)%Z with i by lia. fold p1. cbn [fst snd].
    split; [reflexivity|]. exists operands, o2. exact Eeval.
  - cbn [nth_error] in Hm.
    assert (Hreg1 : registered tokens p1)
      by (intros tk Hin Hk; rewrite Hkeys; apply Hreg; assumption).
    pose proof (IH (i + 1)%Z p1 o2 rows' Hreg1 Eloop m row Hm) as Hrow.
    rewrite Hs1 in Hrow. unfold p1 in Hrow.
    rewrite TableFacts.assign_assign in Hrow.
    replace (i + Z.of_nat (S m))%Z with (i + 1 + Z.of_nat m)%Z by lia.
    exact Hrow.
Qed.

End TableShape.

(** C4 (amended): for every input expression the header lists the distinct
    variable names in ascending order of their characters (the key order of
    the registry), which is a rearrangement of their first-occurrence order,
    and every printed row lists the bound values in that same order: in row
    [n] the registry is bound for the row counter [n], the cell in the
    column of a variable is the value this registry gives the variable,
    which is the complement of the bit of [n] at the place of the column,
    and the result of the row is evaluated under this registry. *)
Theorem header_in_ascending_key_order (expression : string) :
  Sorted StdMap.key_lt (header_of expression)
  /\ Permutation (header_of expression)
                 (first_occurrences [] (tokens_of expression))
  /\ forall oob fuel header rows,
      evaluate oob fuel expression = Table header (Printed rows) ->
      header = header_of expression
      /\ forall (n : nat) (row : Row),
          nth_error rows n = Some row ->
          let props_n :=
            assign (Z.of_nat n) (Z.of_nat (List.length header) - 1)
                   (Lexer.getPropositionTokens (Lexer.new expression)) in
          StdMap.keys props_n = header
          /\ fst row = map (bound props_n) header
          /\ fst row = bindings (List.length header) (Z.of_nat n)
          /\ exists operands operands',
              eval_infix (tokens_of expression) (props_n, operands)
              = Some (props_n, snd row :: operands').
Proof.
  destruct (HeaderFacts.new_inv expression) as (Hs & Hk & _).
  split; [exact Hs|]. split.
  - apply NoDup_Permutation.
    + apply HeaderFacts.sorted_keys_nodup. exact Hs.
    + apply HeaderFacts.first_occurrences_nodup.
    + intros k. unfold header_of, tokens_of, Lexer.getPropositionTokens,
        Lexer.getTokens.
      rewrite Hk, HeaderFacts.first_occurrences_in. simpl. intuition.
  - intros oob fuel header rows. unfold evaluate.
    destruct (String.eqb expression ""); [discriminate|].
    destruct (negb (fst (validateTokenString oob _))); [discriminate|].
    fold (tokens_of expression).
    intros H. inversion H as [[Hh Hloop]]. split; [reflexivity|].
    set (props := Lexer.getPropositionTokens (Lexer.new expression)) in *.
    destruct (TableShape.scanned_registered expression) as [Hreg Hty].
    fold props in Hreg, Hty.
    assert (Hsize : List.length (StdMap.keys props) = StdMap.size props).
    { unfold StdMap.size, StdMap.keys. apply length_map. }
    intros n row Hn. rewrite Hsize.
    destruct (TableShape.table_loop_bound_rows
                (tokens_of expression) fuel 0 props [] rows Hreg Hloop
                n row Hn) as [Hcells Heval].
    cbn [Z.add] in Hcells, Heval. cbn zeta.
    set (props_n := assign (Z.of_nat n) (Z.of_nat (StdMap.size props) - 1)
                           props) in *.
    assert (Hkeys : StdMap.keys props_n = StdMap.keys props)
      by apply TableFacts.assign_keys.
    split; [exact Hkeys|]. split; [|split; [|exact Heval]].
    + rewrite Hcells, <- Hkeys. apply TableShape.values_in_key_order.
      rewrite Hkeys. apply HeaderFacts.sorted_keys_nodup. exact Hs.
    + rewrite Hcells. unfold props_n.
      rewrite (TableFacts.assign_values _ props Hty).
      unfold bindings, StdMap.size. reflexivity.
Qed.

Lemma header_in_ascending_key_order_witness :
  Sorted StdMap.key_lt (header_of "q ^ p")
  /\ Permutation (header_of "q ^ p") (first_occurrences [] (tokens_of "q ^ p"))
  /\ ["p"; "q"] = header_of "q ^ p"
  /\ [true; false]
     = map (bound (assign 1 1 (Lexer.getPropositionTokens
                                 (Lexer.new "q ^ p"))))
           ["p"; "q"]
  /\ [true; false] = bindings 2 1.
Proof.
  destruct (header_in_ascending_key_order "q ^ p") as (Hs & Hp & Hrows).
  split; [exact Hs|]. split; [exact Hp|].
  destruct (Hrows (fun _ => tok_rparen) 5 ["p"; "q"]
                  [([true; true], true); ([true; false], false);
                   ([false; true], false); ([false; false], false)]
                  eq_refl) as [Hh Hrow].
  split; [exact Hh|].
  destruct (Hrow 1%nat ([true; false], false) eq_refl)
    as (_ & Hcells & Hbits & _).
  split; [exact Hcells|exact Hbits].
Defined.

(** The header of "q ^ p" lists p before q, whereas q occurs first in the
    text. *)
Lemma header_not_in_first_occurrence_order :
  header_of "q ^ p" = ["p"; "q"]
  /\ first_occurrences [] (tokens_of "q ^ p") = ["q"; "p"]
  /\ header_of "q ^ p" <> first_occurrences [] (tokens_of "q ^ p").
Proof.
  split; [reflexivity|]. split; [reflexivity|]. discriminate.
Qed.

(** ** The bound of the evaluation loop *)

(** C2: an expression with 31 distinct variables is a well-formed
    conjunction and is accepted, but [1 << 31] does not fit an [int]: the
    bound of the evaluation loop is -2^31 and no row is printed instead of
    2^31 rows. With 32 variables the shift itself is undefined. *)
Theorem thirty_one_variables_print_no_row (oob : Z -> Token) (fuel : nat) :
  List.length (header_of expression_31) = 31
  /\ Parses 4 (tokens_of expression_31) (conjunction_of names_30 "G")
  /\ shl_one 31 = Some (- 2 ^ 31)%Z
  /\ evaluate oob (S fuel) expression_31
     = Table (header_of expression_31) (Printed [])
  /\ List.length (header_of expression_32) = 32
  /\ evaluate oob (S fuel) expression_32
     = Table (header_of expression_32) Undefined.
Proof.
  split; [reflexivity|]. split; [|split; [reflexivity|split; [|split]]].
  - change (tokens_of expression_31)
      with (infix_bare (conjunction_of names_30 "G")).
    apply ConverterFacts.parses_infix_bare; [reflexivity|]. cbn. lia.
  - oracle_cases oob.
  - reflexivity.
  - oracle_cases oob.
Qed.

(** * Further properties *)

(** ** The scanner, character by character *)

Module ScanFacts.

Import Lexer.

Lemma drop_step (n : nat) (s : string) :
  drop n s
  = match String.get n s with
    | Some c => String c (drop (S n) s)
    | None => EmptyString
    end.
Proof.
  revert s. induction n as [|n IH]; intros [|c s]; try reflexivity.
  cbn [drop String.get]. rewrite IH. reflexivity.
Qed.

Lemma drop_past_end (n : nat) (s : string) :
  String.length s <= n -> drop n s = EmptyString.
Proof.
  intros H. rewrite drop_step.
  apply ScannerSteps.get_none_iff in H. rewrite H. reflexivity.
Qed.

Lemma is_one_of_1 (c d : ascii) : is_one_of c [d] = true -> c = d.
Proof.
  unfold is_one_of; cbn. rewrite orb_false_r. apply Ascii.eqb_eq.
Qed.

Lemma lexeme_two (l : t) :
  getCurrentLexeme
    (set_current (S (_current_position l))
                 (set_start (_current_position l) l))
  = String (source_at (_source l) (_current_position l))
      (String (source_at (_source l) (S (_current_position l))) EmptyString).
Proof.
  unfold getCurrentLexeme, set_start, set_current.
  cbn [_source _start_position _current_position].
  replace (S (S (_current_position l)) - _current_position l) with 2 by lia.
  reflexivity.
Qed.

Lemma lexeme_three (l : t) :
  getCurrentLexeme
    (set_current (S (S (_current_position l)))
                 (set_start (_current_position l) l))
  = String (source_at (_source l) (_current_position l))
      (String (source_at (_source l) (S (_current_position l)))
         (String (source_at (_source l) (S (S (_current_position l))))
                 EmptyString)).
Proof.
  unfold getCurrentLexeme, set_start, set_current.
  cbn [_source _start_position _current_position].
  replace (S (S (S (_current_position l))) - _current_position l)
    with 3 by lia.
  reflexivity.
Qed.

Lemma source_at_get (s : string) (n : nat) (c : ascii) :
  String.get n s = Some c -> source_at s n = c.
Proof. unfold source_at. intros ->. reflexivity. Qed.

(** One iteration of the scanning loop unfolds [scan_from] once. *)
Lemma scanToken_unfolds (l : t) (c : ascii) :
  String.get (_current_position l) (_source l) = Some c ->
  let l1 := scanToken (set_start (_current_position l) l) in
  _source l1 = _source l
  /\ _current_position l < _current_position l1
  /\ scan_from (drop (_current_position l1) (_source l1)) (scanned l1)
     = scan_from (drop (_current_position l) (_source l)) (scanned l).
Proof.
  intros Hget l1.
  split; [exact (LexerFacts.scanToken_source
                   (set_start (_current_position l) l))|].
  split;
    [apply (LexerFacts.scanToken_advances
              (set_start (_current_position l) l))|].
  subst l1.
  rewrite (LexerFacts.scanToken_source (set_start (_current_position l) l)).
  cbn [_source set_start].
  rewrite (drop_step (_current_position l)), Hget.
  unfold scanToken. cbn [_source _current_position set_start].
  rewrite (source_at_get _ _ _ Hget). cbn [scan_from].
  destruct (is_one_of c [" "%char]) eqn:E1; [reflexivity|].
  destruct (is_one_of c ["0"%char; "F"%char]) eqn:E2.
  { unfold addToken_value. rewrite LexerFacts.lexeme_at_start.
    rewrite (source_at_get _ _ _ Hget). reflexivity. }
  destruct (is_one_of c ["1"%char; "T"%char]) eqn:E3.
  { unfold addToken_value. rewrite LexerFacts.lexeme_at_start.
    rewrite (source_at_get _ _ _ Hget). reflexivity. }
  destruct (is_one_of c ["("%char]) eqn:E4.
  { unfold addToken_precedence. rewrite LexerFacts.lexeme_at_start.
    rewrite (source_at_get _ _ _ Hget).
    rewrite (is_one_of_1 _ _ E4). reflexivity. }
  destruct (is_one_of c [")"%char]) eqn:E5.
  { unfold addToken_precedence. rewrite LexerFacts.lexeme_at_start.
    rewrite (source_at_get _ _ _ Hget).
    rewrite (is_one_of_1 _ _ E5). reflexivity. }
  destruct (is_one_of c ["^"%char; "*"%char]) eqn:E6.
  { unfold addToken_precedence. rewrite LexerFacts.lexeme_at_start.
    rewrite (source_at_get _ _ _ Hget). reflexivity. }
  destruct (is_one_of c ["v"%char; "+"%char]) eqn:E7.
  { unfold addToken_precedence. rewrite LexerFacts.lexeme_at_start.
    rewrite (source_at_get _ _ _ Hget). reflexivity. }
  destruct (is_one_of c ["!"%char; "~"%char]) eqn:E8.
  { unfold addToken_precedence. rewrite LexerFacts.lexeme_at_start.
    rewrite (source_at_get _ _ _ Hget). reflexivity. }
  destruct (is_one_of c ["-"%char]) eqn:E9.
  { apply is_one_of_1 in E9. subst c.
    pose proof (ScannerSteps.matchNext_true_iff ">"%char
                  (set_start (_current_position l) l)) as Hm.
    pose proof (ScannerSteps.matchNext_state ">"%char
                  (set_start (_current_position l) l)) as Hs.
    destruct (matchNext ">"%char (set_start (_current_position l) l))
      as [m l2]. cbn [fst snd _source _current_position set_start] in Hm, Hs.
    subst l2. rewrite (drop_step (S (_current_position l))).
    destruct (String.get (S (_current_position l)) (_source l))
      as [c2|] eqn:G2.
    - destruct (Ascii.eqb_spec c2 ">"%char) as [->|Hne].
      + replace m with true by (symmetry; apply Hm; reflexivity).
        unfold addToken_precedence. rewrite lexeme_two.
        rewrite (source_at_get _ _ _ Hget), (source_at_get _ _ _ G2).
        reflexivity.
      + replace m with false
          by (destruct m; [|reflexivity];
              exfalso; apply Hne; assert (Some c2 = Some ">"%char) as Hc
                by (apply Hm; reflexivity); inversion Hc; reflexivity).
        reflexivity.
    - replace m with false
        by (destruct m; [|reflexivity];
            assert (None = Some ">"%char) as Hc by (apply Hm; reflexivity);
            discriminate Hc).
      cbn [_source _current_position set_current].
      rewrite drop_past_end; [reflexivity|].
      apply ScannerSteps.get_none_iff in G2. lia. }
  destruct (is_one_of c ["<"%char]) eqn:E10.
  { apply is_one_of_1 in E10. subst c.
    pose proof (ScannerSteps.matchNext_true_iff "-"%char
                  (set_start (_current_position l) l)) as Hm.
    pose proof (ScannerSteps.matchNext_state "-"%char
                  (set_start (_current_position l) l)) as Hs.
    destruct (matchNext "-"%char (set_start (_current_position l) l))
      as [m l2]. cbn [fst snd _source _current_position set_start] in Hm, Hs.
    subst l2. rewrite (drop_step (S (_current_position l))).
    destruct (String.get (S (_current_position l)) (_source l))
      as [c2|] eqn:G2.
    - destruct (Ascii.eqb_spec c2 "-"%char) as [->|Hne].
      + replace m with true by (symmetry; apply Hm; reflexivity).
        pose proof (ScannerSteps.matchNext_true_iff ">"%char
                      (set_current (S (_current_position l))
                         (set_start (_current_position l) l))) as Hm3.
        pose proof (ScannerSteps.matchNext_state ">"%char
                      (set_current (S (_current_position l))
                         (set_start (_current_position l) l))) as Hs3.
        destruct (matchNext ">"%char _) as [m3 l3].
        cbn [fst snd _source _current_position set_start set_current]
          in Hm3, Hs3.
        subst l3. rewrite (drop_step (S (S (_current_position l)))).
        destruct (String.get (S (S (_current_position l))) (_source l))
          as [c3|] eqn:G3.
        * destruct (Ascii.eqb_spec c3 ">"%char) as [->|Hne3].
          -- replace m3 with true by (symmetry; apply Hm3; reflexivity).
             unfold addToken_precedence.
             change (set_current (S (S (_current_position l)))
                       (set_current (S (_current_position l))
                          (set_start (_current_position l) l)))
               with (set_current (S (S (_current_position l)))
                       (set_start (_current_position l) l)).
             rewrite lexeme_three.
             rewrite (source_at_get _ _ _ Hget), (source_at_get _ _ _ G2),
               (source_at_get _ _ _ G3).
             reflexivity.
          -- replace m3 with false
               by (destruct m3; [|reflexivity];
                   exfalso; apply Hne3;
                   assert (Some c3 = Some ">"%char) as Hc
                     by (apply Hm3; reflexivity);
                   inversion Hc; reflexivity).
             reflexivity.
        * replace m3 with false
            by (destruct m3; [|reflexivity];
                assert (None = Some ">"%char) as Hc
                  by (apply Hm3; reflexivity);
                discriminate Hc).
          cbn [_source _current_position set_current].
          rewrite drop_past_end; [reflexivity|].
          apply ScannerSteps.get_none_iff in G3. lia.
      + replace m with false
          by (destruct m; [|reflexivity];
              exfalso; apply Hne; assert (Some c2 = Some "-"%char) as Hc
                by (apply Hm; reflexivity); inversion Hc; reflexivity).
        reflexivity.
    - replace m with false
        by (destruct m; [|reflexivity];
            assert (None = Some "-"%char) as Hc by (apply Hm; reflexivity);
            discriminate Hc).
      cbn [_source _current_position set_current].
      rewrite drop_past_end; [reflexivity|].
      apply ScannerSteps.get_none_iff in G2. lia. }
  change (getCurrentLexeme
            (addToken_type Token.PROPOSITION
               (set_start (_current_position l) l)))
    with (getCurrentLexeme (set_start (_current_position l) l)).
  unfold addToken_type. rewrite LexerFacts.lexeme_at_start.
  rewrite (source_at_get _ _ _ Hget). reflexivity.
Qed.

(** The scanning loop computes [scan_from] of the characters that are
    left. *)
Lemma scanTokens_scan_from (fuel : nat) :
  forall l,
    String.length (_source l) - _current_position l <= fuel ->
    scanned (scanTokens fuel l)
    = scan_from (drop (_current_position l) (_source l)) (scanned l).
Proof.
  induction fuel as [|fuel IH]; intros l Hfuel.
  - cbn [scanTokens]. rewrite drop_past_end by lia. reflexivity.
  - cbn [scanTokens]. destruct (endReached l) eqn:E.
    + unfold endReached in E. apply Nat.leb_le in E.
      rewrite drop_past_end by lia. reflexivity.
    + unfold endReached in E. apply Nat.leb_gt in E.
      destruct (String.get (_current_position l) (_source l)) as [c|] eqn:G;
        [|apply ScannerSteps.get_none_iff in G; lia].
      destruct (scanToken_unfolds l c G) as (Hsrc & Hadv & Hscan).
      rewrite IH by (rewrite Hsrc; lia).
      exact Hscan.
Qed.

(** The tokens and the registry of a source are [scan_from] of the
    source. *)
Lemma new_scan_from (source : string) :
  scanned (Lexer.new source) = scan_from source ([], []).
Proof.
  unfold Lexer.new. rewrite scanTokens_scan_from by (cbn; lia).
  reflexivity.
Qed.

End ScanFacts.

Module Scan1Facts.

Lemma scan_from_step (s : string) (acc : Scanned) :
  scan_from s acc
  = match scan1 s with
    | None => acc
    | Some (o, rest) => scan_from rest (push_scanned o acc)
    end.
Proof.
  destruct s as [|c rest]; [reflexivity|]. cbn [scan_from scan1].
  repeat match goal with
         | |- context [if ?b then _ else _] => destruct b eqn:?
         | |- context [match ?r with EmptyString => _ | String _ _ => _ end] =>
             destruct r
         end; try reflexivity.
Qed.

(** Every step consumes at least one character. *)
Lemma scan1_shorter (s rest : string) (o : option Token) :
  scan1 s = Some (o, rest) -> String.length rest < String.length s.
Proof.
  destruct s as [|c r]; [discriminate|]. cbn [scan1]. intros H.
  inversion H as [H1]. clear H. revert H1.
  repeat match goal with
         | |- context [if ?b then _ else _] => destruct b eqn:?
         | |- context [match ?r with EmptyString => _ | String _ _ => _ end] =>
             destruct r
         end; intros H1; inversion H1; subst; cbn [String.length]; lia.
Qed.

(** Induction over the steps of the scanner. *)
Lemma scan_induction (P : string -> Prop) :
  (forall s, scan1 s = None -> P s) ->
  (forall s o rest, scan1 s = Some (o, rest) -> P rest -> P s) ->
  forall s, P s.
Proof.
  intros Hnone Hstep s.
  assert (H : forall n s, String.length s <= n -> P s).
  { induction n as [|n IH]; intros s' Hlen.
    - apply Hnone. destruct s'; [reflexivity|cbn in Hlen; lia].
    - destruct (scan1 s') as [[o rest]|] eqn:E; [|apply Hnone; exact E].
      apply (Hstep s' o rest E). apply IH.
      pose proof (scan1_shorter _ _ _ E). lia. }
  apply (H (String.length s)). lia.
Qed.

End Scan1Facts.

Module ScanResults.

Import Scan1Facts.

Ltac scan1_cases :=
  repeat match goal with
         | |- context [if ?b then _ else _] => destruct b eqn:?
         | |- context [match ?r with EmptyString => _ | String _ _ => _ end] =>
             destruct r
         end.

Lemma some_inj {A : Type} (a b : A) : Some a = Some b -> a = b.
Proof. intros H. inversion H. reflexivity. Qed.

Lemma register_all_cons (tk : Token) (tokens : list Token) (p : StdMap.t) :
  register_all (tk :: tokens) p
  = register_all tokens (snd (push_scanned (Some tk) ([], p))).
Proof. reflexivity. Qed.

Lemma push_scanned_frame (o : option Token) (t : list Token) (p : StdMap.t) :
  push_scanned o (t, p)
  = (t ++ fst (push_scanned o ([], [])),
     register_all (fst (push_scanned o ([], []))) p).
Proof.
  destruct o as [tk|]; cbn; [reflexivity|]. rewrite app_nil_r. reflexivity.
Qed.

(** The tokens scanned do not depend on what was scanned before, and the
    registry is the one before with the variables scanned registered in
    their order. *)
Lemma scan_from_frame (s : string) :
  forall t p,
    scan_from s (t, p)
    = (t ++ fst (scan_from s ([], [])),
       register_all (fst (scan_from s ([], []))) p).
Proof.
  induction s as [s Hnone|s o rest Hstep IH] using scan_induction;
    intros t p;
    rewrite (scan_from_step s (t, p)), (scan_from_step s ([], [])).
  - rewrite Hnone. cbn. rewrite app_nil_r. reflexivity.
  - rewrite Hstep. destruct o as [tk|]; cbn [push_scanned fst snd app].
    + rewrite (IH (t ++ [tk])), (IH [tk]). cbn [fst snd].
      rewrite <- app_assoc. reflexivity.
    + apply IH.
Qed.

Lemma is_one_of_2 (c a b : ascii) :
  Lexer.is_one_of c [a; b] = true -> c = a \/ c = b.
Proof.
  unfold Lexer.is_one_of; cbn [existsb]. intros H.
  apply orb_true_iff in H. destruct H as [H|H].
  - left. apply Ascii.eqb_eq. exact H.
  - right. apply orb_true_iff in H. destruct H as [H|H]; [|discriminate].
    apply Ascii.eqb_eq. exact H.
Qed.

(** A step emits a token the scanner can produce. *)
Lemma scan1_scannable (s rest : string) (tk : Token) :
  scan1 s = Some (Some tk, rest) -> scannable tk.
Proof.
  destruct s as [|c r]; [discriminate|]. cbn [scan1]. intros H.
  apply some_inj in H. revert H.
  destruct (Lexer.is_one_of c [" "%char]) eqn:E1;
    [intros H; discriminate H|].
  destruct (Lexer.is_one_of c ["0"%char; "F"%char]) eqn:E2.
  { intros H; inversion H; subst. left.
    destruct (is_one_of_2 _ _ _ E2) as [-> | ->]; cbn; auto 20. }
  destruct (Lexer.is_one_of c ["1"%char; "T"%char]) eqn:E3.
  { intros H; inversion H; subst. left.
    destruct (is_one_of_2 _ _ _ E3) as [-> | ->]; cbn; auto 20. }
  destruct (Lexer.is_one_of c ["("%char]) eqn:E4.
  { intros H; inversion H; subst. left. cbn; auto 20. }
  destruct (Lexer.is_one_of c [")"%char]) eqn:E5.
  { intros H; inversion H; subst. left. cbn; auto 20. }
  destruct (Lexer.is_one_of c ["^"%char; "*"%char]) eqn:E6.
  { intros H; inversion H; subst. left.
    destruct (is_one_of_2 _ _ _ E6) as [-> | ->]; cbn; auto 20. }
  destruct (Lexer.is_one_of c ["v"%char; "+"%char]) eqn:E7.
  { intros H; inversion H; subst. left.
    destruct (is_one_of_2 _ _ _ E7) as [-> | ->]; cbn; auto 20. }
  destruct (Lexer.is_one_of c ["!"%char; "~"%char]) eqn:E8.
  { intros H; inversion H; subst. left.
    destruct (is_one_of_2 _ _ _ E8) as [-> | ->]; cbn; auto 20. }
  destruct (Lexer.is_one_of c ["-"%char]) eqn:E9.
  { scan1_cases; intros H; inversion H; subst. left. cbn; auto 20. }
  destruct (Lexer.is_one_of c ["<"%char]) eqn:E10.
  { scan1_cases; intros H; inversion H; subst. left. cbn; auto 20. }
  intros H; inversion H; subst. right. exists c. split; [|reflexivity].
  apply LexerFacts.default_case_not_reserved; assumption.
Qed.

Lemma scan_from_scannable (s : string) :
  Forall scannable (fst (scan_from s ([], []))).
Proof.
  induction s as [s Hnone|s o rest Hstep IH] using scan_induction;
    rewrite scan_from_step.
  - rewrite Hnone. constructor.
  - rewrite Hstep. destruct o as [tk|]; cbn [push_scanned fst snd app];
      [|exact IH].
    rewrite scan_from_frame. cbn [fst].
    constructor; [apply (scan1_scannable _ _ _ Hstep)|exact IH].
Qed.

Lemma scan_from_length (s : string) :
  List.length (fst (scan_from s ([], []))) <= String.length s.
Proof.
  induction s as [s Hnone|s o rest Hstep IH] using scan_induction;
    rewrite scan_from_step.
  - rewrite Hnone. cbn. lia.
  - rewrite Hstep. pose proof (scan1_shorter _ _ _ Hstep).
    destruct o as [tk|]; cbn [push_scanned fst snd app]; [|lia].
    rewrite scan_from_frame. cbn [fst app List.length]. lia.
Qed.

Lemma scan_from_spaces (n : nat) (s : string) (acc : Scanned) :
  scan_from (spaces n ++ s) acc = scan_from s acc.
Proof. induction n as [|n IH]; [reflexivity|]. cbn. exact IH. Qed.

Lemma append_nil_r (s : string) : (s ++ EmptyString)%string = s.
Proof.
  induction s as [|c s IH]; cbn; [reflexivity|]. rewrite IH. reflexivity.
Qed.

Lemma append_assoc (a b c : string) :
  ((a ++ b) ++ c)%string = (a ++ (b ++ c))%string.
Proof.
  induction a as [|x a IH]; cbn; [reflexivity|]. rewrite IH. reflexivity.
Qed.

(** A step on a source followed by spaces is the step on the source; a
    look-ahead that met the end of the source consumes one space. *)
Lemma scan1_trailing_spaces (s rest : string) (o : option Token) (n : nat) :
  scan1 s = Some (o, rest) ->
  exists k,
    k <= n
    /\ scan1 (s ++ spaces n) = Some (o, (rest ++ spaces k)%string).
Proof.
  destruct s as [|c r]; [discriminate|]. cbn [scan1 append]. intros H.
  apply some_inj in H. revert H.
  destruct (Lexer.is_one_of c [" "%char]) eqn:E1;
    [intros H; inversion H; subst; exists n; split; [lia|reflexivity]|].
  destruct (Lexer.is_one_of c ["0"%char; "F"%char]) eqn:E2;
    [intros H; inversion H; subst; exists n; split; [lia|reflexivity]|].
  destruct (Lexer.is_one_of c ["1"%char; "T"%char]) eqn:E3;
    [intros H; inversion H; subst; exists n; split; [lia|reflexivity]|].
  destruct (Lexer.is_one_of c ["("%char]) eqn:E4;
    [intros H; inversion H; subst; exists n; split; [lia|reflexivity]|].
  destruct (Lexer.is_one_of c [")"%char]) eqn:E5;
    [intros H; inversion H; subst; exists n; split; [lia|reflexivity]|].
  destruct (Lexer.is_one_of c ["^"%char; "*"%char]) eqn:E6;
    [intros H; inversion H; subst; exists n; split; [lia|reflexivity]|].
  destruct (Lexer.is_one_of c ["v"%char; "+"%char]) eqn:E7;
    [intros H; inversion H; subst; exists n; split; [lia|reflexivity]|].
  destruct (Lexer.is_one_of c ["!"%char; "~"%char]) eqn:E8;
    [intros H; inversion H; subst; exists n; split; [lia|reflexivity]|].
  destruct (Lexer.is_one_of c ["-"%char]) eqn:E9.
  { destruct r as [|c2 r2]; cbn [append].
    - intros H; inversion H; subst. destruct n as [|n]; cbn.
      + exists 0. split; [lia|reflexivity].
      + exists n. split; [lia|reflexivity].
    - destruct (Ascii.eqb c2 ">"%char);
        intros H; inversion H; subst; exists n; split; try lia; reflexivity. }
  destruct (Lexer.is_one_of c ["<"%char]) eqn:E10.
  { destruct r as [|c2 r2]; cbn [append].
    - intros H; inversion H; subst. destruct n as [|n]; cbn.
      + exists 0. split; [lia|reflexivity].
      + exists n. split; [lia|reflexivity].
    - destruct (Ascii.eqb c2 "-"%char).
      + destruct r2 as [|c3 r3]; cbn [append].
        * intros H; inversion H; subst. destruct n as [|n]; cbn.
          -- exists 0. split; [lia|reflexivity].
          -- exists n. split; [lia|reflexivity].
        * destruct (Ascii.eqb c3 ">"%char);
            intros H; inversion H; subst; exists n; split; try lia;
            reflexivity.
      + intros H; inversion H; subst; exists n; split; try lia; reflexivity. }
  intros H; inversion H; subst; exists n; split; [lia|reflexivity].
Qed.

Lemma scan_from_trailing_spaces (s : string) :
  forall n acc, scan_from (s ++ spaces n) acc = scan_from s acc.
Proof.
  induction s as [s Hnone|s o rest Hstep IH] using scan_induction;
    intros n acc.
  - destruct s; [|discriminate]. cbn [append].
    rewrite <- (append_nil_r (spaces n)). apply scan_from_spaces.
  - destruct (scan1_trailing_spaces s rest o n Hstep) as (k & _ & Hk).
    rewrite (scan_from_step (s ++ spaces n)), Hk, IH.
    rewrite (scan_from_step s), Hstep. reflexivity.
Qed.

(** The lexeme of a token the scanner can produce is scanned as that token,
    whatever follows. *)
Lemma scan_from_lexeme (tk : Token) (r : string) (acc : Scanned) :
  scannable tk ->
  scan_from (Token.lexeme tk ++ r) acc
  = scan_from r (push_scanned (Some tk) acc).
Proof.
  intros [Hin|[c [Hc ->]]].
  - unfold fixed_tokens in Hin. cbn [In] in Hin.
    repeat (destruct Hin as [<-|Hin]; [reflexivity|]). destruct Hin.
  - rewrite scan_from_step.
    cbn [Token.lexeme Token._lexeme tok_var append scan1].
    destruct (LexerFacts.reserved_case c Hc)
      as (H1 & H2 & H3 & H4 & H5 & H6 & H7 & H8 & H9 & H10).
    rewrite H1, H2, H3, H4, H5, H6, H7, H8, H9, H10. reflexivity.
Qed.

Lemma scan_from_text (gap : nat) (tokens : list Token) :
  Forall scannable tokens ->
  forall acc,
    scan_from (text_of gap tokens) acc
    = (fst acc ++ tokens, register_all tokens (snd acc)).
Proof.
  induction 1 as [|tk rest Htk Hrest IH]; intros [t p].
  - cbn. rewrite app_nil_r. reflexivity.
  - cbn [text_of]. rewrite scan_from_lexeme by exact Htk.
    rewrite scan_from_spaces, IH. cbn [push_scanned fst snd].
    rewrite <- app_assoc. reflexivity.
Qed.

Lemma tokens_of_scan (source : string) :
  tokens_of source = fst (scan_from source ([], [])).
Proof.
  unfold tokens_of, Lexer.getTokens.
  change (Lexer._tokens (Lexer.new source))
    with (fst (scanned (Lexer.new source))).
  rewrite ScanFacts.new_scan_from. reflexivity.
Qed.

Lemma registry_of_scan (source : string) :
  Lexer.getPropositionTokens (Lexer.new source)
  = snd (scan_from source ([], [])).
Proof.
  unfold Lexer.getPropositionTokens.
  change (Lexer._proposition_tokens (Lexer.new source))
    with (snd (scanned (Lexer.new source))).
  rewrite ScanFacts.new_scan_from. reflexivity.
Qed.

End ScanResults.

(** ** The reads of the validator *)

Module ReadBounds.

Import ValidatorFacts.

Section Near.

Variable oob : Z -> Token.
Variable tokens : list Token.
Variable i : Z.

(** All reads of a computation are at [i - 1], [i] or [i + 1]. *)
Definition near {A : Type} (r : Reads A) : Prop :=
  Forall (fun x => (i - 1 <= x <= i + 1)%Z) (snd r).

Lemma near_ret {A : Type} (a : A) : near (ret a).
Proof. constructor. Qed.

Lemma near_bind {A B : Type} (m : Reads A) (f : A -> Reads B) :
  near m -> (forall a, near (f a)) -> near (bind m f).
Proof.
  intros Hm Hf. unfold near. rewrite snd_bind. apply Forall_app.
  split; [exact Hm|apply Hf].
Qed.

Lemma near_tokens_at (j : Z) :
  (i - 1 <= j <= i + 1)%Z -> near (tokens_at oob tokens j).
Proof. intros Hj. constructor; [exact Hj|constructor]. Qed.

Lemma near_or_else (a b : Reads bool) : near a -> near b -> near (or_else a b).
Proof.
  intros Ha Hb. apply near_bind; [exact Ha|].
  intros [|]; [apply near_ret|exact Hb].
Qed.

Lemma near_and_then (a b : Reads bool) :
  near a -> near b -> near (and_then a b).
Proof.
  intros Ha Hb. apply near_bind; [exact Ha|].
  intros [|]; [exact Hb|apply near_ret].
Qed.

Lemma near_not (a : Reads bool) : near a -> near (not_ a).
Proof. intros Ha. apply near_bind; [exact Ha|]. intros x. apply near_ret. Qed.

Lemma near_type_at_is (j : Z) (ty : Token.Type_) :
  (i - 1 <= j <= i + 1)%Z -> near (type_at_is oob tokens j ty).
Proof.
  intros Hj. apply near_bind; [apply near_tokens_at; exact Hj|].
  intros tk. apply near_ret.
Qed.

Lemma near_isOperator_at (j : Z) :
  (i - 1 <= j <= i + 1)%Z -> near (isOperator_at oob tokens j).
Proof.
  intros Hj. apply near_bind; [apply near_tokens_at; exact Hj|].
  intros tk. apply near_ret.
Qed.

(** The check at index [i] reads the indices [i - 1], [i] and [i + 1]
    only. *)
Lemma near_check_token : near (check_token oob tokens i).
Proof.
  unfold check_token. apply near_bind; [apply near_tokens_at; lia|].
  intros tk.
  destruct (Token.type tk);
    repeat first
      [ apply near_ret
      | apply near_or_else
      | apply near_and_then
      | apply near_not
      | apply near_type_at_is; lia
      | apply near_isOperator_at; lia ].
Qed.

End Near.

(** The loop from index [i] over [n] tokens reads between [i - 1] and
    [i + n] only. *)
Lemma validate_loop_bounds (oob : Z -> Token) (tokens : list Token) (n : nat) :
  forall i flag,
    Forall (fun x => (i - 1 <= x <= i + Z.of_nat n)%Z)
           (snd (validate_loop oob tokens n i flag)).
Proof.
  induction n as [|n IH]; intros i flag; cbn [validate_loop].
  - constructor.
  - rewrite snd_bind. apply Forall_app. split.
    + eapply Forall_impl; [|apply (near_check_token oob tokens i)].
      cbn beta. intros x Hx. lia.
    + eapply Forall_impl; [|apply IH]. cbn beta. intros x Hx. lia.
Qed.

End ReadBounds.

(** ** What the validator rejects *)

Module RejectFacts.

Import ValidatorFacts.

(** Once the flag is cleared it stays cleared. *)
Lemma validate_loop_false (oob : Z -> Token) (tokens : list Token) (n : nat) :
  forall i, fst (validate_loop oob tokens n i false) = false.
Proof.
  induction n as [|n IH]; intros i; cbn [validate_loop]; [reflexivity|].
  rewrite fst_bind. destruct (fst (check_token oob tokens i)); apply IH.
Qed.

(** A check that fails at one of the indices of the loop clears the flag. *)
Lemma validate_loop_rejects (oob : Z -> Token) (tokens : list Token) (n : nat) :
  forall i flag (j : nat),
    (j < n)%nat ->
    fst (check_token oob tokens (i + Z.of_nat j)) = false ->
    fst (validate_loop oob tokens n i flag) = false.
Proof.
  induction n as [|n IH]; intros i flag j Hj Hfail; [lia|].
  cbn [validate_loop]. rewrite fst_bind.
  destruct j as [|j].
  - replace (i + Z.of_nat 0)%Z with i in Hfail by lia.
    rewrite Hfail. apply validate_loop_false.
  - apply (IH (i + 1)%Z _ j); [lia|].
    replace (i + 1 + Z.of_nat j)%Z with (i + Z.of_nat (S j))%Z by lia.
    exact Hfail.
Qed.

(** The check fails at a stranded token, both neighbours of which are in
    the sequence. *)
Lemma check_token_stranded (oob : Z -> Token) (pre post : list Token)
      (a x b : Token) :
  stranded a x b = true ->
  fst (check_token oob ((pre ++ [a]) ++ x :: b :: post)
                   (Z.of_nat (List.length (pre ++ [a]))))
  = false.
Proof.
  intros H. unfold check_token. rewrite fst_bind.
  change (fst (tokens_at oob ((pre ++ [a]) ++ x :: b :: post)
                         (Z.of_nat (List.length (pre ++ [a])))))
    with (token_read oob ((pre ++ [a]) ++ x :: b :: post)
                     (Z.of_nat (List.length (pre ++ [a])))).
  rewrite token_read_middle.
  assert (Hsize : (tokens_size ((pre ++ [a]) ++ x :: b :: post) =? 1)%Z
                  = false).
  { unfold tokens_size. rewrite !length_app. cbn [List.length].
    apply Z.eqb_neq. lia. }
  unfold stranded, is_operand, is_binary, is_rparen, opens, starts_operand,
    Token.isOperator, Token.type in H.
  destruct (Token.type x) eqn:Ex; unfold Token.type in Ex; rewrite Ex in H;
    rewrite ?fst_or_else, ?fst_and_then, ?fst_not, ?fst_type_at_is,
      ?fst_isOperator_at, ?token_read_next, ?token_read_previous;
    cbn [fst ret]; rewrite ?Hsize;
    unfold Token.isOperator, Token.type;
    destruct (Token._type a); destruct (Token._type b);
    try discriminate H; reflexivity.
Qed.

End RejectFacts.

(** ** The stacks of the converter *)

Module ConverterShape.

Lemma operator_kind (tk : Token) :
  Token.isOperator tk = true ->
  is_lparen tk = false /\ is_rparen tk = false /\ is_operand tk = false.
Proof.
  unfold Token.isOperator, is_lparen, is_rparen, is_operand, Token.type.
  destruct (Token._type tk); intros H; try discriminate H;
    repeat split; reflexivity.
Qed.

Lemma lparen_kind (tk : Token) :
  is_lparen tk = true ->
  Token.isOperator tk = false /\ is_rparen tk = false
  /\ is_operand tk = false.
Proof.
  unfold Token.isOperator, is_lparen, is_rparen, is_operand, Token.type.
  destruct (Token._type tk); intros H; try discriminate H;
    repeat split; reflexivity.
Qed.

Lemma rparen_kind (tk : Token) :
  is_rparen tk = true ->
  Token.isOperator tk = false /\ is_lparen tk = false
  /\ is_operand tk = false.
Proof.
  unfold Token.isOperator, is_lparen, is_rparen, is_operand, Token.type.
  destruct (Token._type tk); intros H; try discriminate H;
    repeat split; reflexivity.
Qed.

Lemma operand_kind (tk : Token) :
  Token.isOperator tk = false -> is_lparen tk = false ->
  is_rparen tk = false -> is_operand tk = true.
Proof.
  unfold Token.isOperator, is_lparen, is_rparen, is_operand, Token.type.
  destruct (Token._type tk); intros H1 H2 H3;
    try discriminate H1; try discriminate H2; try discriminate H3;
    reflexivity.
Qed.

(** What the operator case pops: a prefix of the stack, every token of
    which has a smaller precedence number than the incoming operator. *)
Lemma pop_tighter_split (tk : Token) (operators : list Token) :
  forall output operators' output',
    pop_tighter tk operators output = (operators', output') ->
    exists popped,
      operators = popped ++ operators'
      /\ output' = output ++ popped
      /\ Forall (fun top => (Token.precedence top < Token.precedence tk)%Z)
                popped.
Proof.
  induction operators as [|top rest IH]; intros output operators' output';
    cbn [pop_tighter].
  - intros H. inversion H; subst. exists [].
    split; [reflexivity|]. split; [symmetry; apply app_nil_r|constructor].
  - destruct (Token.precedence tk >? Token.precedence top)%Z eqn:E.
    + intros H. destruct (IH _ _ _ H) as (popped & -> & -> & Hall).
      exists (top :: popped).
      split; [reflexivity|]. split; [rewrite <- app_assoc; reflexivity|].
      constructor; [lia|exact Hall].
    + intros H. inversion H; subst. exists [].
      split; [reflexivity|]. split; [symmetry; apply app_nil_r|constructor].
Qed.

(** What the right-parenthesis case pops: the tokens above the topmost left
    parenthesis, and that parenthesis. *)
Lemma pop_to_lparen_split (operators : list Token) :
  forall output operators' output',
    pop_to_lparen operators output = Some (operators', output') ->
    exists popped lp,
      operators = popped ++ lp :: operators'
      /\ output' = output ++ popped
      /\ is_lparen lp = true
      /\ filter is_lparen popped = [].
Proof.
  induction operators as [|top rest IH]; intros output operators' output';
    cbn [pop_to_lparen]; [discriminate|].
  destruct (Token.Type_eqb (Token.type top) Token.LPAREN) eqn:E.
  - intros H. inversion H; subst. exists [], top.
    split; [reflexivity|]. split; [symmetry; apply app_nil_r|].
    split; [exact E|reflexivity].
  - intros H. destruct (IH _ _ _ H) as (popped & lp & -> & -> & Hlp & Hno).
    exists (top :: popped), lp.
    split; [reflexivity|]. split; [rewrite <- app_assoc; reflexivity|].
    split; [exact Hlp|].
    cbn [filter]. unfold is_lparen at 1. rewrite E. exact Hno.
Qed.

(** [top()] is reached on an empty stack exactly when the stack holds no
    left parenthesis. *)
Lemma pop_to_lparen_none (operators : list Token) :
  forall output,
    pop_to_lparen operators output = None <-> lparens operators = 0%nat.
Proof.
  unfold lparens.
  induction operators as [|top rest IH]; intros output;
    cbn [pop_to_lparen filter].
  - split; reflexivity.
  - unfold is_lparen at 1.
    destruct (Token.Type_eqb (Token.type top) Token.LPAREN).
    + split; intros H; discriminate H.
    + apply IH.
Qed.

Lemma operands_of_app (a b : list Token) :
  operands_of (a ++ b) = operands_of a ++ operands_of b.
Proof. apply filter_app. Qed.

Lemma operands_of_skip (tk : Token) (l : list Token) :
  is_operand tk = false -> operands_of (tk :: l) = operands_of l.
Proof. intros H. unfold operands_of. cbn [filter]. rewrite H. reflexivity. Qed.

Lemma operands_of_keep (tk : Token) (l : list Token) :
  is_operand tk = true -> operands_of (tk :: l) = tk :: operands_of l.
Proof. intros H. unfold operands_of. cbn [filter]. rewrite H. reflexivity. Qed.

Lemma lparens_app (a b : list Token) :
  lparens (a ++ b) = (lparens a + lparens b)%nat.
Proof. unfold lparens. rewrite filter_app. apply length_app. Qed.

(** The operands reach the output in the order of the input, whatever the
    operators and parentheses around them. *)
Lemma toPostFix_loop_operands (tokens : list Token) :
  forall operators output result,
    operands_of operators = [] ->
    toPostFix_loop tokens operators output = Some result ->
    operands_of result = operands_of output ++ operands_of tokens.
Proof.
  induction tokens as [|tk rest IH]; intros operators output result Hops;
    cbn [toPostFix_loop].
  - intros H. inversion H; subst. rewrite ConverterFacts.pop_all_app.
    rewrite operands_of_app, Hops. reflexivity.
  - destruct (Token.isOperator tk) eqn:Eop.
    + destruct (operator_kind tk Eop) as (_ & _ & Hk).
      destruct (pop_tighter tk operators output) as [operators' output']
        eqn:Epop.
      destruct (pop_tighter_split _ _ _ _ _ Epop) as (popped & -> & -> & _).
      rewrite operands_of_app in Hops.
      apply app_eq_nil in Hops. destruct Hops as [Hpop Hrest].
      intros H. apply IH in H.
      * rewrite H, operands_of_app, Hpop, app_nil_r.
        rewrite (operands_of_skip tk rest Hk). reflexivity.
      * rewrite (operands_of_skip tk _ Hk). exact Hrest.
    + fold (is_lparen tk). destruct (is_lparen tk) eqn:Elp.
      * destruct (lparen_kind tk Elp) as (_ & _ & Hk).
        intros H. apply IH in H.
        -- rewrite H, (operands_of_skip tk rest Hk). reflexivity.
        -- rewrite (operands_of_skip tk _ Hk). exact Hops.
      * fold (is_rparen tk). destruct (is_rparen tk) eqn:Erp.
        -- destruct (rparen_kind tk Erp) as (_ & _ & Hk).
           destruct (pop_to_lparen operators output)
             as [[operators' output']|] eqn:Epop; [|discriminate].
           destruct (pop_to_lparen_split _ _ _ _ Epop)
             as (popped & lp & -> & -> & Hlp & _).
           rewrite operands_of_app in Hops.
           apply app_eq_nil in Hops. destruct Hops as [Hpop Hrest].
           destruct (lparen_kind lp Hlp) as (_ & _ & Hk').
           rewrite (operands_of_skip lp _ Hk') in Hrest.
           intros H. apply IH in H; [|exact Hrest].
           rewrite H, operands_of_app, Hpop, app_nil_r.
           rewrite (operands_of_skip tk rest Hk). reflexivity.
        -- pose proof (operand_kind tk Eop Elp Erp) as Hk.
           intros H. apply IH in H; [|exact Hops].
           rewrite H, operands_of_app, <- app_assoc.
           rewrite (operands_of_keep tk rest Hk).
           rewrite (operands_of_keep tk [] Hk). reflexivity.
Qed.

Lemma ranked_popped (tk : Token) (popped : list Token) :
  ranked tk -> Token.isOperator tk = true -> Forall ranked popped ->
  Forall (fun top => (Token.precedence top < Token.precedence tk)%Z) popped ->
  filter is_lparen popped = [].
Proof.
  intros [Hop _] Eop Hr Hlt. specialize (Hop Eop).
  induction popped as [|top rest IH]; [reflexivity|].
  inversion Hr as [|? ? [_ Htop] Hr']; subst.
  inversion Hlt as [|? ? Hlt1 Hlt']; subst.
  cbn [filter]. destruct (is_lparen top) eqn:E.
  - specialize (Htop eq_refl). lia.
  - apply IH; assumption.
Qed.

(** The converter stops at [top()] of an empty stack exactly when a right
    parenthesis has no open left parenthesis before it; otherwise every
    left parenthesis that is still open at the end is moved to the output. *)
Lemma toPostFix_loop_parens (tokens : list Token) :
  forall operators output,
    Forall ranked tokens -> Forall ranked operators ->
    match toPostFix_loop tokens operators output with
    | None => unmatched_rparen (lparens operators) tokens = true
    | Some result =>
        unmatched_rparen (lparens operators) tokens = false
        /\ lparens result
           = (lparens output + open_at_end (lparens operators) tokens)%nat
    end.
Proof.
  induction tokens as [|tk rest IH]; intros operators output Htk Hops;
    cbn [toPostFix_loop unmatched_rparen open_at_end].
  - split; [reflexivity|]. rewrite ConverterFacts.pop_all_app.
    apply lparens_app.
  - inversion Htk as [|? ? Hr Hrest]; subst.
    destruct (Token.isOperator tk) eqn:Eop.
    + destruct (operator_kind tk Eop) as (Hlp & Hrp & _).
      rewrite Hlp, Hrp.
      destruct (pop_tighter tk operators output) as [operators' output']
        eqn:Epop.
      destruct (pop_tighter_split _ _ _ _ _ Epop)
        as (popped & -> & -> & Hlt).
      apply Forall_app in Hops. destruct Hops as [Hpopped Hops'].
      pose proof (ranked_popped tk popped Hr Eop Hpopped Hlt) as Hno.
      specialize (IH (tk :: operators') (output ++ popped) Hrest
                     (Forall_cons _ Hr Hops')).
      assert (E1 : lparens (tk :: operators')
                   = lparens (popped ++ operators')).
      { rewrite lparens_app. unfold lparens. cbn [filter].
        rewrite Hlp, Hno. reflexivity. }
      assert (E2 : lparens (output ++ popped) = lparens output).
      { rewrite lparens_app. unfold lparens at 2. rewrite Hno. cbn. lia. }
      rewrite E1, E2 in IH. exact IH.
    + fold (is_lparen tk). destruct (is_lparen tk) eqn:Elp.
      * specialize (IH (tk :: operators) output Hrest
                       (Forall_cons _ Hr Hops)).
        assert (E1 : lparens (tk :: operators) = S (lparens operators)).
        { unfold lparens. cbn [filter]. rewrite Elp. reflexivity. }
        rewrite E1 in IH. exact IH.
      * fold (is_rparen tk). destruct (is_rparen tk) eqn:Erp.
        -- destruct (pop_to_lparen operators output)
             as [[operators' output']|] eqn:Epop.
           ++ destruct (pop_to_lparen_split _ _ _ _ Epop)
                as (popped & lp & -> & -> & Hlp & Hno).
              apply Forall_app in Hops. destruct Hops as [_ Hops'].
              inversion Hops' as [|? ? _ Hops'']; subst.
              specialize (IH operators' (output ++ popped) Hrest Hops'').
              assert (E1 : lparens (popped ++ lp :: operators')
                           = S (lparens operators')).
              { rewrite lparens_app. unfold lparens. cbn [filter].
                rewrite Hlp, Hno. reflexivity. }
              assert (E2 : lparens (output ++ popped) = lparens output).
              { rewrite lparens_app. unfold lparens at 2. rewrite Hno.
                cbn. lia. }
              rewrite E1. cbn [pred]. rewrite E2 in IH. exact IH.
           ++ apply pop_to_lparen_none in Epop. rewrite Epop. reflexivity.
        -- specialize (IH operators (output ++ [tk]) Hrest Hops).
           assert (E2 : lparens (output ++ [tk]) = lparens output).
           { rewrite lparens_app. unfold lparens at 2. cbn [filter].
             rewrite Elp. cbn. lia. }
           rewrite E2 in IH. exact IH.
Qed.

End ConverterShape.

(** ** The rows of the table *)

Module RowFacts.

Lemma testbit_above (i : Z) (n : nat) (m : Z) :
  (0 <= i < 2 ^ Z.of_nat n)%Z -> (Z.of_nat n <= m)%Z ->
  Z.testbit i m = false.
Proof.
  intros Hi Hm. rewrite <- (Z.mod_small i (2 ^ Z.of_nat n)) by exact Hi.
  apply Z.mod_pow2_bits_high. lia.
Qed.

Lemma bindings_length (n : nat) (i : Z) : List.length (bindings n i) = n.
Proof. unfold bindings. rewrite length_map. apply length_seq. Qed.

(** Two row counters below [2 ^ n] that bind the variables alike are
    equal. *)
Lemma bindings_inj (n : nat) (i i' : Z) :
  (0 <= i < 2 ^ Z.of_nat n)%Z -> (0 <= i' < 2 ^ Z.of_nat n)%Z ->
  bindings n i = bindings n i' -> i = i'.
Proof.
  intros Hi Hi' H. apply Z.bits_inj'. intros m Hm.
  destruct (Z_lt_le_dec m (Z.of_nat n)) as [Hlt|Hge].
  - unfold bindings in H.
    pose proof (proj1 map_ext_in_iff H
                      (Z.to_nat (Z.of_nat n - 1 - m))) as Hp.
    cbn beta in Hp.
    replace (Z.of_nat n - 1 - Z.of_nat (Z.to_nat (Z.of_nat n - 1 - m)))%Z
      with m in Hp by lia.
    apply (f_equal negb) in Hp.
    + rewrite !negb_involutive in Hp. exact Hp.
    + apply in_seq. lia.
  - rewrite (testbit_above i n m Hi Hge), (testbit_above i' n m Hi' Hge).
    reflexivity.
Qed.

Lemma in_counters (n : nat) (i : Z) :
  In i (counters n) <-> (0 <= i < Z.of_nat n)%Z.
Proof.
  unfold counters. rewrite in_map_iff. split.
  - intros (p & <- & Hp). apply in_seq in Hp. lia.
  - intros Hi. exists (Z.to_nat i). split; [lia|]. apply in_seq. lia.
Qed.

Lemma counters_nodup (n : nat) : NoDup (counters n).
Proof.
  unfold counters. apply Finite.Injective_map_NoDup.
  - intros a b H. lia.
  - apply seq_NoDup.
Qed.

Lemma all_assignments_length (n : nat) :
  List.length (all_assignments n) = (2 ^ n)%nat.
Proof.
  induction n as [|n IH]; [reflexivity|].
  cbn [all_assignments]. rewrite length_app, !length_map, IH.
  rewrite Nat.pow_succ_r'. lia.
Qed.

Lemma all_assignments_complete (a : list bool) :
  In a (all_assignments (List.length a)).
Proof.
  induction a as [|b a IH]; [left; reflexivity|].
  cbn [List.length all_assignments]. apply in_or_app.
  destruct b; [left|right]; apply in_map; exact IH.
Qed.

(** The rows bind the variables in every possible way, each once. *)
Lemma bindings_enumerate (n : nat) :
  Permutation (map (bindings n) (counters (2 ^ n))) (all_assignments n).
Proof.
  apply NoDup_Permutation_bis.
  - apply Finite.Injective_map_NoDup_in; [|apply counters_nodup].
    intros i i' Hi Hi' H. apply in_counters in Hi, Hi'.
    rewrite Nat2Z.inj_pow in Hi, Hi'.
    apply (bindings_inj n); assumption.
  - rewrite all_assignments_length, length_map.
    unfold counters. rewrite length_map, length_seq. lia.
  - intros a Ha. apply in_map_iff in Ha. destruct Ha as (i & <- & _).
    pose proof (all_assignments_complete (bindings n i)) as H.
    rewrite bindings_length in H. exact H.
Qed.





End RowFacts.

(** ** The input loop *)

Module MainFacts.

(** The loop evaluates the lines up to the first [quit], as long as every
    evaluation comes back. *)
Lemma main_loop_session (oobs : nat -> Z -> Token) (fuel : nat)
      (after : list string) :
  forall before call answer,
    ~ In "quit" (answer :: before) ->
    (forall c line,
        In line (answer :: before) ->
        completes (evaluate (oobs c) fuel line) = true) ->
    main_loop oobs fuel call answer (before ++ "quit" :: after)
    = (session oobs fuel call (answer :: before), Returned).
Proof.
  induction before as [|line rest IH]; intros call answer Hquit Hdone;
    cbn [main_loop app session].
  - destruct (String.eqb_spec answer "quit") as [->|_].
    { exfalso. apply Hquit. left. reflexivity. }
    rewrite (Hdone call answer) by (left; reflexivity).
    destruct after; reflexivity.
  - destruct (String.eqb_spec answer "quit") as [->|_].
    { exfalso. apply Hquit. left. reflexivity. }
    rewrite (Hdone call answer) by (left; reflexivity).
    rewrite (IH (S call) line).
    + reflexivity.
    + intros Hin. apply Hquit. right. exact Hin.
    + intros c l Hin. apply Hdone. right. exact Hin.
Qed.

(** Without a line [quit] the loop evaluates every line. *)
Lemma main_loop_no_quit (oobs : nat -> Z -> Token) (fuel : nat) :
  forall input call answer,
    ~ In "quit" (answer :: input) ->
    (forall c line,
        In line (answer :: input) ->
        completes (evaluate (oobs c) fuel line) = true) ->
    main_loop oobs fuel call answer input
    = (session oobs fuel call (answer :: input), EndOfInput).
Proof.
  induction input as [|line rest IH]; intros call answer Hquit Hdone;
    cbn [main_loop session].
  - destruct (String.eqb_spec answer "quit") as [->|_].
    { exfalso. apply Hquit. left. reflexivity. }
    rewrite (Hdone call answer) by (left; reflexivity). reflexivity.
  - destruct (String.eqb_spec answer "quit") as [->|_].
    { exfalso. apply Hquit. left. reflexivity. }
    rewrite (Hdone call answer) by (left; reflexivity).
    rewrite (IH (S call) line).
    + reflexivity.
    + intros Hin. apply Hquit. right. exact Hin.
    + intros c l Hin. apply Hdone. right. exact Hin.
Qed.

End MainFacts.

(** ** Shared facts about scanned sequences *)

Module ScannedFacts.

Lemma tokens_of_scannable (source : string) :
  Forall scannable (tokens_of source).
Proof.
  rewrite ScanResults.tokens_of_scan. apply ScanResults.scan_from_scannable.
Qed.

Lemma scannable_ranked (tk : Token) : scannable tk -> ranked tk.
Proof.
  intros [Hin|[c [_ ->]]].
  - unfold fixed_tokens in Hin. cbn [In] in Hin.
    repeat (destruct Hin as [<-|Hin];
            [split; intros H; try discriminate H;
             vm_compute; try reflexivity; discriminate|]).
    destruct Hin.
  - split; intros H; discriminate H.
Qed.

Lemma tokens_of_ranked (source : string) : Forall ranked (tokens_of source).
Proof.
  eapply Forall_impl; [|apply tokens_of_scannable].
  intros tk. apply scannable_ranked.
Qed.

(** The registry holds the variables of the tokens, registered in their
    order. *)
Lemma registry_of_tokens (source : string) :
  Lexer.getPropositionTokens (Lexer.new source)
  = register_all (tokens_of source) [].
Proof.
  rewrite ScanResults.registry_of_scan, ScanResults.tokens_of_scan.
  exact (f_equal snd (ScanResults.scan_from_frame source [] [])).
Qed.

(** Without a variable among the tokens the registry is empty. *)
Lemma registry_without_variables (source : string) :
  (forall tk, In tk (tokens_of source) ->
              Token.type tk <> Token.PROPOSITION) ->
  Lexer.getPropositionTokens (Lexer.new source) = [].
Proof.
  intros Hno.
  destruct (HeaderFacts.new_inv source) as (_ & Hnames & _).
  unfold Lexer.getPropositionTokens.
  destruct (Lexer._proposition_tokens (Lexer.new source)) as [|[k x] rest];
    [reflexivity|].
  exfalso.
  destruct (proj1 (Hnames k) (or_introl eq_refl)) as (tk & Hin & Hty & _).
  exact (Hno tk Hin Hty).
Qed.

End ScannedFacts.

(** ** The scanner *)

(** X1: the scanning loop of the constructor ends. After as many
    iterations as the source has characters the end of the source is
    reached, any further iteration changes nothing, and the scanner has
    produced at most one token per character. *)
Theorem scanning_ends_within_the_source (source : string) :
  Lexer.endReached (Lexer.new source) = true
  /\ (forall more,
         Lexer.scanTokens (String.length source + more)
                          (Lexer.mk [] [] source 0 0)
         = Lexer.new source)
  /\ List.length (tokens_of source) <= String.length source.
Proof.
  split; [|split].
  - unfold Lexer.new. apply LexerFacts.scanTokens_reaches_end. cbn. lia.
  - intros more. unfold Lexer.new.
    apply LexerFacts.scanTokens_fuel_irrelevant. cbn. lia.
  - rewrite ScanResults.tokens_of_scan. apply ScanResults.scan_from_length.
Qed.

(** X2: every token the scanner produces is one of fourteen fixed tokens
    (0, F, 1, T, the parentheses, ^, *, v, +, !, ~, -> and <->, each with
    the type, precedence and value of its case) or a variable whose lexeme
    is a single character the scanner has no case for. *)
Theorem scanned_tokens_are_fixed_or_variables (source : string) :
  Forall scannable (tokens_of source).
Proof. apply ScannedFacts.tokens_of_scannable. Qed.

(** X3: scanning reads back what was written. For tokens the scanner can
    produce, the text made of their lexemes, each followed by the same
    number of spaces (none included), is scanned to exactly these
    tokens. *)
Theorem scanner_reads_back_token_text (gap : nat) (tokens : list Token) :
  Forall scannable tokens -> tokens_of (text_of gap tokens) = tokens.
Proof.
  intros Hall. rewrite ScanResults.tokens_of_scan.
  rewrite (ScanResults.scan_from_text gap tokens Hall ([], [])).
  reflexivity.
Qed.

Lemma scanner_reads_back_token_text_witness :
  Forall scannable
         [tok_not "~"; tok_var "p"; tok_bin Iff "<->"; tok_lit true "T"]
  /\ tokens_of "~  p  <->  T  "
     = [tok_not "~"; tok_var "p"; tok_bin Iff "<->"; tok_lit true "T"].
Proof.
  assert (H : Forall scannable
                [tok_not "~"; tok_var "p"; tok_bin Iff "<->";
                 tok_lit true "T"]).
  { apply Forall_cons; [left; unfold fixed_tokens; cbn [In]; tauto|].
    apply Forall_cons; [right; exists "p"%char; split; reflexivity|].
    apply Forall_cons; [left; unfold fixed_tokens; cbn [In]; tauto|].
    apply Forall_cons; [left; unfold fixed_tokens; cbn [In]; tauto|].
    apply Forall_nil. }
  split; [exact H|].
  exact (scanner_reads_back_token_text 2 _ H).
Defined.

(** X4: only the tokens of a line matter, not how they are spaced. Writing
    the lexemes of the tokens of a line one after the other, with any fixed
    number of spaces after each, gives a line with the same tokens and the
    same registry of variables. *)
Theorem spacing_of_tokens_is_irrelevant (source : string) (gap : nat) :
  tokens_of (text_of gap (tokens_of source)) = tokens_of source
  /\ Lexer.getPropositionTokens (Lexer.new (text_of gap (tokens_of source)))
     = Lexer.getPropositionTokens (Lexer.new source).
Proof.
  assert (Htok : tokens_of (text_of gap (tokens_of source))
                 = tokens_of source).
  { rewrite (ScanResults.tokens_of_scan (text_of gap (tokens_of source))).
    rewrite (ScanResults.scan_from_text
               gap (tokens_of source)
               (ScannedFacts.tokens_of_scannable source) ([], [])).
    reflexivity. }
  split; [exact Htok|].
  rewrite !ScannedFacts.registry_of_tokens, Htok. reflexivity.
Qed.

(** ** validateTokenString *)

(** X5: the validator accepts every well-formed sequence: every sequence
    that the grammar of literals, variables, negations, binary operators
    and matched parentheses derives passes, whatever the reads before the
    first and after the last token yield. *)
Theorem validator_accepts_well_formed_sequences
        (oob : Z -> Token) (k : Z) (ts : list Token) (e : Expr) :
  Parses k ts e -> fst (validateTokenString oob ts) = true.
Proof. apply GrammarFacts.validate_parses. Qed.

Lemma validator_accepts_well_formed_sequences_witness :
  fst (validateTokenString
         (fun _ => tok_rparen)
         [tok_lparen; tok_var "p"; tok_rparen; tok_bin Or "v";
          tok_not "!"; tok_var "q"])
  = true.
Proof.
  apply (validator_accepts_well_formed_sequences
           (fun _ => tok_rparen) 4 _
           (Bin Or "v" (Var "p") (Not "!" (Var "q")))).
  apply (P_bin 4 Or "v" [tok_lparen; tok_var "p"; tok_rparen]
               [tok_not "!"; tok_var "q"]).
  - cbn. lia.
  - apply (P_paren _ [tok_var "p"]); [cbn; lia|].
    apply P_var. lia.
  - apply P_not; [cbn; lia|]. apply P_var. lia.
Defined.

(** X6: the validator rejects a sequence with a stranded token, whatever
    the reads outside the sequence yield: a token with a neighbour on either
    side that is an operand following neither an operator nor a left
    parenthesis and preceding no binary operator, or a binary operator
    following neither an operand nor a right parenthesis and preceding
    nothing an operand can start with, or a negation following neither an
    operator nor a left parenthesis and preceding nothing an operand can
    start with. *)
Theorem validator_rejects_stranded_token
        (oob : Z -> Token) (pre post : list Token) (a x b : Token) :
  stranded a x b = true ->
  fst (validateTokenString oob (pre ++ a :: x :: b :: post)) = false.
Proof.
  intros H.
  replace (pre ++ a :: x :: b :: post)
    with ((pre ++ [a]) ++ x :: b :: post)
    by (rewrite <- app_assoc; reflexivity).
  unfold validateTokenString.
  apply (RejectFacts.validate_loop_rejects
           oob _ _ 0 true (List.length (pre ++ [a]))).
  - rewrite !length_app. cbn [List.length]. lia.
  - replace (0 + Z.of_nat (List.length (pre ++ [a])))%Z
      with (Z.of_nat (List.length (pre ++ [a]))) by lia.
    apply RejectFacts.check_token_stranded. exact H.
Qed.

Lemma validator_rejects_stranded_token_witness :
  fst (validateTokenString (fun _ => tok_bin And "^") (tokens_of "(p q)"))
  = false.
Proof.
  apply (validator_rejects_stranded_token
           (fun _ => tok_bin And "^") [tok_lparen] []
           (tok_var "p") (tok_var "q") tok_rparen).
  reflexivity.
Defined.

(** X7: the validator reads the vector at most one place outside it: every
    index it reads lies between -1 and the number of tokens, both
    included. *)
Theorem validator_reads_stay_next_to_the_sequence
        (oob : Z -> Token) (tokens : list Token) :
  Forall (fun i => (-1 <= i <= Z.of_nat (List.length tokens))%Z)
         (snd (validateTokenString oob tokens)).
Proof.
  unfold validateTokenString.
  eapply Forall_impl;
    [|apply (ReadBounds.validate_loop_bounds
               oob tokens (List.length tokens) 0 true)].
  cbn beta. intros i Hi. lia.
Qed.

(** ** toPostFix *)

(** X8: conversion and evaluation compose to the standard semantics. For
    every well-formed infix sequence, with parentheses wherever the grammar
    allows them, the converter returns the post-fix form of the reading of
    the sequence, which holds no parenthesis, and evaluating the sequence
    pushes the standard value of that reading on the operand stack, leaving
    the bindings as they are. *)
Theorem well_formed_sequence_evaluates_to_its_reading
        (k : Z) (ts : list Token) (e : Expr)
        (props : StdMap.t) (operands : list bool) :
  Parses k ts e ->
  toPostFix ts = Some (postfix_of e)
  /\ existsb is_paren (postfix_of e) = false
  /\ exists props',
      eval_infix ts (props, operands)
      = Some (props', denote props e :: operands)
      /\ forall key, bound props' key = bound props key.
Proof.
  intros HP.
  destruct (MultisetFacts.toPostFix_well_formed k ts e HP) as (Hpf & Hno & _).
  split; [exact Hpf|]. split; [exact Hno|].
  unfold eval_infix. rewrite Hpf.
  apply EvaluatorFacts.eval_postfix_of.
Qed.

Lemma well_formed_sequence_evaluates_to_its_reading_witness :
  let ts := [tok_lparen; tok_var "p"; tok_bin Implies "->"; tok_lit false "F";
             tok_rparen; tok_bin And "^"; tok_var "q"] in
  let e := Bin And "^" (Bin Implies "->" (Var "p") (Lit false "F"))
               (Var "q") in
  toPostFix ts = Some (postfix_of e)
  /\ existsb is_paren (postfix_of e) = false
  /\ exists props',
      eval_infix ts ([], []) = Some (props', denote [] e :: [])
      /\ forall key, bound props' key = bound [] key.
Proof.
  apply (well_formed_sequence_evaluates_to_its_reading
           4 _ (Bin And "^" (Bin Implies "->" (Var "p") (Lit false "F"))
                    (Var "q")) [] []).
  apply (P_bin 4 And "^"
               [tok_lparen; tok_var "p"; tok_bin Implies "->";
                tok_lit false "F"; tok_rparen]
               [tok_var "q"]).
  - cbn. lia.
  - apply (P_paren _ [tok_var "p"; tok_bin Implies "->"; tok_lit false "F"]);
      [cbn; lia|].
    apply (P_bin 4 Implies "->" [tok_var "p"] [tok_lit false "F"]).
    + cbn. lia.
    + apply P_var. cbn. lia.
    + apply P_lit. cbn. lia.
  - apply P_var. cbn. lia.
Defined.

(** X9: the converter only reorders. Whenever it returns, on any sequence,
    the operands of the result are those of the input in the same order,
    the tokens that are not parentheses occur in the result as often as in
    the input, and the result holds no right parenthesis. *)
Theorem converter_only_reorders (tokens result : list Token) :
  toPostFix tokens = Some result ->
  operands_of result = operands_of tokens
  /\ Permutation (without_parens result) (without_parens tokens)
  /\ existsb is_rparen result = false.
Proof.
  intros H. split.
  - apply (ConverterShape.toPostFix_loop_operands tokens [] [] result);
      [reflexivity|exact H].
  - apply MultisetFacts.toPostFix_keeps_tokens. exact H.
Qed.

Lemma converter_only_reorders_witness :
  let tokens := tokens_of "p v ((q ^ !r" in
  let result := [tok_var "p"; tok_var "q"; tok_var "r"; tok_not "!";
                 tok_bin And "^"; tok_lparen; tok_lparen; tok_bin Or "v"] in
  toPostFix tokens = Some result
  /\ operands_of result = operands_of tokens
  /\ Permutation (without_parens result) (without_parens tokens)
  /\ existsb is_rparen result = false.
Proof.
  split; [reflexivity|].
  apply (converter_only_reorders (tokens_of "p v ((q ^ !r")).
  reflexivity.
Defined.

(** X10: on the tokens of any line the converter reads the top of an empty
    operator stack exactly when some right parenthesis has no open left
    parenthesis before it; when it returns, its result holds one left
    parenthesis for every left parenthesis that is never closed. *)
Theorem converter_fails_on_unmatched_right_parenthesis (source : string) :
  (toPostFix (tokens_of source) = None
   <-> unmatched_rparen 0 (tokens_of source) = true)
  /\ forall result,
      toPostFix (tokens_of source) = Some result ->
      lparens result = open_at_end 0 (tokens_of source).
Proof.
  pose proof (ConverterShape.toPostFix_loop_parens
                (tokens_of source) [] []
                (ScannedFacts.tokens_of_ranked source) (Forall_nil _)) as H.
  fold (toPostFix (tokens_of source)) in H.
  change (lparens []) with 0 in H.
  destruct (toPostFix (tokens_of source)) as [result|].
  - destruct H as [Hun Hopen]. split.
    + split; [discriminate|]. rewrite Hun. discriminate.
    + intros r Hr. inversion Hr; subst. exact Hopen.
  - split.
    + split; [intros _; exact H|reflexivity].
    + intros r Hr. discriminate Hr.
Qed.

(** ** evaluate *)



(** X12: whatever the line, a table that is printed to its end for at most
    30 variables has one row for each of the 2^N row counters; row [i] binds
    the variable in column [p] to the complement of bit [N - 1 - p] of [i],
    so the first row is all true, the last all false, and every way of
    binding the variables occurs in exactly one row. *)
Theorem printed_table_lists_every_assignment
        (oob : Z -> Token) (fuel : nat) (expression : string)
        (header : list string) (rows : list Row) :
  evaluate oob fuel expression = Table header (Printed rows) ->
  (List.length header <= 30)%nat ->
  header = header_of expression
  /\ map fst rows
     = map (bindings (List.length header))
           (counters (2 ^ List.length header))
  /\ Permutation (map fst rows) (all_assignments (List.length header)).
Proof.
  unfold evaluate.
  destruct (String.eqb expression ""); [discriminate|].
  fold (tokens_of expression).
  destruct (negb (fst (validateTokenString oob (tokens_of expression))));
    [discriminate|].
  intros H HN. inversion H as [[Hheader Hrows]]. clear H.
  set (props := Lexer.getPropositionTokens (Lexer.new expression)) in *.
  assert (Hsize : StdMap.size props = List.length (StdMap.keys props)).
  { unfold StdMap.size, StdMap.keys. symmetry. apply length_map. }
  rewrite <- Hheader in HN.
  destruct (TableShape.scanned_registered expression) as [Hreg Hty].
  assert (Hcells : map fst rows
                   = map (bindings (List.length (StdMap.keys props)))
                         (counters (2 ^ List.length (StdMap.keys props)))).
  { rewrite <- Hsize.
    rewrite (TableShape.table_loop_cells
               (tokens_of expression) fuel (2 ^ StdMap.size props) 0
               props [] rows Hreg Hty).
    - reflexivity.
    - lia.
    - lia.
    - rewrite Nat2Z.inj_pow. reflexivity.
    - exact Hrows. }
  split; [reflexivity|]. split; [exact Hcells|].
  rewrite Hcells. apply RowFacts.bindings_enumerate.
Qed.

Lemma printed_table_lists_every_assignment_witness :
  evaluate (fun _ => tok_rparen) 3 "(p"
  = Table ["p"] (Printed [([true], true); ([false], false)])
  /\ ["p"] = header_of "(p"
  /\ map fst [([true], true); ([false], false)]
     = map (bindings 1) (counters 2)
  /\ Permutation (map fst [([true], true); ([false], false)])
                 (all_assignments 1).
Proof.
  split; [reflexivity|].
  apply (printed_table_lists_every_assignment
           (fun _ => tok_rparen) 3 "(p" ["p"]
           [([true], true); ([false], false)]).
  - reflexivity.
  - cbn. lia.
Defined.

(** X13: evaluating the rows never extends the registry. Every variable
    token of a line was registered by the scanner, so the look-up
    [propositions[t.lexeme()]] never inserts an entry: a row that is
    evaluated from any registry with the keys of the header, the one the
    scanner built or the one an earlier row left, leaves a registry with
    the keys of the header and has one cell for each of them; so every row
    the loop prints has one cell for each name of the header. *)
Theorem evaluation_never_extends_the_registry (expression : string) :
  (forall (props props' : StdMap.t) (i : Z) (operands operands' : list bool)
          (row : Row),
      StdMap.keys props = header_of expression ->
      table_row (tokens_of expression) i (props, operands)
      = Some (row, (props', operands')) ->
      StdMap.keys props' = header_of expression
      /\ List.length (fst row) = List.length (header_of expression))
  /\ (forall (fuel : nat) (i : Z) (props : StdMap.t)
             (operands : list bool) (rows : list Row),
         StdMap.keys props = header_of expression ->
         table_loop fuel (tokens_of expression) i (props, operands)
         = Printed rows ->
         Forall (fun row : Row =>
                   List.length (fst row)
                   = List.length (header_of expression))
                rows).
Proof.
  destruct (TableShape.scanned_registered expression) as [Hscan _].
  assert (Hreg : forall props,
             StdMap.keys props = header_of expression ->
             registered (tokens_of expression) props).
  { intros props Hkeys tk Hin Hk. rewrite Hkeys. apply Hscan; assumption. }
  split.
  - intros props props' i operands operands' row Hprops.
    unfold table_row.
    destruct (bind_row i (Z.of_nat (StdMap.size props) - 1) props)
      as [[p1 cells]|] eqn:Ebind; [|discriminate].
    destruct (HeaderFacts.bind_row_cells _ _ _ _ _ Ebind) as [Hkeys Hcells].
    destruct (eval_infix (tokens_of expression) (p1, operands))
      as [[p2 o2]|] eqn:Eeval; [|discriminate].
    destruct o2 as [|top rest]; [discriminate|].
    intros H. inversion H; subst. clear H.
    unfold eval_infix in Eeval.
    destruct (toPostFix (tokens_of expression)) as [postfix|] eqn:Epf;
      [|discriminate].
    assert (Hp2 : props' = p1).
    { apply (TableFacts.eval_postfix_keeps_registry
               postfix p1 operands props' (top :: operands'));
        [|exact Eeval].
      intros tk Hin Hk. rewrite Hkeys. apply (Hreg props Hprops); [|exact Hk].
      apply (MultisetFacts.toPostFix_subset _ _ Epf). exact Hin. }
    subst props'. rewrite Hkeys, Hprops. split; [reflexivity|].
    cbn [fst]. rewrite length_map, <- Hprops, <- Hkeys.
    unfold StdMap.keys. rewrite length_map. reflexivity.
  - intros fuel i props operands rows Hprops Hloop.
    pose proof (TableFacts.table_loop_rows
                  (tokens_of expression) fuel i props operands rows
                  (Hreg props Hprops) Hloop) as Hrows.
    eapply Forall_impl; [|exact Hrows].
    intros row (props_i & Hkeys & Hcells).
    rewrite Hcells, length_map, <- Hprops, <- Hkeys.
    unfold StdMap.keys. rewrite length_map. reflexivity.
Qed.

Lemma evaluation_never_extends_the_registry_witness :
  let after_row_0 := [("p", Token.setValue true (tok_var "p"));
                      ("q", Token.setValue true (tok_var "q"))] in
  let after_row_1 := [("p", Token.setValue true (tok_var "p"));
                      ("q", Token.setValue false (tok_var "q"))] in
  table_row (tokens_of "q ^ p") 0
            (Lexer.getPropositionTokens (Lexer.new "q ^ p"), [])
  = Some (([true; true], true), (after_row_0, []))
  /\ table_row (tokens_of "q ^ p") 1 (after_row_0, [])
     = Some (([true; false], false), (after_row_1, []))
  /\ StdMap.keys after_row_1 = header_of "q ^ p"
  /\ List.length (fst ([true; false], false))
     = List.length (header_of "q ^ p").
Proof.
  intros after_row_0 after_row_1.
  split; [reflexivity|]. split; [reflexivity|].
  destruct (evaluation_never_extends_the_registry "q ^ p") as [Hrow _].
  apply (Hrow after_row_0 after_row_1 1%Z [] [] ([true; false], false)).
  - reflexivity.
  - reflexivity.
Defined.

(** X14: a line that is not empty but holds only spaces and parentheses is
    not rejected: the validator accepts it, the empty header is printed, and
    the first row reads the top of an empty operand stack (or the converter
    the top of an empty operator stack), which is undefined. *)
Theorem line_of_parentheses_is_undefined
        (oob : Z -> Token) (fuel : nat) (expression : string) :
  expression <> "" ->
  Forall (fun tk => is_paren tk = true) (tokens_of expression) ->
  evaluate oob (S fuel) expression = Table [] Undefined.
Proof.
  intros Hne Hall. unfold evaluate.
  destruct (String.eqb_spec expression "") as [Heq|_]; [contradiction|].
  fold (tokens_of expression).
  assert (Hacc : fst (validateTokenString oob (tokens_of expression)) = true).
  { apply ValidatorFacts.validate_accepts. intros pre tk post Heq.
    assert (Htk : is_paren tk = true).
    { rewrite Forall_forall in Hall. apply Hall. rewrite Heq.
      apply in_or_app. right. left. reflexivity. }
    unfold passes_check. unfold is_paren in Htk.
    destruct (Token.type tk); try discriminate Htk; exact I. }
  rewrite Hacc. cbn [negb].
  rewrite ScannedFacts.registry_without_variables.
  - cbn [StdMap.keys map]. f_equal.
    cbn [table_loop fst StdMap.size List.length Z.of_nat].
    change (shl_one 0) with (Some 1%Z). cbn [Z.ltb Z.compare].
    unfold table_row. cbn [StdMap.size List.length Z.of_nat bind_row].
    unfold eval_infix.
    destruct (toPostFix (tokens_of expression)) as [postfix|] eqn:Epf;
      [|reflexivity].
    rewrite TableShape.eval_postfix_parens; [reflexivity|].
    rewrite Forall_forall in *. intros tk Hin. apply Hall.
    apply (MultisetFacts.toPostFix_subset _ _ Epf). exact Hin.
  - intros tk Hin Hty. rewrite Forall_forall in Hall.
    specialize (Hall tk Hin). unfold is_paren in Hall. rewrite Hty in Hall.
    discriminate Hall.
Qed.

Lemma line_of_parentheses_is_undefined_witness :
  evaluate (fun _ => Token.default) 1 " ( ) " = Table [] Undefined.
Proof.
  apply (line_of_parentheses_is_undefined (fun _ => Token.default) 0 " ( ) ").
  - discriminate.
  - vm_compute. repeat constructor.
Defined.

(** ** main *)

(** X15: the input loop evaluates the lines up to the first line that is
    exactly quit and returns there, without reading a later line; the first
    call evaluates the empty initial answer and prints nothing but the
    prompt. Without such a line every line is evaluated. Both hold as long
    as every evaluation comes back. *)
Theorem main_evaluates_the_lines_before_quit
        (oobs : nat -> Z -> Token) (fuel : nat)
        (before after : list string) :
  ~ In "quit" before ->
  (forall call line,
      In line before -> completes (evaluate (oobs call) fuel line) = true) ->
  main oobs fuel (before ++ "quit" :: after)
  = (Evaluated Silent :: Prompt :: session oobs fuel 1 before, Returned)
  /\ main oobs fuel before
     = (Evaluated Silent :: Prompt :: session oobs fuel 1 before,
        EndOfInput).
Proof.
  intros Hquit Hdone.
  assert (Hquit' : ~ In "quit" ("" :: before)).
  { intros [H|H]; [discriminate H|exact (Hquit H)]. }
  assert (Hdone' : forall c line,
             In line ("" :: before) ->
             completes (evaluate (oobs c) fuel line) = true).
  { intros c line [<-|H]; [reflexivity|exact (Hdone c line H)]. }
  unfold main. split.
  - rewrite (MainFacts.main_loop_session oobs fuel after before 0 ""
               Hquit' Hdone').
    reflexivity.
  - rewrite (MainFacts.main_loop_no_quit oobs fuel before 0 ""
               Hquit' Hdone').
    reflexivity.
Qed.

Lemma main_evaluates_the_lines_before_quit_witness :
  let oobs := fun (_ : nat) (_ : Z) => tok_rparen in
  ~ In "quit" ["!p"; "quit "; ""]
  /\ main oobs 5 (["!p"; "quit "; ""] ++ "quit" :: ["p ^ q"])
     = (Evaluated Silent :: Prompt :: session oobs 5 1 ["!p"; "quit "; ""],
        Returned)
  /\ main oobs 5 ["!p"; "quit "; ""]
     = (Evaluated Silent :: Prompt :: session oobs 5 1 ["!p"; "quit "; ""],
        EndOfInput).
Proof.
  intros oobs.
  assert (Hquit : ~ In "quit" ["!p"; "quit "; ""]).
  { intros [H|[H|[H|[]]]]; discriminate H. }
  split; [exact Hquit|].
  apply (main_evaluates_the_lines_before_quit oobs 5 _ ["p ^ q"] Hquit).
  intros call line [<-|[<-|[<-|[]]]]; reflexivity.
Defined.
